(** * Bulk IP enrichment scripts: a shallow embedding and its properties

    Three scripts are modelled:
    - [ip2subnet.py]  (module [Subnet]): the subnet bucketer;
    - [ip2geo.py]     (module [GeoApi]): the API-backend pipeline;
    - [bulk_geo_lookup.py] (module [GeoProc]): the process-backend pipeline.
    The modules [Py], [ipaddress], [PyVal], [Re] and [ReB] hold what the
    scripts take from Python and its library: text methods, the address
    parser, values with exceptions, and the fragments of [re] that the two
    patterns of the process backend need.  The modules [SubnetCli],
    [GeoApiCli] and [GeoProcCli] model a whole run of each script, with
    its files, messages and exit.  The modules [Raw], [Outcome], [Body],
    [Scenario], [Stdout], [Bucket], [Service] and [Version] define the
    notions the statements are written with; the properties follow them.

    Python [str] values are Rocq [string]s whose characters are the code
    points below 256; Python [int]s are [Z] (or [N] where the code only
    builds naturals); a [set] is a [gset], a [dict] a [gmap], an
    [OrderedDict] an association list in insertion order.  The external
    collaborators (the HTTP session, the lookup executable, the file
    system) are arguments of the functions that call them. *)

From Stdlib Require Import Ascii String ZArith NArith Lia.
From stdpp Require Import base decidable option list sorting countable strings gmap.

Local Open Scope string_scope.
Local Open Scope list_scope.
Local Open Scope Z_scope.

(** ** Python text primitives *)
Module Py.

(** [str.isspace] on one character, for code points below 256: the
    characters [\t \n \v \f \r], [\x1c]..[\x1f], the blank, NEL and the
    no-break space.  The [\s] class of [re] is the same set. *)
Definition isspace (c : ascii) : bool :=
  let n := N_of_ascii c in
  (((9 <=? n) && (n <=? 13)) || ((28 <=? n) && (n <=? 32))
   || (n =? 133) || (n =? 160))%N.

Fixpoint lstrip (s : string) : string :=
  match s with
  | EmptyString => EmptyString
  | String c s' => if isspace c then lstrip s' else s
  end.

Fixpoint rstrip (s : string) : string :=
  match s with
  | EmptyString => EmptyString
  | String c s' =>
      match rstrip s' with
      | EmptyString => if isspace c then EmptyString else String c EmptyString
      | r => String c r
      end
  end.

(** [s.strip()] *)
Definition strip (s : string) : string := rstrip (lstrip s).

(** [s.startswith(p)] *)
Fixpoint startswith (s p : string) : bool :=
  match p with
  | EmptyString => true
  | String c p' =>
      match s with
      | String x s' => Ascii.eqb x c && startswith s' p'
      | EmptyString => false
      end
  end.

(** [c in s] for a one-character [c] *)
Fixpoint contains (c : ascii) (s : string) : bool :=
  match s with
  | EmptyString => false
  | String x s' => if Ascii.eqb x c then true else contains c s'
  end.

(** [s.split(sep)] for a one-character separator: never empty. *)
Fixpoint split (sep : ascii) (s : string) : list string :=
  match s with
  | EmptyString => [EmptyString]
  | String c s' =>
      if Ascii.eqb c sep then EmptyString :: split sep s'
      else match split sep s' with
           | h :: t => String c h :: t
           | [] => [String c EmptyString]
           end
  end.

(** [s.partition(sep)]: the text before the first [sep], whether [sep] was
    found, and the text after it. *)
Fixpoint partition (sep : ascii) (s : string) : string * bool * string :=
  match s with
  | EmptyString => (EmptyString, false, EmptyString)
  | String c s' =>
      if Ascii.eqb c sep then (EmptyString, true, s')
      else let '(a, f, b) := partition sep s' in (String c a, f, b)
  end.

Fixpoint forallb_string (p : ascii → bool) (s : string) : bool :=
  match s with
  | EmptyString => true
  | String c s' => p c && forallb_string p s'
  end.

(** Iterating over a text file: the lines with their terminator, the last
    one without it when the text does not end in a newline. *)
Fixpoint file_lines_go (cur : string) (s : string) : list string :=
  match s with
  | EmptyString =>
      match cur with EmptyString => [] | _ => [String.rev cur] end
  | String c s' =>
      if Ascii.eqb c "010" then String.rev (String c cur) :: file_lines_go EmptyString s'
      else file_lines_go (String c cur) s'
  end.
Definition file_lines (text : string) : list string :=
  file_lines_go EmptyString text.

End Py.

(** ** The [ipaddress] module of the Python library

    The scripts call [ipaddress.ip_address] and [ipaddress.ip_network];
    this is their behaviour in CPython 3.9.5 and later, on text whose
    characters are below 256. *)
Module ipaddress.

(** An address object: the integer and, for IPv6, the scope id.  [==] and
    [hash] on address objects are structural equality on this type. *)
Inductive IP : Type :=
  | IPv4Address (ip : N)
  | IPv6Address (ip : N) (scope_id : option string).

(** A network object: [==] compares version, network address and mask. *)
Inductive Network : Type :=
  | IPNetwork (network_address : IP) (prefixlen : N).

#[global] Instance IP_eq_dec : EqDecision IP.
Proof. solve_decision. Defined.
#[global] Instance Network_eq_dec : EqDecision Network.
Proof. solve_decision. Defined.

#[global] Instance IP_countable : Countable IP.
Proof.
  refine (inj_countable'
    (λ a, match a with
          | IPv4Address n => inl n
          | IPv6Address n s => inr (n, s)
          end)
    (λ x, match x with
          | inl n => IPv4Address n
          | inr (n, s) => IPv6Address n s
          end) _).
  by intros [].
Defined.

Definition to_int (a : IP) : N :=
  match a with IPv4Address n => n | IPv6Address n _ => n end.

Definition max_prefixlen (a : IP) : N :=
  match a with IPv4Address _ => 32 | IPv6Address _ _ => 128 end%N.

Definition is_digit (c : ascii) : bool :=
  let n := N_of_ascii c in ((48 <=? n) && (n <=? 57))%N.

Definition hex_value (c : ascii) : option N :=
  let n := N_of_ascii c in
  if ((48 <=? n) && (n <=? 57))%N then Some (n - 48)%N
  else if ((65 <=? n) && (n <=? 70))%N then Some (n - 55)%N
  else if ((97 <=? n) && (n <=? 102))%N then Some (n - 87)%N
  else None.

Definition is_hex_digit (c : ascii) : bool :=
  match hex_value c with Some _ => true | None => false end.

(** [int(s, 10)] on a text of ASCII digits. *)
Fixpoint int10 (acc : N) (s : string) : N :=
  match s with
  | EmptyString => acc
  | String c s' => int10 (10 * acc + (N_of_ascii c - 48))%N s'
  end.

(** [int(s, 16)] on a text of hexadecimal digits. *)
Fixpoint int16 (acc : N) (s : string) : N :=
  match s with
  | EmptyString => acc
  | String c s' => int16 (16 * acc + default 0%N (hex_value c))%N s'
  end.

(** [IPv4Address._parse_octet] *)
Definition parse_octet (octet_str : string) : option N :=
  if bool_decide (octet_str = "") then None
  else if negb (Py.forallb_string is_digit octet_str) then None
  else if (3 <? String.length octet_str)%nat then None
  else if bool_decide (octet_str ≠ "0") && Py.startswith octet_str "0" then None
  else let octet_int := int10 0 octet_str in
       if (255 <? octet_int)%N then None else Some octet_int.

(** [int.from_bytes(octets, 'big')] *)
Definition from_bytes (octets : list N) : N :=
  fold_left (λ acc b, (N.shiftl acc 8 + b)%N) octets 0%N.

(** [IPv4Address._ip_int_from_string] *)
Definition v4_int_from_string (ip_str : string) : option N :=
  if bool_decide (ip_str = "") then None
  else let octets := Py.split "." ip_str in
       if bool_decide (length octets ≠ 4%nat) then None
       else from_bytes <$> mapM parse_octet octets.

(** [IPv4Address(addr_str)] *)
Definition parse_v4 (addr_str : string) : option N :=
  if Py.contains "/" addr_str then None else v4_int_from_string addr_str.

(** ['%x' % v] for [v < 65536]: lower-case, no leading zero. *)
Definition hex_digit (d : N) : ascii :=
  ascii_of_N (if (d <? 10)%N then 48 + d else 87 + d)%N.

Fixpoint drop_zeros (ds : list N) : list N :=
  match ds with
  | 0%N :: (_ :: _) as ds' => drop_zeros ds'
  | _ => ds
  end.

Definition format_x (v : N) : string :=
  let ds := [N.shiftr v 12 mod 16; N.shiftr v 8 mod 16; N.shiftr v 4 mod 16; v mod 16]%N in
  string_of_list_ascii (hex_digit <$> drop_zeros ds).

(** [IPv6Address._parse_hextet]; [int('', 16)] raises [ValueError]. *)
Definition parse_hextet (hextet_str : string) : option N :=
  if negb (Py.forallb_string is_hex_digit hextet_str) then None
  else if (4 <? String.length hextet_str)%nat then None
  else if bool_decide (hextet_str = "") then None
  else Some (int16 0 hextet_str).

(** The two loops [ip_int <<= 16; ip_int |= parse_hextet(part)]. *)
Fixpoint shift_in (ip_int : N) (parts : list string) : option N :=
  match parts with
  | [] => Some ip_int
  | p :: parts' =>
      match parse_hextet p with
      | None => None
      | Some h => shift_in (N.lor (N.shiftl ip_int 16) h) parts'
      end
  end.

(** The loop that looks for a ['::'] strictly inside [parts]: the index of
    the empty part, [None] when there is none; two of them are an error. *)
Definition find_skip_index (parts : list string) : option (option nat) :=
  match filter (λ i, parts !! i = Some "") (seq 1 (length parts - 2)) with
  | [] => Some None
  | [i] => Some (Some i)
  | _ => None
  end.

(** [IPv6Address._ip_int_from_string], from the check of the number of
    parts on: [parts] is the text split at the colons, an IPv4-style suffix
    already replaced by its two hextets. *)
Definition v6_int_from_parts (parts : list string) : option N :=
  if (9 <? length parts)%nat then None
  else
    skip_index ← find_skip_index parts;
    '(parts_hi, parts_lo, parts_skipped) ←
      match skip_index with
      | Some skip_index =>
          let parts_hi := skip_index in
          let parts_lo := (length parts - skip_index - 1)%nat in
          parts_hi ← (if bool_decide (parts !! 0%nat = Some "")
                      then if bool_decide ((parts_hi - 1)%nat ≠ 0%nat) then None
                           else Some (parts_hi - 1)%nat
                      else Some parts_hi);
          parts_lo ← (if bool_decide (last parts = Some "")
                      then if bool_decide ((parts_lo - 1)%nat ≠ 0%nat) then None
                           else Some (parts_lo - 1)%nat
                      else Some parts_lo);
          let parts_skipped := 8 - Z.of_nat (parts_hi + parts_lo) in
          if parts_skipped <? 1 then None
          else Some (parts_hi, parts_lo, parts_skipped)
      | None =>
          if bool_decide (length parts ≠ 8%nat) then None
          else if bool_decide (parts !! 0%nat = Some "") then None
          else if bool_decide (last parts = Some "") then None
          else Some (length parts, 0%nat, 0)
      end;
    ip_int ← shift_in 0%N (take parts_hi parts);
    let ip_int := N.shiftl ip_int (Z.to_N (16 * parts_skipped)) in
    shift_in ip_int (drop (length parts - parts_lo) parts).

(** [IPv6Address._ip_int_from_string] *)
Definition v6_int_from_string (ip_str : string) : option N :=
  if bool_decide (ip_str = "") then None
  else
    let parts := Py.split ":" ip_str in
    if (length parts <? 3)%nat then None
    else
      (* an IPv4-style suffix is converted to two hextets *)
      parts ← (let last_part := default "" (last parts) in
               if Py.contains "." last_part then
                 ipv4_int ← parse_v4 last_part;
                 Some (removelast parts
                       ++ [format_x (N.land (N.shiftr ipv4_int 16) 65535);
                           format_x (N.land ipv4_int 65535)])
               else Some parts);
      v6_int_from_parts parts.

(** [IPv6Address._split_scope_id] *)
Definition split_scope_id (ip_str : string) : option (string * option string) :=
  let '(addr, sep, scope_id) := Py.partition "%" ip_str in
  if negb sep then Some (addr, None)
  else if bool_decide (scope_id = "") || Py.contains "%" scope_id then None
  else Some (addr, Some scope_id).

(** [IPv6Address(addr_str)] *)
Definition parse_v6 (addr_str : string) : option (N * option string) :=
  if Py.contains "/" addr_str then None
  else
    '(addr, scope_id) ← split_scope_id addr_str;
    ip ← v6_int_from_string addr;
    Some (ip, scope_id).

(** [ipaddress.ip_address(address)]: [None] stands for [ValueError]. *)
Definition ip_address (address : string) : option IP :=
  match parse_v4 address with
  | Some n => Some (IPv4Address n)
  | None =>
      match parse_v6 address with
      | Some (n, scope_id) => Some (IPv6Address n scope_id)
      | None => None
      end
  end.

(** The mask of a prefix length, [2^bits - 2^(bits - prefixlen)]. *)
Definition netmask (bits prefixlen : N) : N :=
  (N.ones bits - N.ones (bits - prefixlen))%N.

(** [ipaddress.ip_network(f"{ip}/{prefixlen}", strict=False)] for an address
    object [ip] and [prefixlen] at most the width of its family: the text
    is read back as the same address; when host bits are set the network
    address is rebuilt from the masked integer (losing the scope id),
    otherwise the parsed address is kept as it is. *)
Definition ip_network (ip : IP) (prefixlen : N) : Network :=
  let packed := to_int ip in
  let masked := N.land packed (netmask (max_prefixlen ip) prefixlen) in
  if bool_decide (masked ≠ packed) then
    IPNetwork (match ip with
               | IPv4Address _ => IPv4Address masked
               | IPv6Address _ _ => IPv6Address masked None
               end) prefixlen
  else IPNetwork ip prefixlen.

End ipaddress.

(** ** First-seen selection

    All three scripts keep, from a sequence, the elements whose key was not
    met before.  [first_seen] is that selection written once, as a
    reference for the loops of the scripts. *)
Section first_seen.
Context {A K : Type} `{EqDecision K} (key : A → K).

Fixpoint first_seen (seen : list K) (l : list A) : list A :=
  match l with
  | [] => []
  | x :: l' =>
      if decide (key x ∈ seen) then first_seen seen l'
      else x :: first_seen (key x :: seen) l'
  end.

(** [x], at index [i] of [l], is the first element of [l] with its key. *)
Definition is_first (l : list A) (i : nat) (x : A) : Prop :=
  l !! i = Some x ∧ ∀ j y, (j < i)%nat → l !! j = Some y → key y ≠ key x.

(** [out] lists the elements of [raw] that are the first with their key,
    each once, at increasing positions of [raw]: there are positions
    [idxs], increasing, which are exactly the positions of a first
    occurrence, and [out] reads [raw] at them. *)
Definition first_occurrences (raw out : list A) : Prop :=
  ∃ idxs : list nat,
    StronglySorted lt idxs
    ∧ (∀ i, i ∈ idxs ↔ ∃ x, is_first raw i x)
    ∧ Forall2 (λ i y, raw !! i = Some y) idxs out.
End first_seen.

(** ** [ip2subnet.py]: the subnet bucketer *)
Module Subnet.
Import ipaddress.

(** [iter_ips(source)]: the pairs the generator yields, in order; [seen]
    is the set the loop has built so far. *)
Fixpoint iter_ips_from (seen : gset IP) (source : list string) : list (string * IP) :=
  match source with
  | [] => []
  | line :: source' =>
      let s := Py.strip line in
      if bool_decide (s = "") then iter_ips_from seen source'
      else match ip_address s with
           | None => iter_ips_from seen source'   (* ValueError: skip invalid lines *)
           | Some ip =>
               if decide (ip ∈ seen) then iter_ips_from seen source'
               else (s, ip) :: iter_ips_from ({[ip]} ∪ seen) source'
           end
  end.

Definition iter_ips (source : list string) : list (string * IP) :=
  iter_ips_from ∅ source.

(** An [OrderedDict]: the items in insertion order, keys distinct. *)
Definition OrderedDict (K V : Type) : Type := list (K * V).

(** [d.setdefault(k, v)]: inserts at the end only when [k] is absent. *)
Definition setdefault {K V : Type} `{EqDecision K}
    (d : OrderedDict K V) (k : K) (v : V) : OrderedDict K V :=
  if decide (k ∈ d.*1) then d else d ++ [(k, v)].

(** [list(d.values())] *)
Definition values {K V : Type} (d : OrderedDict K V) : list V := d.*2.

Definition n16 (p : string * IP) : Network := ip_network p.2 16.
Definition n24 (p : string * IP) : Network := ip_network p.2 24.

(** The loop of [build_representatives]: the two dictionaries after [pairs]. *)
Definition build_loop (pairs : list (string * IP))
    (reps : OrderedDict Network string * OrderedDict Network string)
    : OrderedDict Network string * OrderedDict Network string :=
  fold_left (λ '(reps16, reps24) '(ip_str, ip),
               let n16 := ip_network ip 16 in
               let n24 := ip_network ip 24 in
               (setdefault reps16 n16 ip_str, setdefault reps24 n24 ip_str))
            pairs reps.

Definition build_representatives (pairs : list (string * IP))
    : list string * list string :=
  let '(reps16, reps24) := build_loop pairs ([], []) in
  (values reps16, values reps24).

(** [main], from the lines of the input to the rows of the two files. *)
Definition main (source : list string) : list string * list string :=
  let pairs := iter_ips source in
  build_representatives pairs.

End Subnet.

(** ** Python values and exceptions used by the two lookup scripts *)
Module PyVal.

(** The exception classes that matter to the scripts' handlers. *)
Inductive exn : Type :=
  | RequestException   (* requests: connection, timeout, retry exhaustion *)
  | ValueError         (* JSON decode error *)
  | AttributeError
  | TypeError
  | IndexError.

(** A computation that returns or raises. *)
Inductive py (A : Type) : Type :=
  | Ret (a : A)
  | Raise (e : exn).
Arguments Ret {A} a.
Arguments Raise {A} e.

Definition bind {A B : Type} (m : py A) (k : A → py B) : py B :=
  match m with
  | Ret a => k a
  | Raise e => Raise e
  end.

#[global] Instance py_ret : MRet py := @Ret.
#[global] Instance py_bind : MBind py := λ A B k m, bind m k.

(** What [json] decoding produces. *)
#[warnings="-register-all"]
Inductive pyval : Type :=
  | PNone
  | PBool (b : bool)
  | PInt (z : Z)
  | PFloat (repr : string)
  | PStr (s : string)
  | PList (l : list pyval)
  | PDict (items : list (string * pyval)).

(** [d.get(k)] on the items of a dict: the value, or [None]. *)
Fixpoint dict_get (items : list (string * pyval)) (k : string) : pyval :=
  match items with
  | [] => PNone
  | (k', v) :: items' => if String.eqb k' k then v else dict_get items' k
  end.

(** [v.get(k)] on any value: only a dict has the method. *)
Definition get (v : pyval) (k : string) : py pyval :=
  match v with
  | PDict items => Ret (dict_get items k)
  | _ => Raise AttributeError
  end.

End PyVal.

(** ** [ip2geo.py]: the API backend *)
Module GeoApi.
Import PyVal.

(** [parse_ip_file(path)] on the lines of the file. *)
Definition parse_ip_file (f : list string) : list string :=
  let ips :=
    fold_left (λ ips line,
                 let line := Py.strip line in
                 if bool_decide (line = "") || Py.startswith line "#" then ips
                 else ips ++ [line])
              f [] in
  (* de-duplicate while preserving order *)
  let '(seen, uniq) :=
    fold_left (λ '(seen, uniq) ip,
                 if decide (ip ∈ (seen : gset string)) then (seen, uniq)
                 else ({[ip]} ∪ seen, uniq ++ [ip]))
              ips (∅, []) in
  uniq.

(** What [session.get] hands back once the retries of the adapter are
    over: a response, whose [json()] decodes or fails, or an exception of
    the [requests] family. *)
Record Response : Type := {
  status_code : Z;
  json : option pyval   (* [None]: the body is not JSON *)
}.

Inductive Reply : Type :=
  | Replied (r : Response)
  | Failed.              (* raises [requests.RequestException] *)

(** The body of the [try] block of [fetch_country_code2]. *)
Definition fetch_try (ip : string) (reply : Reply) : py (string * option string) :=
  r ← (match reply with Replied r => Ret r | Failed => Raise RequestException end);
  if bool_decide (status_code r ≠ 200) then Ret (ip, None)
  else
    data ← (match json r with Some v => Ret v | None => Raise ValueError end);
    let cc2 := PNone in
    loc ← get data "location";
    cc2 ← (match loc with
            | PDict _ => get loc "country_code2"
            | _ => Ret cc2
            end);
    cc2 ← (match cc2 with
            | PNone => get data "country_code2"
            | _ => Ret cc2
            end);
    let cc2 := match cc2 with
               | PStr s => Some (Py.strip s)
               | _ => None
               end in
    Ret (ip, cc2).

(** [fetch_country_code2(session, api_key, ip)], with its two handlers. *)
Definition fetch_country_code2 (ip : string) (reply : Reply)
    : py (string * option string) :=
  match fetch_try ip reply with
  | Raise RequestException => Ret (ip, None)
  | Raise ValueError => Ret (ip, None)
  | r => r
  end.

(** [cc2 or ""] *)
Definition or_empty (cc2 : option string) : string :=
  match cc2 with
  | Some s => if bool_decide (s = "") then "" else s
  | None => ""
  end.

(** The loop over [as_completed(futures)]: [completed] lists what
    [fut.result()] gives, in completion order. *)
Definition collect (completed : list (py (string * option string)))
    : py (list (string * string) * Z) :=
  fold_left (λ st fut,
               '(results, errors) ← st;
               '(ip, cc2) ← fut;
               let errors := match cc2 with None => errors + 1 | Some _ => errors end in
               Ret (results ++ [(ip, or_empty cc2)], errors))
            completed (Ret ([], 0)).

(** [{ip: idx for idx, ip in enumerate(ips)}] *)
Definition order_of (ips : list string) : gmap string Z :=
  fold_left (λ order '(idx, ip), <[ip := idx]> order)
            (imap (λ idx ip, (Z.of_nat idx, ip)) ips) ∅.

(** [list.sort(key=...)]: a stable sort by an integer key. *)
Fixpoint insert_by {A : Type} (key : A → Z) (x : A) (l : list A) : list A :=
  match l with
  | [] => [x]
  | y :: l' => if key x <=? key y then x :: l else y :: insert_by key x l'
  end.
Definition sort_by {A : Type} (key : A → Z) (l : list A) : list A :=
  foldr (insert_by key) [] l.

(** What a run writes: the data rows of the CSV (after the header
    [ip,country_code2]) and the error count of the closing message. *)
Record Output : Type := {
  rows : list (string * string);
  errors : Z
}.

(** [main] from the batch on: collection, then the sort that restores the
    input order. *)
Definition assemble (ips : list string)
    (completed : list (py (string * option string))) : py Output :=
  '(results, errors) ← collect completed;
  let order := order_of ips in
  let results := sort_by (λ t, default (10 ^ 9) (order !! t.1)) results in
  Ret {| rows := results; errors := errors |}.

(** The futures of a batch: one call of [fetch_country_code2] per address;
    [as_completed] yields them in any order. *)
Definition futures (ips : list string) (reply : string → Reply)
    : list (py (string * option string)) :=
  (λ ip, fetch_country_code2 ip (reply ip)) <$> ips.

(** [main] on the lines of the input file, the replies of the service and
    the order [sched] (positions in the batch) in which the futures complete. *)
Definition main (f : list string) (reply : string → Reply) (sched : list nat)
    : py Output :=
  let ips := parse_ip_file f in
  if bool_decide (ips = []) then Ret {| rows := []; errors := 0 |}
  else
    let futs := futures ips reply in
    assemble ips (omap (λ i, futs !! i) sched).

End GeoApi.

(** ** The fragment of [re] that [COUNTRY_RE] uses

    A pattern is a sequence of items; [search] scans the start positions
    from the left and, at each, matches the items in order, a starred class
    taking as many characters as it can and giving them back one by one
    when the rest of the pattern fails.  The engine works on the list of
    the characters of the text. *)
Module Re.

Inductive item : Type :=
  | Bol                                   (* [^] under [re.M] *)
  | Eol                                   (* [$] under [re.M] *)
  | Star (cls : ascii → bool)             (* [c*], greedy *)
  | Lit (s : string)                      (* literal text *)
  | Group (cls : ascii → bool) (n : nat). (* [(c{n})], the capture group *)

Definition newline : ascii := "010".

(** [text] after the literal [s], with the last character read. *)
Fixpoint eat_lit (s : string) (prev : option ascii) (text : list ascii)
    : option (option ascii * list ascii) :=
  match s with
  | EmptyString => Some (prev, text)
  | String c s' =>
      match text with
      | x :: text' => if Ascii.eqb x c then eat_lit s' (Some x) text' else None
      | [] => None
      end
  end.

(** [n] characters of the class: the characters, the last one and the rest. *)
Fixpoint eat_class (cls : ascii → bool) (n : nat) (prev : option ascii)
    (text : list ascii) : option (list ascii * option ascii * list ascii) :=
  match n with
  | O => Some ([], prev, text)
  | S n' =>
      match text with
      | x :: text' =>
          if cls x then
            match eat_class cls n' (Some x) text' with
            | Some (g, prev', rest) => Some (x :: g, prev', rest)
            | None => None
            end
          else None
      | [] => None
      end
  end.

(** A starred class before the rest [k] of the pattern: the longest run
    first, then shorter ones. *)
Fixpoint star_loop (cls : ascii → bool)
    (k : option ascii → list ascii → option (list ascii))
    (prev : option ascii) (text : list ascii) : option (list ascii) :=
  match text with
  | c :: text' =>
      if cls c then
        match star_loop cls k (Some c) text' with
        | Some r => Some r
        | None => k prev text
        end
      else k prev text
  | [] => k prev text
  end.

(** Matching [pat] at a position: [prev] is the character before it,
    [text] what follows, [cap] the group captured so far.  The result is
    the captured group of the match found. *)
Fixpoint match_here (pat : list item) (cap : list ascii)
    (prev : option ascii) (text : list ascii) : option (list ascii) :=
  match pat with
  | [] => Some cap
  | Bol :: pat' =>
      match prev with
      | None => match_here pat' cap prev text
      | Some c => if Ascii.eqb c newline then match_here pat' cap prev text else None
      end
  | Eol :: pat' =>
      match text with
      | [] => match_here pat' cap prev text
      | c :: _ => if Ascii.eqb c newline then match_here pat' cap prev text else None
      end
  | Lit s :: pat' =>
      match eat_lit s prev text with
      | Some (prev', text') => match_here pat' cap prev' text'
      | None => None
      end
  | Group cls n :: pat' =>
      match eat_class cls n prev text with
      | Some (g, prev', text') => match_here pat' g prev' text'
      | None => None
      end
  | Star cls :: pat' => star_loop cls (match_here pat' cap) prev text
  end.

(** The scan of [search]: the group of the leftmost match. *)
Fixpoint search_from (pat : list item) (prev : option ascii) (text : list ascii)
    : option (list ascii) :=
  match match_here pat [] prev text with
  | Some g => Some g
  | None =>
      match text with
      | [] => None
      | c :: text' => search_from pat (Some c) text'
      end
  end.

(** [pattern.search(text)], giving [m.group(1)]. *)
Definition search (pat : list item) (text : string) : option string :=
  string_of_list_ascii <$> search_from pat None (list_ascii_of_string text).

End Re.

(** ** [bulk_geo_lookup.py]: the process backend *)
Module GeoProc.
Import PyVal.

Definition is_upper (c : ascii) : bool :=
  let n := N_of_ascii c in ((65 <=? n) && (n <=? 90))%N.

(** [re.compile(r"^\s*country_code\s*=\s*([A-Z]{2})\s*$", re.M)] *)
Definition COUNTRY_RE : list Re.item :=
  [Re.Bol; Re.Star Py.isspace; Re.Lit "country_code"; Re.Star Py.isspace;
   Re.Lit "="; Re.Star Py.isspace; Re.Group is_upper 2; Re.Star Py.isspace;
   Re.Eol].

(** How [subprocess.run] ends: with the captured standard output, by the
    timeout, or by another exception (the command cannot be started). *)
Inductive run_result : Type :=
  | Completed (stdout : option string)
  | TimeoutExpired
  | OtherException.

(** [run_geoip_lookup(ip, cmd, timeout)]; [run] is the outcome of the
    command, which is started only past the guard. *)
Definition run_geoip_lookup (ip : string) (run : run_result) : string * string :=
  if bool_decide (ip = "") || Py.startswith ip "#" then (ip, "UNKNOWN")
  else
    match run with
    | Completed out =>
        let m := Re.search COUNTRY_RE (default "" out) in
        (ip, match m with Some g => g | None => "UNKNOWN" end)
    | TimeoutExpired => (ip, "UNKNOWN")
    | OtherException => (ip, "UNKNOWN")
    end.

(** [read_ips(path)] on the lines of the file. *)
Definition read_ips (f : list string) : list string :=
  omap (λ line, if bool_decide (Py.strip line ≠ "") then Some (Py.strip line) else None) f.

(** [results[idx] = v] *)
Definition setitem {A : Type} (l : list A) (idx : nat) (v : A) : py (list A) :=
  if bool_decide (idx < length l)%nat then Ret (<[idx := v]> l) else Raise IndexError.

(** The collection loop of [main]: the slots after the futures, which are
    read in submission order whatever the order they complete in. *)
Definition collect (futures : list (nat * (string * string)))
    : py (list (option (string * string))) :=
  fold_left (λ st '(idx, fut),
               results ← st;
               let '(ip, country) := fut in
               setitem results idx (Some (ip, country)))
            futures (Ret (replicate (length futures) None)).

(** [for ip, country in results: writer.writerow([ip, country])]:
    unpacking an empty slot would raise. *)
Fixpoint write_rows (results : list (option (string * string)))
    : py (list (string * string)) :=
  match results with
  | [] => Ret []
  | Some (ip, country) :: results' =>
      rows ← write_rows results'; Ret ((ip, country) :: rows)
  | None :: _ => Raise TypeError
  end.

(** [main] from the batch on: the data rows written after the header.
    [run idx] is the outcome of the command of task [idx]. *)
Definition assemble (ips : list string) (run : nat → run_result)
    : py (list (string * string)) :=
  let futures := imap (λ idx ip, (idx, run_geoip_lookup ip (run idx))) ips in
  results ← collect futures;
  write_rows results.

(** [main] on the lines of the input file. *)
Definition main (f : list string) (run : nat → run_result)
    : py (list (string * string)) :=
  let ips := read_ips f in
  if bool_decide (ips = []) then Ret []
  else assemble ips run.

End GeoProc.

(** ** The raw input as the statements below read it *)
Module Raw.
Import ipaddress.

(** The stripped lines of the input, in order. *)
Definition stripped (f : list string) : list string := Py.strip <$> f.

(** A stripped line is blank, or a comment. *)
Definition is_blank (s : string) : Prop := s = "".
Definition is_comment (s : string) : Prop := Py.startswith s "#" = true.

(** The stripped lines that are neither blank nor a comment. *)
Definition candidates (f : list string) : list string :=
  filter (λ s, ¬ is_blank s ∧ ¬ is_comment s) (stripped f).

(** The stripped lines that are not blank. *)
Definition non_blank (f : list string) : list string :=
  filter (λ s, ¬ is_blank s) (stripped f).

(** The stripped lines that read as an IP literal, with the address. *)
Definition parsed (f : list string) : list (string * IP) :=
  omap (λ s, (λ ip, (s, ip)) <$> ip_address s) (stripped f).

End Raw.

(** ** The outcomes of a batch as the statements below read them *)
Module Outcome.

(** The label the API backend writes for an outcome. *)
Definition api_row (t : string * option string) : string * string :=
  (t.1, GeoApi.or_empty t.2).

(** The number of unresolved outcomes. *)
Definition unresolved (l : list (string * option string)) : Z :=
  Z.of_nat (length (filter (λ t, t.2 = None) l)).

End Outcome.

(** ** The country field of a decoded response *)
Module Body.
Import PyVal.

(** The country code of a JSON object: the field [country_code2] of its
    [location] object when that is there and not null, else the field
    [country_code2] of the object itself; [PNone] when there is none. *)
Definition country_field (items : list (string * pyval)) : pyval :=
  match dict_get items "location" with
  | PDict loc =>
      match dict_get loc "country_code2" with
      | PNone => dict_get items "country_code2"
      | v => v
      end
  | _ => dict_get items "country_code2"
  end.

Definition is_dict (v : pyval) : bool :=
  match v with PDict _ => true | _ => false end.

End Body.

(** ** The end-to-end scenario of the specification *)
Module Scenario.
Import PyVal.

(** The input of the end-to-end scenario. *)
Definition scenario : string :=
  "8.8.8.8
# comment

1.1.1.1
8.8.8.8".

(** A service that knows 8.8.8.8 only. *)
Definition scenario_reply (ip : string) : GeoApi.Reply :=
  if String.eqb ip "8.8.8.8" then
    GeoApi.Replied
      {| GeoApi.status_code := 200;
         GeoApi.json := Some (PDict [("location", PDict [("country_code2", PStr "US")])]) |}
  else GeoApi.Failed.

(** A lookup command that knows 8.8.8.8 only, whatever the task. *)
Definition scenario_run (ips : list string) (idx : nat) : GeoProc.run_result :=
  if bool_decide (ips !! idx = Some "8.8.8.8")
  then GeoProc.Completed (Some "country_code = US
")
  else GeoProc.TimeoutExpired.

End Scenario.

(** ** The output of the lookup command as the statements below read it *)
Module Stdout.

Definition chars (s : string) : list ascii := list_ascii_of_string s.

(** A run of whitespace; the newline is whitespace. *)
Definition spaces (ws : list ascii) : Prop :=
  Forall (λ c, Py.isspace c = true) ws.

(** Two upper-case letters. *)
Definition code (g : list ascii) : Prop :=
  length g = 2%nat ∧ Forall (λ c, GeoProc.is_upper c = true) g.

(** [m] reads [country_code = XX] with [g] for XX: whitespace, the word,
    whitespace, the equals sign, whitespace, the code, whitespace. *)
Definition reads (m g : list ascii) : Prop :=
  ∃ ws1 ws2 ws3 ws4,
    spaces ws1 ∧ spaces ws2 ∧ spaces ws3 ∧ spaces ws4 ∧ code g
    ∧ m = ws1 ++ chars "country_code" ++ ws2 ++ chars "=" ++ ws3 ++ g ++ ws4.

(** The character before a position, after the characters [l] were read. *)
Definition prev_after (prev : option ascii) (l : list ascii) : option ascii :=
  fold_left (λ _ c, Some c) l prev.

(** A position is at the start of a line. *)
Definition at_line_start (prev : option ascii) : Prop :=
  prev = None ∨ prev = Some Re.newline.

(** [pre] ends where a line starts; [post] starts where a line ends. *)
Definition line_start (pre : list ascii) : Prop :=
  pre = [] ∨ last pre = Some Re.newline.
Definition line_end (post : list ascii) : Prop :=
  post = [] ∨ head post = Some Re.newline.

(** The text [pre ++ post] has a match with group [g] that begins where
    [post] begins. *)
Definition match_at (pre post g : list ascii) : Prop :=
  line_start pre
  ∧ ∃ m rest, post = m ++ rest ∧ reads m g ∧ line_end rest.

(** [g] is the group of the leftmost match of [text]. *)
Definition leftmost_match (text g : list ascii) : Prop :=
  ∃ pre post,
    text = pre ++ post ∧ match_at pre post g
    ∧ ∀ pre' post' g',
        text = pre' ++ post' → (length pre' < length pre)%nat →
        ¬ match_at pre' post' g'.

(** [post] begins with a match of group [g] in which the word, the equals
    sign and the code stand on one line: the whitespace between them holds
    no newline. *)
Definition reads_on_one_line (post g : list ascii) : Prop :=
  ∃ ws1 ws2 ws3 ws4 rest,
    post = ws1 ++ chars "country_code" ++ ws2 ++ chars "=" ++ ws3 ++ g ++ ws4 ++ rest
    ∧ spaces ws1 ∧ spaces ws2 ∧ spaces ws3 ∧ spaces ws4 ∧ code g ∧ line_end rest
    ∧ (Re.newline ∉ ws2) ∧ (Re.newline ∉ ws3).

(** No match of the text is broken between its word and its code. *)
Definition tokens_on_one_line (text : list ascii) : Prop :=
  ∀ pre post g,
    text = pre ++ post → match_at pre post g → reads_on_one_line post g.

(** The lines of a text: what lies between its newlines. *)
Fixpoint lines (text : list ascii) : list (list ascii) :=
  match text with
  | [] => [[]]
  | c :: text' =>
      if Ascii.eqb c Re.newline then [] :: lines text'
      else match lines text' with
           | l :: ls => (c :: l) :: ls
           | [] => [[c]]
           end
  end.

(** The items of the pattern after [^], from the right. *)
Definition re_end : list Re.item := [Re.Star Py.isspace; Re.Eol].
Definition re_code : list Re.item := Re.Group GeoProc.is_upper 2 :: re_end.
Definition re_eq : list Re.item := Re.Lit "=" :: Re.Star Py.isspace :: re_code.
Definition re_word : list Re.item := Re.Lit "country_code" :: Re.Star Py.isspace :: re_eq.

(** A line that holds the word alone, or the word and the equals sign
    alone: [country_code] or [country_code =] between optional whitespace. *)
Definition word_alone (line : list ascii) : Prop :=
  ∃ a b, spaces a ∧ spaces b ∧ line = a ++ chars "country_code" ++ b.
Definition word_eq_alone (line : list ascii) : Prop :=
  ∃ a b c, spaces a ∧ spaces b ∧ spaces c
           ∧ line = a ++ chars "country_code" ++ b ++ chars "=" ++ c.

(** No line of the text breaks off after the word or after the equals sign. *)
Definition no_broken_line (text : list ascii) : Prop :=
  ∀ line, line ∈ lines text → ¬ word_alone line ∧ ¬ word_eq_alone line.

(** The label read line by line: the code of the first line that reads
    [country_code = XX] on its own, [UNKNOWN] when no line does. *)
Definition line_code (line : list ascii) : option (list ascii) :=
  Re.match_here GeoProc.COUNTRY_RE [] None line.

Definition first_line_label (text : string) : string :=
  match omap line_code (lines (chars text)) with
  | g :: _ => string_of_list_ascii g
  | [] => "UNKNOWN"
  end.

End Stdout.

(** ** The fragment of [re] that [VERSION_RE] uses

    As [Re], without the anchors and with the word boundary; the literal,
    the counted class and the backtracking of a starred class are those of
    [Re]. *)
Module ReB.

Inductive item : Type :=
  | Lit (s : string)                      (* literal text *)
  | Star (cls : ascii → bool)             (* [c*], greedy *)
  | Wordb                                 (* [\b] *)
  | Group (cls : ascii → bool) (n : nat). (* [(c{n})], the capture group *)

(** [\w] on one character, for code points below 256: the ASCII letters
    and digits, the underscore, and the letters and numeric characters of
    Latin-1. *)
Definition is_word (c : ascii) : bool :=
  let n := N_of_ascii c in
  (((48 <=? n) && (n <=? 57)) || ((65 <=? n) && (n <=? 90)) || (n =? 95)
   || ((97 <=? n) && (n <=? 122)) || (n =? 170) || (n =? 178) || (n =? 179)
   || (n =? 181) || (n =? 185) || (n =? 186) || ((188 <=? n) && (n <=? 190))
   || ((192 <=? n) && (n <=? 214)) || ((216 <=? n) && (n <=? 246))
   || (248 <=? n))%N.

(** [\b]: exactly one of the character before the position and the
    character after it is a word character; the ends of the text count as
    non-word. *)
Definition boundary (prev : option ascii) (text : list ascii) : bool :=
  xorb (from_option is_word false prev) (from_option is_word false (head text)).

Fixpoint match_here (pat : list item) (cap : list ascii)
    (prev : option ascii) (text : list ascii) : option (list ascii) :=
  match pat with
  | [] => Some cap
  | Wordb :: pat' =>
      if boundary prev text then match_here pat' cap prev text else None
  | Lit s :: pat' =>
      match Re.eat_lit s prev text with
      | Some (prev', text') => match_here pat' cap prev' text'
      | None => None
      end
  | Group cls n :: pat' =>
      match Re.eat_class cls n prev text with
      | Some (g, prev', text') => match_here pat' g prev' text'
      | None => None
      end
  | Star cls :: pat' => Re.star_loop cls (match_here pat' cap) prev text
  end.

(** The scan of [search]: the group of the leftmost match. *)
Fixpoint search_from (pat : list item) (prev : option ascii) (text : list ascii)
    : option (list ascii) :=
  match match_here pat [] prev text with
  | Some g => Some g
  | None =>
      match text with
      | [] => None
      | c :: text' => search_from pat (Some c) text'
      end
  end.

(** [pattern.search(text)], giving [m.group(1)]. *)
Definition search (pat : list item) (text : string) : option string :=
  string_of_list_ascii <$> search_from pat None (list_ascii_of_string text).

End ReB.

(** ** [ip2subnet.py]: the files and the status lines of a run *)
Module SubnetCli.
Import Subnet.

(** The files a run writes: the rows of each path, a row being the list
    of its fields. *)
Definition files : Type := gmap string (list (list string)).

(** [write_single_column_csv(path, rows)]: the file is opened with ["w"],
    which replaces what the path held, and gets one row of one field per
    value. *)
Definition write_single_column_csv (path : string) (rows : list string)
    (fs : files) : files :=
  <[path := (λ val, [val]) <$> rows]> fs.

(** [main] on the lines of the input and the two output paths: the files
    after the run and the two status lines, each given by its count and
    its path. *)
Definition main (source : list string) (out16 out24 : string) (fs : files)
    : files * list (nat * string) :=
  let pairs := iter_ips source in
  let '(reps16, reps24) := build_representatives pairs in
  let fs := write_single_column_csv out16 reps16 fs in
  let fs := write_single_column_csv out24 reps24 fs in
  (fs, [(length reps16, out16); (length reps24, out24)]).

End SubnetCli.

(** ** [ip2geo.py]: a whole run *)
Module GeoApiCli.
Import PyVal GeoApi.

(** The lines [main] prints on the standard error. *)
Inductive message : Type :=
  | NoApiKey                (* ERROR: API key not provided. ... *)
  | NoIps                   (* No IPs found in input. *)
  | Completed (errors : Z). (* Completed with [errors] lookup error(s). ... *)

(** What a run leaves: the rows of the output file ([None] when the file
    is not opened), the lines on the standard error, and how the process
    ends: with an exit status, or by an exception. *)
Record Run : Type := {
  csv : option (list (list string));
  stderr : list message;
  exit : py Z
}.

(** The truth value of an optional text: [None] and the empty text are
    false. *)
Definition truthy (s : option string) : bool :=
  match s with
  | Some s => negb (bool_decide (s = ""))
  | None => false
  end.

Definition header : list string := ["ip"; "country_code2"].

(** [main]: [arg_key] is the value of [--api-key], [env_key] that of the
    environment variable; [f], [reply] and [sched] are as in [GeoApi.main]. *)
Definition main (arg_key env_key : option string) (f : list string)
    (reply : string → Reply) (sched : list nat) : Run :=
  let api_key := if truthy arg_key then arg_key else env_key in
  if negb (truthy api_key) then
    {| csv := None; stderr := [NoApiKey]; exit := Ret 2 |}
  else
    let ips := parse_ip_file f in
    if bool_decide (ips = []) then
      {| csv := Some [header]; stderr := [NoIps]; exit := Ret 0 |}
    else
      let futs := futures ips reply in
      match assemble ips (omap (λ i, futs !! i) sched) with
      | Ret out =>
          {| csv := Some (header :: ((λ t, [t.1; t.2]) <$> rows out));
             stderr := if bool_decide (errors out ≠ 0)
                       then [Completed (errors out)] else [];
             exit := Ret 0 |}
      | Raise e => {| csv := None; stderr := []; exit := Raise e |}
      end.

End GeoApiCli.

(** ** [bulk_geo_lookup.py]: the version probe and a whole run *)
Module GeoProcCli.
Import PyVal GeoProc.

Definition is_digit (c : ascii) : bool :=
  let n := N_of_ascii c in ((48 <=? n) && (n <=? 57))%N.

(** [.]: any character but the newline. *)
Definition not_newline (c : ascii) : bool := negb (Ascii.eqb c Re.newline).

(** [re.compile(r"version\s*=.*\b(\d{8})\b")] *)
Definition VERSION_RE : list ReB.item :=
  [ReB.Lit "version"; ReB.Star Py.isspace; ReB.Lit "="; ReB.Star not_newline;
   ReB.Wordb; ReB.Group is_digit 8; ReB.Wordb].

(** [get_db_version(cmd, timeout)]; [probe] is the outcome of the command
    on 1.1.1.1. *)
Definition get_db_version (probe : run_result) : string :=
  match probe with
  | Completed out =>
      let m := ReB.search VERSION_RE (default "" out) in
      match m with Some g => g | None => "UNKNOWN" end
  | TimeoutExpired => "UNKNOWN"
  | OtherException => "UNKNOWN"
  end.

(** Where the output goes. *)
Inductive stream : Type :=
  | Stdout
  | File (path : string).

(** A line of output: a text that [print] writes, or a row that the CSV
    writer writes, given by its fields. *)
Inductive line : Type :=
  | Text (s : string)
  | Row (fields : list string).

(** What a run leaves: the stream written to, the lines written, and the
    exception the run ends with, if any. *)
Record Run : Type := {
  dest : stream;
  written : list line;
  raised : option exn
}.

(** The final loop of [main]: the rows written until a slot fails to
    unpack. *)
Fixpoint write_results (results : list (option (string * string)))
    : list line * option exn :=
  match results with
  | [] => ([], None)
  | Some (ip, country) :: results' =>
      let '(ls, e) := write_results results' in (Row [ip; country] :: ls, e)
  | None :: _ => ([], Some TypeError)
  end.

(** [main]: [output] is the value of [-o]; [probe] is the outcome of the
    command of the version probe; [f] and [run] are as in [GeoProc.main]. *)
Definition main (output : string) (f : list string) (probe : run_result)
    (run : nat → run_result) : Run :=
  let ips := read_ips f in
  if bool_decide (ips = []) then
    {| dest := Stdout; written := [Text "ip,country"]; raised := None |}
  else
    let db_version := get_db_version probe in
    let outfh := if bool_decide (output = "-") then Stdout else File output in
    let head := Row ["ip"; "country_" +:+ db_version] in
    let futures := imap (λ idx ip, (idx, run_geoip_lookup ip (run idx))) ips in
    match collect futures with
    | Ret results =>
        let '(ls, e) := write_results results in
        {| dest := outfh; written := head :: ls; raised := e |}
    | Raise e => {| dest := outfh; written := [head]; raised := Some e |}
    end.

End GeoProcCli.

(** ** The networks of a list of texts *)
Module Bucket.
Import ipaddress.

(** The network of prefix length [p] that a text belongs to, when it reads
    as an address. *)
Definition network_of (p : N) (s : string) : option Network :=
  (λ ip, ip_network ip p) <$> ip_address s.

(** The networks of the texts of a list that read as an address, in order. *)
Definition networks (p : N) (l : list string) : list Network :=
  omap (network_of p) l.

(** The distinct values of a list, in the order of their first appearance. *)
Definition distinct {A : Type} `{EqDecision A} (l : list A) : list A :=
  first_seen id [] l.

End Bucket.

(** ** The replies of the service *)
Module Service.
Import PyVal.



End Service.

(** ** The output of the version probe as the statements below read it *)
Module Version.
Import Stdout.

(** Eight ASCII digits. *)
Definition date (g : list ascii) : Prop :=
  length g = 8%nat ∧ Forall (λ c, GeoProcCli.is_digit c = true) g.

(** A word standing between [before] and [after] is a whole word: no word
    character stands next to it on either side. *)
Definition whole_word (before after : list ascii) : Prop :=
  from_option ReB.is_word false (last before) = false
  ∧ from_option ReB.is_word false (head after) = false.

(** [post] reads [version = ... g ...]: the word [version], whitespace,
    the equals sign, then on the same line the text [mid] and the date [g]
    as a whole word, and [after]. *)
Definition reads (post mid g after : list ascii) : Prop :=
  ∃ ws,
    post = chars "version" ++ ws ++ chars "=" ++ mid ++ g ++ after
    ∧ spaces ws ∧ (Re.newline ∉ mid) ∧ date g
    ∧ whole_word (chars "=" ++ mid) after.

(** [g] is the last date that [post] reads: no reading of [post] has its
    date further to the right. *)
Definition last_date (post mid g after : list ascii) : Prop :=
  reads post mid g after
  ∧ ∀ mid' g' after', reads post mid' g' after' → (length mid' ≤ length mid)%nat.

(** [g] is the version found in [text]: the last date read at the
    leftmost position of [text] where a date can be read. *)
Definition found (text g : list ascii) : Prop :=
  ∃ pre post mid after,
    text = pre ++ post ∧ last_date post mid g after
    ∧ ∀ pre' post' mid' g' after',
        text = pre' ++ post' → (length pre' < length pre)%nat →
        ¬ reads post' mid' g' after'.

(** No date can be read anywhere in [text]. *)
Definition absent (text : list ascii) : Prop :=
  ∀ pre post mid g after, text = pre ++ post → ¬ reads post mid g after.

End Version.

(** * Properties *)

(** ** The address parser on sample literals *)
Module ipaddress_examples.
Import ipaddress.

Example ip_address_v4 : ip_address "10.0.1.5" = Some (IPv4Address 167772421).
Proof. reflexivity. Qed.
Example ip_address_leading_zero : ip_address "10.0.01.5" = None.
Proof. reflexivity. Qed.
Example ip_address_v6 :
  ip_address "2001:db8::1" = Some (IPv6Address 0x20010db8000000000000000000000001 None).
Proof. vm_compute. reflexivity. Qed.
Example ip_address_v6_mapped :
  ip_address "::ffff:192.168.0.1" = Some (IPv6Address 0xffffc0a80001 None).
Proof. vm_compute. reflexivity. Qed.
Example ip_address_v6_scope :
  ip_address "fe80::1%eth0" = Some (IPv6Address 0xfe800000000000000000000000000001 (Some "eth0")).
Proof. vm_compute. reflexivity. Qed.
Example ip_address_v6_full :
  ip_address "1:2:3:4:5:6:7:8" = Some (IPv6Address 0x00010002000300040005000600070008 None).
Proof. vm_compute. reflexivity. Qed.
Example ip_address_v6_bad :
  ip_address "1::2::3" = None ∧ ip_address ":1::2" = None ∧ ip_address "1:2:3:4:5:6:7" = None
  ∧ ip_address "::" = Some (IPv6Address 0 None) ∧ ip_address "12345::" = None
  ∧ ip_address "# comment" = None ∧ ip_address "" = None.
Proof. vm_compute. repeat split. Qed.
Example ip_network_v4_example :
  ip_network (IPv4Address 167772421) 24 = IPNetwork (IPv4Address 167772416) 24.
Proof. vm_compute. reflexivity. Qed.

End ipaddress_examples.

Section first_seen_facts.
Context {A K : Type} `{EqDecision K} (key : A → K).

Lemma first_seen_sublist seen l : sublist (first_seen key seen l) l.
Proof.
  revert seen. induction l as [|x l IH]; intros seen; simpl.
  - constructor.
  - case_decide; [apply sublist_cons | apply sublist_skip]; apply IH.
Qed.

Lemma first_seen_fresh seen l y :
  y ∈ first_seen key seen l → key y ∉ seen.
Proof.
  revert seen. induction l as [|x l IH]; intros seen; simpl.
  - by intros ?%elem_of_nil.
  - case_decide as Hx; [apply IH|].
    intros [->|Hy]%elem_of_cons; [done|].
    apply IH in Hy. set_solver.
Qed.

Lemma first_seen_NoDup seen l : NoDup (key <$> first_seen key seen l).
Proof.
  revert seen. induction l as [|x l IH]; intros seen; simpl.
  - constructor.
  - case_decide; [apply IH|]. rewrite fmap_cons. constructor; [|apply IH].
    intros (y & Hk & Hy)%list_elem_of_fmap.
    apply first_seen_fresh in Hy. rewrite <- Hk in Hy. set_solver.
Qed.

Lemma first_seen_covers seen l x :
  x ∈ l → key x ∉ seen → key x ∈ key <$> first_seen key seen l.
Proof.
  revert seen. induction l as [|z l IH]; intros seen; simpl.
  - by intros ?%elem_of_nil.
  - intros Hx Hs. case_decide as Hz.
    + apply IH; [|done]. apply elem_of_cons in Hx as [->|]; done.
    + rewrite fmap_cons. destruct (decide (key x = key z)) as [->|Hne].
      * left.
      * right. apply IH.
        -- apply elem_of_cons in Hx as [->|]; done.
        -- intros [?|?]%elem_of_cons; done.
Qed.

Lemma first_seen_is_first seen l y :
  y ∈ first_seen key seen l → ∃ i, is_first key l i y.
Proof.
  revert seen. induction l as [|x l IH]; intros seen; simpl.
  - by intros ?%elem_of_nil.
  - assert (∀ seen', key x ∈ seen' → y ∈ first_seen key seen' l →
                     ∃ i, is_first key (x :: l) i y) as Hlater.
    { intros seen' Hin Hy. pose proof (first_seen_fresh _ _ _ Hy) as Hfr.
      destruct (IH _ Hy) as (i & Hi & Hbefore). exists (S i). split; [done|].
      intros [|j] z Hj Hz; simpl in Hz.
      - inversion Hz; subst z. intros Heq. rewrite Heq in Hin. done.
      - apply (Hbefore j); [lia|done]. }
    case_decide as Hx.
    + by apply Hlater.
    + intros [->|Hy]%elem_of_cons.
      * exists 0%nat. split; [done|]. intros j z Hj. lia.
      * apply (Hlater (key x :: seen)); [left|done].
Qed.

Lemma first_seen_head x l : first_seen key [] (x :: l) = x :: first_seen key [key x] l.
Proof. cbn [first_seen]. rewrite decide_False; [done|]. apply not_elem_of_nil. Qed.

(** The selection only looks at which keys are in [seen]. *)
Lemma first_seen_ext seen1 seen2 l :
  (∀ k, k ∈ seen1 ↔ k ∈ seen2) → first_seen key seen1 l = first_seen key seen2 l.
Proof.
  revert seen1 seen2. induction l as [|x l IH]; intros seen1 seen2 Heq; simpl; [done|].
  destruct (decide (key x ∈ seen1)) as [H1|H1], (decide (key x ∈ seen2)) as [H2|H2].
  - by apply IH.
  - by apply Heq in H1.
  - by apply Heq in H2.
  - f_equal. apply IH. intros k. rewrite !elem_of_cons. by rewrite Heq.
Qed.

Lemma first_seen_snoc seen l x :
  first_seen key seen (l ++ [x])
  = first_seen key seen l
    ++ (if decide (key x ∈ seen ∨ key x ∈ key <$> l) then [] else [x]).
Proof.
  revert seen. induction l as [|z l IH]; intros seen.
  - cbn [app first_seen fmap list_fmap].
    destruct (decide (key x ∈ seen)) as [Hin|Hin].
    + rewrite decide_True by (by left). done.
    + rewrite decide_False; [done|]. intros [?|?%elem_of_nil]; done.
  - cbn [app first_seen]. destruct (decide (key z ∈ seen)) as [Hz|Hz].
    + rewrite IH. f_equal. rewrite fmap_cons.
      apply decide_ext. rewrite elem_of_cons. split.
      * intros [?|?]; [by left|by right; right].
      * intros [?|[Heq|?]]; [by left|left; by rewrite Heq|by right].
    + rewrite IH. cbn [app]. do 2 f_equal. rewrite fmap_cons.
      apply decide_ext. rewrite !elem_of_cons. tauto.
Qed.

Lemma is_first_snoc_old l x i y :
  (i < length l)%nat → is_first key (l ++ [x]) i y ↔ is_first key l i y.
Proof.
  intros Hi. unfold is_first. rewrite lookup_app_l by done.
  split; intros [Hy Hb]; (split; [done|]); intros j z Hj Hz; apply (Hb j); try done.
  - rewrite lookup_app_l by lia. done.
  - rewrite lookup_app_l in Hz by lia. done.
Qed.

Lemma is_first_snoc_new l x y :
  is_first key (l ++ [x]) (length l) y ↔ y = x ∧ key x ∉ key <$> l.
Proof.
  unfold is_first. rewrite list_lookup_middle by done. split.
  - intros [Hy Hb]. inversion Hy; subst y. split; [done|].
    intros (z & Hk & [j Hj]%list_elem_of_lookup)%list_elem_of_fmap.
    apply (Hb j z); [eapply lookup_lt_Some; exact Hj| |done].
    rewrite lookup_app_l by (eapply lookup_lt_Some; exact Hj). done.
  - intros [-> Hk]. split; [done|]. intros j z Hj Hz Heq.
    rewrite lookup_app_l in Hz by done. apply Hk. rewrite <- Heq.
    apply list_elem_of_fmap. exists z. split; [done|].
    apply list_elem_of_lookup. eauto.
Qed.

Lemma first_seen_first_occurrences l :
  first_occurrences key l (first_seen key [] l).
Proof.
  induction l as [|x l (idxs & Hsort & Hidx & Hout)] using rev_ind.
  - exists []. split; [constructor|]. split; [|constructor].
    intros i. split; [by intros ?%elem_of_nil|].
    intros (x & Hx & _). by rewrite lookup_nil in Hx.
  - assert (∀ i, i ∈ idxs → (i < length l)%nat) as Hlt.
    { intros i (y & Hy & _)%Hidx. by eapply lookup_lt_Some. }
    rewrite first_seen_snoc.
    destruct (decide (key x ∈ [] ∨ key x ∈ key <$> l)) as [Hin|Hin].
    + (* a key met before: nothing is added *)
      destruct Hin as [Hin|Hin]; [by apply elem_of_nil in Hin|].
      exists idxs. rewrite app_nil_r. split; [done|]. split.
      * intros i. split.
        -- intros Hi. destruct (proj1 (Hidx i) Hi) as [y Hy]. exists y.
           apply is_first_snoc_old; [by apply Hlt|done].
        -- intros (y & Hy). destruct (decide (i < length l)%nat) as [Hi|Hi].
           ++ apply Hidx. exists y. by apply is_first_snoc_old in Hy.
           ++ assert (i = length l) as ->.
              { destruct Hy as [Hy _]. apply lookup_lt_Some in Hy.
                rewrite length_app in Hy. simpl in Hy. lia. }
              apply is_first_snoc_new in Hy as [_ Hy]. done.
      * eapply Forall2_impl; [exact Hout|]. intros i y Hy.
        rewrite lookup_app_l by (eapply lookup_lt_Some; exact Hy). done.
    + (* a new key: the last position is added *)
      exists (idxs ++ [length l]). split; [|split].
      * apply StronglySorted_app_2; [|done|repeat constructor].
        intros i j Hi ->%list_elem_of_singleton. by apply Hlt.
      * intros i. rewrite elem_of_app, list_elem_of_singleton. split.
        -- intros [Hi| ->].
           ++ destruct (proj1 (Hidx i) Hi) as [y Hy]. exists y.
              apply is_first_snoc_old; [by apply Hlt|done].
           ++ exists x. apply is_first_snoc_new. split; [done|]. tauto.
        -- intros (y & Hy). destruct (decide (i < length l)%nat) as [Hi|Hi].
           ++ left. apply Hidx. exists y. by apply is_first_snoc_old in Hy.
           ++ right. destruct Hy as [Hy _]. apply lookup_lt_Some in Hy.
              rewrite length_app in Hy. simpl in Hy. lia.
      * apply Forall2_app.
        -- eapply Forall2_impl; [exact Hout|]. intros i y Hy.
           rewrite lookup_app_l by (eapply lookup_lt_Some; exact Hy). done.
        -- repeat constructor. by rewrite list_lookup_middle.
Qed.
End first_seen_facts.
(** A coarser key selects no more elements than a finer one. *)
Lemma first_seen_length_coarser {A K1 K2 : Type} `{EqDecision K1, EqDecision K2}
    (fine : A → K1) (coarse : A → K2) (l : list A) :
  (∀ x y, fine x = fine y → coarse x = coarse y) →
  (length (first_seen coarse [] l) ≤ length (first_seen fine [] l))%nat.
Proof.
  intros Hfc.
  rewrite <- (length_fmap coarse (first_seen coarse [] l)).
  rewrite <- (length_fmap coarse (first_seen fine [] l)).
  apply submseteq_length, NoDup_submseteq; [apply first_seen_NoDup|].
  intros k (y & -> & Hy)%list_elem_of_fmap.
  assert (y ∈ l) as Hyl.
  { eapply elem_of_submseteq; [exact Hy|]. apply sublist_submseteq, first_seen_sublist. }
  pose proof (first_seen_covers fine [] l y Hyl (not_elem_of_nil _)) as Hc.
  apply list_elem_of_fmap in Hc as (z & Hk & Hz).
  apply list_elem_of_fmap. exists z. split; [by apply Hfc|done].
Qed.

Module Subnet_examples.
Import ipaddress Subnet.

Example build_representatives_example :
  build_representatives
    [("10.0.0.1", IPv4Address 167772161); ("10.0.0.5", IPv4Address 167772165);
     ("10.0.1.1", IPv4Address 167772417); ("10.1.0.1", IPv4Address 167837697)]
  = (["10.0.0.1"; "10.1.0.1"], ["10.0.0.1"; "10.0.1.1"; "10.1.0.1"]).
Proof. vm_compute. reflexivity. Qed.

Example main_example :
  main (Py.file_lines "10.0.0.1
10.0.0.5
10.0.1.1
10.1.0.1
") = (["10.0.0.1"; "10.1.0.1"], ["10.0.0.1"; "10.0.1.1"; "10.1.0.1"]).
Proof. vm_compute. reflexivity. Qed.

End Subnet_examples.

(** ** The subnet bucketer *)
Section subnet_facts.
Import ipaddress Subnet.

Lemma ip_address_empty : ip_address "" = None.
Proof. reflexivity. Qed.

(** The generator is the first-seen selection, by address, of the lines
    that parse. *)
Lemma iter_ips_from_first_seen seen seenl source :
  (∀ ip, ip ∈ seen ↔ ip ∈ seenl) →
  iter_ips_from seen source = first_seen snd seenl (Raw.parsed source).
Proof.
  revert seen seenl. induction source as [|line source IH]; intros seen seenl Hs; [done|].
  unfold Raw.parsed, Raw.stripped in *. cbn [iter_ips_from fmap list_fmap omap list_omap].
  case_bool_decide as Hblank.
  - rewrite Hblank, ip_address_empty. cbn. by apply IH.
  - destruct (ip_address (Py.strip line)) as [ip|] eqn:Hip; cbn; [|by apply IH].
    destruct (decide (ip ∈ seen)) as [Hin|Hin].
    + rewrite decide_True by (by apply Hs). by apply IH.
    + rewrite decide_False by (by rewrite <- Hs). f_equal. apply IH.
      intros ip'. rewrite elem_of_union, elem_of_singleton, elem_of_cons, Hs. done.
Qed.

Lemma iter_ips_first_seen source :
  iter_ips source = first_seen snd [] (Raw.parsed source).
Proof.
  apply iter_ips_from_first_seen. intros ip.
  split; [by intros ?%not_elem_of_empty|by intros ?%elem_of_nil].
Qed.

(** One dictionary of the loop: the first-seen selection by network. *)
Lemma setdefault_fold (net : string * IP → Network) pairs (d : OrderedDict Network string) :
  fold_left (λ d p, setdefault d (net p) p.1) pairs d
  = d ++ ((λ p, (net p, p.1)) <$> first_seen net d.*1 pairs).
Proof.
  revert d. induction pairs as [|p pairs IH]; intros d.
  - by rewrite app_nil_r.
  - cbn [fold_left first_seen]. rewrite IH. unfold setdefault.
    destruct (decide (net p ∈ d.*1)) as [Hin|Hin]; [done|].
    rewrite fmap_cons, <- app_assoc. cbn [app]. do 3 f_equal.
    apply first_seen_ext. intros k.
    rewrite fmap_app, elem_of_app, elem_of_cons. cbn.
    rewrite list_elem_of_singleton. tauto.
Qed.

Lemma build_loop_split pairs d16 d24 :
  build_loop pairs (d16, d24)
  = (fold_left (λ d p, setdefault d (n16 p) p.1) pairs d16,
     fold_left (λ d p, setdefault d (n24 p) p.1) pairs d24).
Proof.
  revert d16 d24. induction pairs as [|[s ip] pairs IH]; intros d16 d24; [done|].
  unfold build_loop in *. cbn [fold_left]. by rewrite IH.
Qed.

Lemma build_representatives_first_seen pairs :
  build_representatives pairs
  = ((first_seen n16 [] pairs).*1, (first_seen n24 [] pairs).*1).
Proof.
  unfold build_representatives. rewrite build_loop_split, !setdefault_fold.
  unfold values. cbn [app].
  by rewrite <- !list_fmap_compose.
Qed.

Lemma ip_network_v4 n p :
  ip_network (IPv4Address n) p = IPNetwork (IPv4Address (N.land n (netmask 32 p))) p.
Proof.
  unfold ip_network. cbn [to_int max_prefixlen].
  case_bool_decide as Hm; [done|]. by rewrite Hm.
Qed.

Lemma ip_network_v6 n sc p :
  ip_network (IPv6Address n sc) p
  = IPNetwork (IPv6Address (N.land n (netmask 128 p))
                 (if decide (N.land n (netmask 128 p) = n) then sc else None)) p.
Proof.
  unfold ip_network. cbn [to_int max_prefixlen].
  case_bool_decide as Hm.
  - by rewrite decide_False.
  - rewrite decide_True by done. by rewrite Hm.
Qed.

Lemma land_24_16 bits x :
  bits = 32%N ∨ bits = 128%N →
  N.land (N.land x (netmask bits 24)) (netmask bits 16) = N.land x (netmask bits 16).
Proof. intros [-> | ->]; rewrite <- N.land_assoc; f_equal. Qed.

Lemma land_16_24 bits x :
  bits = 32%N ∨ bits = 128%N →
  N.land (N.land x (netmask bits 16)) (netmask bits 24) = N.land x (netmask bits 16).
Proof. intros [-> | ->]; rewrite <- N.land_assoc; f_equal. Qed.

(** Two addresses in one /24 network are in one /16 network. *)
Lemma ip_network_24_16 a b :
  ip_network a 24 = ip_network b 24 → ip_network a 16 = ip_network b 16.
Proof.
  destruct a as [a|a sa], b as [b|b sb];
    rewrite ?ip_network_v4, ?ip_network_v6; intros Heq; try discriminate.
  - injection Heq as Heq. do 2 f_equal.
    rewrite <- (land_24_16 32 a), <- (land_24_16 32 b) by auto. by rewrite Heq.
  - injection Heq as Heq Hsc.
    assert (N.land a (netmask 128 16) = N.land b (netmask 128 16)) as H16.
    { rewrite <- (land_24_16 128 a), <- (land_24_16 128 b) by auto. by rewrite Heq. }
    assert (∀ x, N.land x (netmask 128 16) = x → N.land x (netmask 128 24) = x) as Hal.
    { intros x Hx. rewrite <- Hx at 1. rewrite land_16_24 by auto. exact Hx. }
    f_equal. f_equal; [exact H16|].
    destruct (decide (N.land a (netmask 128 16) = a)) as [Ha|Ha],
             (decide (N.land b (netmask 128 16) = b)) as [Hb|Hb]; [| | |done].
    + rewrite !decide_True in Hsc by auto. done.
    + rewrite decide_True in Hsc by auto.
      rewrite decide_False in Hsc; [done|].
      intros Hb24. apply Hb. pose proof (Hal a Ha). congruence.
    + rewrite (decide_True (P := N.land b _ = b)) in Hsc by auto.
      rewrite decide_False in Hsc; [done|].
      intros Ha24. apply Ha. pose proof (Hal b Hb). congruence.
Qed.

Lemma parsed_elem s ip f :
  (s, ip) ∈ Raw.parsed f → ip_address s = Some ip ∧ s ∈ Raw.stripped f.
Proof.
  unfold Raw.parsed. intros (s' & Hs' & Hp)%list_elem_of_omap.
  destruct (ip_address s') as [ip'|] eqn:Hip; [|done].
  cbn in Hp. by simplify_eq.
Qed.

Lemma iter_ips_elem s ip source :
  (s, ip) ∈ iter_ips source → ip_address s = Some ip ∧ s ∈ Raw.stripped source.
Proof.
  rewrite iter_ips_first_seen. intros Hin. apply parsed_elem.
  eapply elem_of_submseteq; [exact Hin|]. apply sublist_submseteq, first_seen_sublist.
Qed.

Lemma iter_ips_NoDup_text source : NoDup (iter_ips source).*1.
Proof.
  apply NoDup_fmap_2_strong.
  - intros [s1 ip1] [s2 ip2] [H1 _]%iter_ips_elem [H2 _]%iter_ips_elem Heq.
    cbn in Heq. subst s2. congruence.
  - eapply NoDup_fmap_1. rewrite iter_ips_first_seen. apply first_seen_NoDup.
Qed.

Lemma first_seen_head_fmap {A K B} `{EqDecision K} (key : A → K) (f : A → B) l :
  head (f <$> first_seen key [] l) = head (f <$> l).
Proof. destruct l as [|x l]; [done|]. by rewrite first_seen_head. Qed.

(** C7. For every batch, the /16 list and the /24 list hold, for each
    distinct network of the batch, the text of the first address observed
    in that network and of no later one, in the order in which the
    networks are first met; on the batch 10.0.0.1, 10.0.0.5, 10.0.1.1,
    10.1.0.1 the /16 list is 10.0.0.1, 10.1.0.1 and the /24 list is
    10.0.0.1, 10.0.1.1, 10.1.0.1. *)
Theorem C7_first_address_represents_network :
  (∀ pairs : list (string * IP),
     ∃ firsts16 firsts24 : list (string * IP),
       build_representatives pairs = (firsts16.*1, firsts24.*1)
       ∧ first_occurrences n16 pairs firsts16
       ∧ first_occurrences n24 pairs firsts24)
  ∧ iter_ips ["10.0.0.1"; "10.0.0.5"; "10.0.1.1"; "10.1.0.1"]
    = [("10.0.0.1", IPv4Address 0x0a000001); ("10.0.0.5", IPv4Address 0x0a000005);
       ("10.0.1.1", IPv4Address 0x0a000101); ("10.1.0.1", IPv4Address 0x0a010001)]
  ∧ build_representatives
      (iter_ips ["10.0.0.1"; "10.0.0.5"; "10.0.1.1"; "10.1.0.1"])
    = (["10.0.0.1"; "10.1.0.1"], ["10.0.0.1"; "10.0.1.1"; "10.1.0.1"]).
Proof.
  split; [|split; vm_compute; reflexivity].
  intros pairs.
  exists (first_seen n16 [] pairs), (first_seen n24 [] pairs).
  split; [apply build_representatives_first_seen|].
  split; apply first_seen_first_occurrences.
Qed.

(** C10. For every batch the /16 list is no longer than the /24 list,
    both lists are subsequences of the texts of the batch and start with
    the first address of the batch; on the batch read from any input
    neither list repeats an address. *)
Theorem C10_representative_lists_shape :
  (∀ pairs : list (string * IP),
     (length (build_representatives pairs).1
        ≤ length (build_representatives pairs).2)%nat
     ∧ sublist (build_representatives pairs).1 pairs.*1
     ∧ sublist (build_representatives pairs).2 pairs.*1
     ∧ head (build_representatives pairs).1 = head pairs.*1
     ∧ head (build_representatives pairs).2 = head pairs.*1)
  ∧ (∀ source : list string,
       NoDup (iter_ips source).*1
       ∧ NoDup (main source).1
       ∧ NoDup (main source).2).
Proof.
  split.
  - intros pairs. rewrite build_representatives_first_seen. cbn [fst snd].
    rewrite !length_fmap, !first_seen_head_fmap.
    split; [|split; [|split]]; [| | |done].
    + apply first_seen_length_coarser. intros x y. apply ip_network_24_16.
    + apply fmap_sublist, first_seen_sublist.
    + apply fmap_sublist, first_seen_sublist.
  - intros source. pose proof (iter_ips_NoDup_text source) as Hnd.
    split; [done|]. unfold main. rewrite build_representatives_first_seen. cbn [fst snd].
    split; (eapply sublist_NoDup; [exact Hnd|]); apply fmap_sublist, first_seen_sublist.
Qed.

(** C8 fails as stated: two IPv6 addresses are accepted and keyed by the
    networks of prefix length 16 and 24 that mask them, so that
    2001:db8::1 stands for 2001:db9:ffff::2 in both lists. *)
Lemma C8_ipv6_masked_to_16_and_24 :
  iter_ips ["2001:db8::1"; "2001:db9:ffff::2"]
  = [("2001:db8::1", IPv6Address 0x20010db8000000000000000000000001 None);
     ("2001:db9:ffff::2", IPv6Address 0x20010db9ffff00000000000000000002 None)]
  ∧ n16 <$> iter_ips ["2001:db8::1"; "2001:db9:ffff::2"]
    = [IPNetwork (IPv6Address 0x20010000000000000000000000000000 None) 16;
       IPNetwork (IPv6Address 0x20010000000000000000000000000000 None) 16]
  ∧ n24 <$> iter_ips ["2001:db8::1"; "2001:db9:ffff::2"]
    = [IPNetwork (IPv6Address 0x20010d00000000000000000000000000 None) 24;
       IPNetwork (IPv6Address 0x20010d00000000000000000000000000 None) 24]
  ∧ main ["2001:db8::1"; "2001:db9:ffff::2"] = (["2001:db8::1"], ["2001:db8::1"]).
Proof. vm_compute. repeat split. Qed.

(** C8, amended.  The bucketer accepts IPv6 addresses and applies the
    prefix lengths 16 and 24 to them as to IPv4 ones: the network of an
    IPv6 address is the IPv6 network of prefix length 16 (24) at the
    address masked to its top 16 (24) bits, and every IPv6 address of a
    batch has, in each list, a representative of the batch that is an IPv6
    address with the same top 16 (24) bits. *)
Theorem C8_ipv6_bucketed_by_16_and_24 :
  netmask 128 16 = N.shiftl 0xffff 112
  ∧ netmask 128 24 = N.shiftl 0xffffff 104
  ∧ (∀ n sc, ∃ sc16 sc24,
       ip_network (IPv6Address n sc) 16
       = IPNetwork (IPv6Address (N.land n (netmask 128 16)) sc16) 16
       ∧ ip_network (IPv6Address n sc) 24
         = IPNetwork (IPv6Address (N.land n (netmask 128 24)) sc24) 24)
  ∧ (∀ (pairs : list (string * IP)) s n sc,
       (s, IPv6Address n sc) ∈ pairs →
       (∃ r m scr, r ∈ (build_representatives pairs).1
                   ∧ (r, IPv6Address m scr) ∈ pairs
                   ∧ N.land m (netmask 128 16) = N.land n (netmask 128 16))
       ∧ (∃ r m scr, r ∈ (build_representatives pairs).2
                     ∧ (r, IPv6Address m scr) ∈ pairs
                     ∧ N.land m (netmask 128 24) = N.land n (netmask 128 24))).
Proof.
  split; [reflexivity|]. split; [reflexivity|]. split.
  - intros n sc. rewrite !ip_network_v6. eauto.
  - intros pairs s n sc Hin. rewrite build_representatives_first_seen. cbn [fst snd].
    assert (∀ (p : N) (net : string * IP → Network),
              (∀ q, net q = ip_network q.2 p) →
              ∃ r m scr, r ∈ (first_seen net [] pairs).*1
                         ∧ (r, IPv6Address m scr) ∈ pairs
                         ∧ N.land m (netmask 128 p) = N.land n (netmask 128 p)) as Hgen.
    { intros p net Hnet.
      pose proof (first_seen_covers net [] pairs _ Hin (not_elem_of_nil _)) as Hc.
      apply list_elem_of_fmap in Hc as ([r ipr] & Hk & Hr).
      assert ((r, ipr) ∈ pairs) as Hrp.
      { eapply elem_of_submseteq; [exact Hr|]. apply sublist_submseteq, first_seen_sublist. }
      rewrite !Hnet in Hk. cbn [snd] in Hk. rewrite ip_network_v6 in Hk.
      destruct ipr as [m|m scr]; [by rewrite ip_network_v4 in Hk|].
      rewrite ip_network_v6 in Hk. injection Hk as Hk _.
      exists r, m, scr. split; [|done].
      apply list_elem_of_fmap. by exists (r, IPv6Address m scr). }
    split; apply Hgen; done.
Qed.

Lemma C8_ipv6_bucketed_by_16_and_24_witness :
  ∃ r m scr,
    r ∈ (build_representatives
           [("2001:db8::1", IPv6Address 0x20010db8000000000000000000000001 None);
            ("2001:db9:ffff::2", IPv6Address 0x20010db9ffff00000000000000000002 None)]).1
    ∧ (r, IPv6Address m scr)
        ∈ [("2001:db8::1", IPv6Address 0x20010db8000000000000000000000001 None);
           ("2001:db9:ffff::2", IPv6Address 0x20010db9ffff00000000000000000002 None)]
    ∧ N.land m (netmask 128 16)
      = N.land 0x20010db9ffff00000000000000000002 (netmask 128 16).
Proof.
  refine (proj1 (proj2 (proj2 (proj2 C8_ipv6_bucketed_by_16_and_24))
                   _ "2001:db9:ffff::2" _ None _)).
  right. left.
Defined.
End subnet_facts.
(** ** Input normalization of the two lookup scripts *)
Section normalizer_facts.
Import ipaddress.

Lemma startswith_comment s :
  Py.startswith s "#" = true ↔ ∃ s', s = String "#" s'.
Proof.
  destruct s as [|c s]; cbn [Py.startswith].
  - split; [done|]. by intros [? ?].
  - destruct s; cbn [Py.startswith]; rewrite andb_true_r, Ascii.eqb_eq; split.
    + intros ->. eauto.
    + by intros [s' [= -> _]].
    + intros ->. eauto.
    + by intros [s' [= -> _]].
Qed.

(** The first loop of [parse_ip_file]. *)
Lemma parse_ip_file_filter f acc :
  fold_left (λ ips line,
               let line := Py.strip line in
               if bool_decide (line = "") || Py.startswith line "#" then ips
               else ips ++ [line]) f acc
  = acc ++ Raw.candidates f.
Proof.
  revert acc. unfold Raw.candidates, Raw.stripped.
  induction f as [|line f IH]; intros acc; [by rewrite app_nil_r|].
  cbn [fold_left fmap list_fmap]. rewrite IH, filter_cons. clear IH.
  unfold Raw.is_blank, Raw.is_comment.
  case_bool_decide as Hb; cbn [orb].
  - rewrite decide_False by tauto. done.
  - destruct (Py.startswith (Py.strip line) "#") eqn:Hc.
    + rewrite decide_False by tauto. done.
    + rewrite decide_True; [by rewrite <- app_assoc|]. split; [done|]. by intros [=].
Qed.

(** The second loop of [parse_ip_file]. *)
Lemma parse_ip_file_dedup (ips : list string) (seen : gset string) seenl uniq :
  (∀ ip, ip ∈ seen ↔ ip ∈ seenl) →
  (fold_left (λ '(seen, uniq) ip,
                if decide (ip ∈ (seen : gset string)) then (seen, uniq)
                else ({[ip]} ∪ seen, uniq ++ [ip]))
             ips (seen, uniq)).2
  = uniq ++ first_seen id seenl ips.
Proof.
  revert seen seenl uniq. induction ips as [|ip ips IH]; intros seen seenl uniq Hs.
  - by rewrite app_nil_r.
  - cbn [fold_left first_seen id]. destruct (decide (ip ∈ seen)) as [Hin|Hin].
    + rewrite decide_True by (by apply Hs). by apply IH.
    + rewrite decide_False by (by rewrite <- Hs).
      rewrite (IH _ (ip :: seenl)); [by rewrite <- app_assoc|].
      intros ip'. rewrite elem_of_union, elem_of_singleton, elem_of_cons, Hs. done.
Qed.

Lemma parse_ip_file_first_seen f :
  GeoApi.parse_ip_file f = first_seen id [] (Raw.candidates f).
Proof.
  unfold GeoApi.parse_ip_file. rewrite parse_ip_file_filter. cbn [app].
  pose proof (parse_ip_file_dedup (Raw.candidates f) ∅ [] []) as H.
  destruct (fold_left _ (Raw.candidates f) (∅, [])) as [seen uniq].
  cbn [snd] in H. rewrite H; [done|].
  intros ip. split; [by intros ?%not_elem_of_empty|by intros ?%elem_of_nil].
Qed.

Lemma parse_ip_file_NoDup f : NoDup (GeoApi.parse_ip_file f).
Proof.
  rewrite parse_ip_file_first_seen.
  rewrite <- (list_fmap_id (first_seen id [] _)). apply first_seen_NoDup.
Qed.

Lemma parse_ip_file_elem f s :
  s ∈ GeoApi.parse_ip_file f ↔ s ∈ Raw.candidates f.
Proof.
  rewrite parse_ip_file_first_seen. split.
  - intros Hin. eapply elem_of_submseteq; [exact Hin|].
    apply sublist_submseteq, first_seen_sublist.
  - intros Hin.
    pose proof (first_seen_covers id [] _ s Hin (not_elem_of_nil _)) as Hc.
    by rewrite list_fmap_id in Hc.
Qed.

Lemma read_ips_non_blank f : GeoProc.read_ips f = Raw.non_blank f.
Proof.
  unfold GeoProc.read_ips, Raw.non_blank, Raw.stripped, Raw.is_blank.
  induction f as [|line f IH]; [done|].
  cbn [omap list_omap fmap list_fmap]. rewrite filter_cons, IH.
  case_bool_decide; [by rewrite decide_True|by rewrite decide_False by tauto].
Qed.

Lemma candidates_elem f s :
  s ∈ Raw.candidates f
  ↔ s ∈ Raw.stripped f ∧ ¬ Raw.is_blank s ∧ ¬ Raw.is_comment s.
Proof. unfold Raw.candidates. rewrite list_elem_of_filter. tauto. Qed.

End normalizer_facts.

(** ** A comment line is not an IP literal *)
Section comment_not_address.
Import ipaddress.

Lemma split_cons sep c s :
  Ascii.eqb c sep = false →
  ∃ h t, Py.split sep (String c s) = String c h :: t.
Proof.
  intros Hc. cbn [Py.split]. rewrite Hc.
  destruct (Py.split sep s) as [|h t]; eauto.
Qed.

Lemma parse_octet_hash h : parse_octet (String "#" h) = None.
Proof. reflexivity. Qed.

Lemma parse_v4_comment s : parse_v4 (String "#" s) = None.
Proof.
  unfold parse_v4. destruct (Py.contains "/" _); [done|].
  unfold v4_int_from_string. rewrite bool_decide_eq_false_2 by done.
  destruct (split_cons "." "#" s eq_refl) as (h & t & ->).
  case_bool_decide; [done|]. cbn [mapM]. by rewrite parse_octet_hash.
Qed.

Lemma find_skip_index_ge parts i :
  find_skip_index parts = Some (Some i) → (1 ≤ i)%nat.
Proof.
  unfold find_skip_index.
  destruct (filter _ _) as [|j [|? ?]] eqn:Hf; intros [=]; subst j.
  assert (i ∈ filter (λ i, parts !! i = Some "") (seq 1 (length parts - 2))) as Hin
    by (rewrite Hf; left).
  apply list_elem_of_filter in Hin as [_ Hin]. apply elem_of_seq in Hin. lia.
Qed.

Lemma shift_in_bad acc h t : parse_hextet h = None → shift_in acc (h :: t) = None.
Proof. intros Hh. cbn [shift_in]. by rewrite Hh. Qed.

(** When the first part is not a hextet, and not empty, the parts are
    rejected: the first part is always read. *)
Lemma v6_int_from_parts_bad_head h t :
  parse_hextet h = None → h ≠ "" → v6_int_from_parts (h :: t) = None.
Proof.
  intros Hh Hne. unfold v6_int_from_parts.
  destruct (9 <? length (h :: t))%nat; [done|].
  destruct (find_skip_index (h :: t)) as [[i|]|] eqn:Hskip; cbn [mbind option_bind]; [| |done].
  - apply find_skip_index_ge in Hskip.
    rewrite (bool_decide_eq_false_2 ((h :: t) !! 0%nat = Some "")) by (cbn; congruence).
    cbn [mbind option_bind].
    destruct (if bool_decide (last (h :: t) = Some "") then _ else _) as [lo|];
      cbn [mbind option_bind]; [|done].
    destruct (_ <? 1); cbn [mbind option_bind]; [done|].
    destruct i as [|i]; [lia|]. cbn [take]. by rewrite shift_in_bad.
  - case_bool_decide; [done|].
    rewrite (bool_decide_eq_false_2 ((h :: t) !! 0%nat = Some "")) by (cbn; congruence).
    case_bool_decide; [done|]. cbn [mbind option_bind length take].
    by rewrite shift_in_bad.
Qed.

Lemma removelast_cons {A} (x y : A) l : removelast (x :: y :: l) = x :: removelast (y :: l).
Proof. done. Qed.

Lemma v6_int_from_string_comment a : v6_int_from_string (String "#" a) = None.
Proof.
  unfold v6_int_from_string. rewrite bool_decide_eq_false_2 by done.
  destruct (split_cons ":" "#" a eq_refl) as (h & t & ->). cbv zeta.
  destruct (length (String "#" h :: t) <? 3)%nat eqn:Hlen; [done|].
  destruct (Py.contains "." _).
  - destruct (parse_v4 _) as [n|]; cbn [mbind option_bind]; [|done].
    destruct t as [|p t]; [done|]. rewrite removelast_cons. cbn [app].
    by apply v6_int_from_parts_bad_head.
  - cbn [mbind option_bind]. by apply v6_int_from_parts_bad_head.
Qed.

Lemma partition_cons sep c s :
  Ascii.eqb c sep = false →
  Py.partition sep (String c s)
  = (String c (Py.partition sep s).1.1, (Py.partition sep s).1.2, (Py.partition sep s).2).
Proof.
  intros Hc. cbn [Py.partition]. rewrite Hc. by destruct (Py.partition sep s) as [[? ?] ?].
Qed.

Lemma parse_v6_comment s : parse_v6 (String "#" s) = None.
Proof.
  unfold parse_v6. destruct (Py.contains "/" _); [done|].
  unfold split_scope_id. rewrite partition_cons by done.
  destruct (Py.partition "%" s) as [[a sep] sc]. cbn [fst snd].
  destruct sep; cbn [negb].
  - destruct (_ || _); cbn [mbind option_bind]; [done|].
    by rewrite v6_int_from_string_comment.
  - cbn [mbind option_bind]. by rewrite v6_int_from_string_comment.
Qed.

Lemma ip_address_comment s : Raw.is_comment s → ip_address s = None.
Proof.
  intros [s' ->]%startswith_comment. unfold ip_address.
  by rewrite parse_v4_comment, parse_v6_comment.
Qed.

Lemma ip_address_not_blank_comment s ip :
  ip_address s = Some ip → ¬ Raw.is_blank s ∧ ¬ Raw.is_comment s.
Proof.
  intros Hip. split.
  - intros ->. done.
  - intros Hc. by rewrite ip_address_comment in Hip.
Qed.
End comment_not_address.

(** ** The result assemblers *)
Section process_assembler.
Import PyVal GeoProc.

Lemma run_geoip_lookup_fst ip run : (run_geoip_lookup ip run).1 = ip.
Proof. unfold run_geoip_lookup. by destruct (_ || _), run. Qed.

Lemma run_geoip_lookup_comment ip run :
  Raw.is_comment ip → run_geoip_lookup ip run = (ip, "UNKNOWN").
Proof.
  unfold Raw.is_comment, run_geoip_lookup. intros ->. by rewrite orb_true_r.
Qed.

Lemma write_rows_Some rows : write_rows (Some <$> rows) = Ret rows.
Proof.
  induction rows as [|[ip country] rows IH]; [done|].
  cbn [fmap list_fmap write_rows]. fold (fmap (M := list) (@Some (string * string)) rows).
  by rewrite IH.
Qed.

(** The slots after the futures [todo], numbered from [length done], have
    been stored behind the filled slots [done]. *)
Lemma collect_loop (done todo : list (string * string)) :
  fold_left (λ st '(idx, fut),
               results ← st;
               let '(ip, country) := fut in
               setitem results idx (Some (ip, country)))
            (imap (λ i r, ((length done + i)%nat, r)) todo)
            (Ret ((Some <$> done) ++ replicate (length todo) None))
  = Ret (Some <$> (done ++ todo)).
Proof.
  revert done. induction todo as [|[ip country] todo IH]; intros done.
  - cbn. by rewrite !app_nil_r.
  - cbn [imap fold_left length replicate].
    cbn [mbind py_bind bind]. unfold setitem.
    rewrite bool_decide_eq_true_2
      by (rewrite length_app, length_fmap; cbn [length]; lia).
    replace (length done + 0)%nat with (length (Some <$> done) + 0)%nat
      by (by rewrite length_fmap).
    rewrite insert_app_r. cbn [insert list_insert].
    replace (done ++ (ip, country) :: todo) with ((done ++ [(ip, country)]) ++ todo)
      by (by rewrite <- app_assoc).
    rewrite <- (IH (done ++ [(ip, country)])). f_equal.
    + apply imap_ext. intros i r _. cbn. rewrite length_app. cbn. f_equal. lia.
    + rewrite fmap_app, <- app_assoc. done.
Qed.

Lemma collect_imap (rows : list (string * string)) :
  collect (imap (λ i r, (i, r)) rows) = Ret (Some <$> rows).
Proof.
  unfold collect. rewrite length_imap.
  exact (collect_loop [] rows).
Qed.

(** The rows of the process backend: one per address of the batch, at its
    index, with the label of its own lookup. *)
Lemma assemble_rows ips run :
  assemble ips run = Ret (imap (λ idx ip, run_geoip_lookup ip (run idx)) ips).
Proof.
  unfold assemble.
  replace (imap (λ idx ip, (idx, run_geoip_lookup ip (run idx))) ips)
    with (imap (λ i r, (i, r)) (imap (λ idx ip, run_geoip_lookup ip (run idx)) ips)).
  2:{ apply list_eq. intros i. rewrite !list_lookup_imap. by destruct (ips !! i). }
  rewrite collect_imap. cbn [mbind py_bind bind]. apply write_rows_Some.
Qed.

Lemma assemble_rows_fst ips run :
  (imap (λ idx ip, run_geoip_lookup ip (run idx)) ips).*1 = ips.
Proof.
  apply list_eq. intros i. rewrite list_lookup_fmap, list_lookup_imap.
  destruct (ips !! i) as [ip|]; [|done]. cbn. by rewrite run_geoip_lookup_fst.
Qed.
End process_assembler.

Section sort_by_facts.
Context {A : Type} (key : A → Z).
Import GeoApi.

Lemma insert_by_between (x : A) (l1 l2 : list A) :
  (∀ a, a ∈ l1 → key a < key x) →
  (∀ b, b ∈ l2 → key x < key b) →
  insert_by key x (l1 ++ l2) = l1 ++ x :: l2.
Proof.
  intros H1 H2. induction l1 as [|a l1 IH]; cbn [app insert_by].
  - destruct l2 as [|b l2]; [done|]. cbn [insert_by].
    assert (key x < key b) by (apply H2; left).
    destruct (Z.leb_spec (key x) (key b)); [done|lia].
  - assert (key a < key x) by (apply H1; left).
    destruct (Z.leb_spec (key x) (key a)); [lia|].
    f_equal. apply IH. intros a' Ha'. apply H1. by right.
Qed.

(** A list whose keys are all different has one sorted arrangement, and
    the sort finds it. *)
Lemma sort_by_unique (l l' : list A) :
  l ≡ₚ l' → StronglySorted (λ a b, key a < key b) l' → sort_by key l = l'.
Proof.
  revert l'. induction l as [|x l IH]; intros l' Hp Hs.
  - by apply Permutation_nil_l in Hp.
  - apply Permutation_cons_inv_l in Hp as (k1 & k2 & -> & Hp).
    apply StronglySorted_app in Hs as (H12 & Hs1 & Hs2).
    apply StronglySorted_inv in Hs2 as [Hs2 Hx].
    cbn [sort_by foldr]. fold (sort_by key l).
    rewrite (IH (k1 ++ k2)); [|done|].
    + apply insert_by_between.
      * intros a Ha. apply H12; [done|left].
      * intros b Hb. by eapply Forall_forall in Hx.
    + apply StronglySorted_app_2; [|done|done].
      intros a b Ha Hb. apply H12; [done|by right].
Qed.

Lemma sorted_by_position (l : list A) (k : nat) :
  (∀ i x, l !! i = Some x → key x = Z.of_nat (k + i)) →
  StronglySorted (λ a b, key a < key b) l.
Proof.
  revert k. induction l as [|x l IH]; intros k Hk; constructor.
  - apply (IH (S k)). intros i y Hy. rewrite (Hk (S i) y Hy). f_equal. lia.
  - apply Forall_forall. intros y [i Hi]%list_elem_of_lookup.
    rewrite (Hk 0%nat x eq_refl), (Hk (S i) y Hi). lia.
Qed.
End sort_by_facts.

Section api_assembler.
Import PyVal GeoApi.

Lemma collect_loop_Ret (done : list (string * option string))
    (acc : list (string * string)) (e : Z) :
  fold_left (λ st fut,
               '(results, errors) ← st;
               '(ip, cc2) ← fut;
               let errors := match cc2 with None => errors + 1 | Some _ => errors end in
               Ret (results ++ [(ip, or_empty cc2)], errors))
            (Ret <$> done) (Ret (acc, e))
  = Ret (acc ++ (Outcome.api_row <$> done), e + Outcome.unresolved done).
Proof.
  unfold Outcome.unresolved.
  revert acc e. induction done as [|[ip cc2] done IH]; intros acc e.
  - cbn. by rewrite app_nil_r, Z.add_0_r.
  - cbn [fmap list_fmap fold_left mbind py_bind bind].
    fold (fmap (M := list) (@Ret (string * option string)) done).
    rewrite IH, <- app_assoc. cbn [app]. do 2 f_equal.
    rewrite filter_cons. cbn [snd]. destruct cc2 as [s|].
    + rewrite decide_False by done. done.
    + rewrite decide_True by done. cbn [length]. lia.
Qed.

Lemma collect_Ret done :
  collect (Ret <$> done)
  = Ret (Outcome.api_row <$> done, Outcome.unresolved done).
Proof. unfold collect. by rewrite collect_loop_Ret. Qed.

Lemma collect_loop_Raise completed e :
  fold_left (λ st fut,
               '(results, errors) ← st;
               '(ip, cc2) ← fut;
               let errors := match cc2 with None => errors + 1 | Some _ => errors end in
               Ret (results ++ [(ip, or_empty cc2)], errors))
            completed (Raise e)
  = (Raise e : py (list (string * string) * Z)).
Proof. induction completed as [|fut completed IH]; [done|]. cbn. apply IH. Qed.

(** The loop ends normally only when every future returned. *)
Lemma collect_inv completed r :
  collect completed = Ret r → ∃ done, completed = Ret <$> done.
Proof.
  unfold collect. generalize (@nil (string * string), 0) as st.
  induction completed as [|fut completed IH]; intros st Hr.
  - by exists [].
  - cbn [fold_left] in Hr. destruct st as [acc e].
    destruct fut as [[ip cc2]|ex]; cbn [mbind py_bind bind] in Hr.
    + apply IH in Hr as [done ->]. by exists ((ip, cc2) :: done).
    + by rewrite collect_loop_Raise in Hr.
Qed.

Lemma order_of_loop (l : list string) (k : nat) (m : gmap string Z) :
  NoDup l →
  (∀ i ip, l !! i = Some ip →
     fold_left (λ order '(idx, ip), <[ip := idx]> order)
               (imap (λ idx ip, (Z.of_nat (k + idx), ip)) l) m !! ip
     = Some (Z.of_nat (k + i)))
  ∧ (∀ ip, ip ∉ l →
       fold_left (λ order '(idx, ip), <[ip := idx]> order)
                 (imap (λ idx ip, (Z.of_nat (k + idx), ip)) l) m !! ip
       = m !! ip).
Proof.
  revert k m. induction l as [|x l IH]; intros k m Hnd.
  - split; [by intros i ip; rewrite lookup_nil|done].
  - apply NoDup_cons in Hnd as [Hx Hnd]. cbn [imap fold_left].
    assert (imap ((λ idx ip, (Z.of_nat (k + idx), ip)) ∘ S) l
            = imap (λ idx ip, (Z.of_nat (S k + idx), ip)) l) as ->.
    { apply imap_ext. intros i y _. cbn. do 2 f_equal. lia. }
    destruct (IH (S k) (<[x := Z.of_nat (k + 0)]> m) Hnd) as [IH1 IH2].
    split.
    + intros [|i] ip Hi; cbn in Hi.
      * injection Hi as ->. rewrite IH2 by done. by rewrite lookup_insert_eq.
      * rewrite (IH1 i ip Hi). do 2 f_equal. lia.
    + intros ip [Hne Hip]%not_elem_of_cons. rewrite IH2 by done.
      by rewrite lookup_insert_ne.
Qed.

Lemma order_of_lookup ips i ip :
  NoDup ips → ips !! i = Some ip → order_of ips !! ip = Some (Z.of_nat i).
Proof.
  intros Hnd Hi. unfold order_of.
  destruct (order_of_loop ips 0 ∅ Hnd) as [H1 _]. exact (H1 i ip Hi).
Qed.

Lemma api_row_zip (ips : list string) (outs : list (option string)) :
  Outcome.api_row <$> zip ips outs = zip ips (or_empty <$> outs).
Proof.
  revert outs. induction ips as [|ip ips IH]; intros [|o outs]; [done..|].
  cbn [zip zip_with fmap list_fmap]. f_equal. apply IH.
Qed.

Lemma unresolved_Permutation l1 l2 :
  l1 ≡ₚ l2 → Outcome.unresolved l1 = Outcome.unresolved l2.
Proof. intros Hp. unfold Outcome.unresolved. by rewrite Hp. Qed.

(** The rows of the API backend on a batch without repetition, whatever
    the order [done] in which the outcomes [outs] arrive. *)
Lemma assemble_sorted ips (outs : list (option string)) done :
  NoDup ips → length outs = length ips → done ≡ₚ zip ips outs →
  assemble ips (Ret <$> done)
  = Ret {| rows := zip ips (or_empty <$> outs);
           errors := Outcome.unresolved (zip ips outs) |}.
Proof.
  intros Hnd Hlen Hp. unfold assemble. rewrite collect_Ret.
  cbn [mbind py_bind bind]. f_equal. f_equal.
  - apply sort_by_unique.
    + by rewrite Hp, api_row_zip.
    + apply (sorted_by_position _ _ 0). intros i [ip lab] Hi.
      apply lookup_zip_with_Some in Hi as (ip' & lab' & Heq & Hip & _).
      injection Heq as -> ->.
      cbn [fst]. by rewrite (order_of_lookup ips i ip' Hnd Hip).
  - by apply unresolved_Permutation.
Qed.

Lemma fetch_country_code2_fst ip reply t :
  fetch_country_code2 ip reply = Ret t → t.1 = ip.
Proof.
  unfold fetch_country_code2, fetch_try.
  destruct reply as [[status body]|]; cbn [mbind py_bind bind status_code json];
    [|by intros [= <-]].
  case_bool_decide; [by intros [= <-]|].
  destruct body as [data|]; cbn [mbind py_bind bind]; [|by intros [= <-]].
  destruct data as [| | | | | |items]; cbn [get mbind py_bind bind]; try done.
  destruct (dict_get items "location") as [| | | | | |loc];
    cbn [get mbind py_bind bind];
    try (destruct (dict_get items "country_code2"); by intros [= <-]).
  destruct (dict_get loc "country_code2");
    cbn [get mbind py_bind bind];
    try (destruct (dict_get items "country_code2")); by intros [= <-].
Qed.
End api_assembler.

(** ** The API resolver *)
Section fetch_facts.
Import PyVal GeoApi.

(** What [fetch_country_code2] does, case by case. *)
Lemma fetch_country_code2_cases ip reply :
  fetch_country_code2 ip reply
  = match reply with
    | Failed => Ret (ip, None)
    | Replied r =>
        if bool_decide (status_code r ≠ 200) then Ret (ip, None)
        else match json r with
             | None => Ret (ip, None)
             | Some (PDict items) =>
                 Ret (ip, match Body.country_field items with
                          | PStr s => Some (Py.strip s)
                          | _ => None
                          end)
             | Some _ => Raise AttributeError
             end
    end.
Proof.
  unfold fetch_country_code2, fetch_try, Body.country_field.
  destruct reply as [[status body]|]; cbn [mbind py_bind bind status_code json]; [|done].
  case_bool_decide; [done|].
  destruct body as [data|]; cbn [mbind py_bind bind]; [|done].
  destruct data as [| | | | | |items]; cbn [get mbind py_bind bind]; try done.
  destruct (dict_get items "location") as [| | | | | |loc];
    cbn [get mbind py_bind bind];
    try (by destruct (dict_get items "country_code2")).
  destruct (dict_get loc "country_code2");
    cbn [get mbind py_bind bind];
    try (by destruct (dict_get items "country_code2")); done.
Qed.

Lemma lstrip_spaces s :
  Py.forallb_string Py.isspace s = true → Py.lstrip s = "".
Proof.
  induction s as [|c s IH]; [done|]. cbn [Py.forallb_string Py.lstrip].
  intros [Hc Hs]%andb_true_iff. rewrite Hc. by apply IH.
Qed.

Lemma strip_spaces s :
  Py.forallb_string Py.isspace s = true → Py.strip s = "".
Proof. intros Hs. unfold Py.strip. by rewrite lstrip_spaces. Qed.
End fetch_facts.

(** ** The regular-expression engine *)
Section re_facts.
Import Re Stdout.

Lemma prev_after_app prev l1 l2 :
  prev_after prev (l1 ++ l2) = prev_after (prev_after prev l1) l2.
Proof. unfold prev_after. by rewrite fold_left_app. Qed.

Lemma prev_after_last l : prev_after None l = last l.
Proof.
  induction l as [|c l IH] using rev_ind; [done|].
  rewrite prev_after_app, last_snoc. done.
Qed.

Lemma at_line_start_iff pre : at_line_start (prev_after None pre) ↔ line_start pre.
Proof.
  rewrite prev_after_last. unfold at_line_start, line_start.
  split; (intros [H|H]; [left|right]); try done.
  - by apply last_None in H.
  - by rewrite H.
Qed.

(** *** Literals and classes *)
Lemma eat_lit_Some s prev text p' t' :
  eat_lit s prev text = Some (p', t') →
  text = chars s ++ t' ∧ p' = prev_after prev (chars s).
Proof.
  revert prev text. induction s as [|c s IH]; intros prev text; cbn [eat_lit chars list_ascii_of_string].
  - by intros [= <- <-].
  - destruct text as [|x text]; [done|].
    destruct (Ascii.eqb_spec x c) as [->|]; [|done].
    intros [-> ->]%IH. done.
Qed.

Lemma eat_lit_app s prev t' :
  eat_lit s prev (chars s ++ t') = Some (prev_after prev (chars s), t').
Proof.
  revert prev. induction s as [|c s IH]; intros prev; cbn [eat_lit chars list_ascii_of_string app]; [done|].
  rewrite Ascii.eqb_refl. apply IH.
Qed.

Lemma eat_class_Some cls n prev text g p' t' :
  eat_class cls n prev text = Some (g, p', t') →
  text = g ++ t' ∧ length g = n ∧ Forall (λ c, cls c = true) g
  ∧ p' = prev_after prev g.
Proof.
  revert prev text g. induction n as [|n IH]; intros prev text g; cbn [eat_class].
  - intros [= <- <- <-]. by repeat split.
  - destruct text as [|x text]; [done|]. destruct (cls x) eqn:Hx; [|done].
    destruct (eat_class cls n (Some x) text) as [[[g0 p0] t0]|] eqn:He; [|done].
    intros [= <- <- <-]. apply IH in He as (-> & <- & Hg & ->).
    repeat split; by try constructor.
Qed.

Lemma eat_class_app cls prev g t' :
  Forall (λ c, cls c = true) g →
  eat_class cls (length g) prev (g ++ t') = Some (g, prev_after prev g, t').
Proof.
  intros Hg. revert prev. induction Hg as [|x g Hx Hg IH]; intros prev; [done|].
  cbn [length eat_class app]. by rewrite Hx, IH.
Qed.

(** *** The starred class *)
Lemma star_loop_sound cls k prev text r :
  star_loop cls k prev text = Some r →
  ∃ ws rest, text = ws ++ rest ∧ Forall (λ c, cls c = true) ws
             ∧ k (prev_after prev ws) rest = Some r.
Proof.
  revert prev. induction text as [|c text IH]; intros prev; cbn [star_loop].
  - intros Hk. by exists [], [].
  - destruct (cls c) eqn:Hc.
    + destruct (star_loop cls k (Some c) text) as [r'|] eqn:Hs.
      * intros [= ->]. destruct (IH _ Hs) as (ws & rest & -> & Hws & Hk).
        exists (c :: ws), rest. repeat split; by try constructor.
      * intros Hk. by exists [], (c :: text).
    + intros Hk. by exists [], (c :: text).
Qed.

Lemma star_loop_complete cls k prev ws rest r :
  Forall (λ c, cls c = true) ws →
  k (prev_after prev ws) rest = Some r →
  is_Some (star_loop cls k prev (ws ++ rest)).
Proof.
  intros Hws. revert prev. induction Hws as [|c ws Hc Hws IH]; intros prev Hk.
  - cbn [app]. destruct rest as [|c rest]; cbn [star_loop]; [by eauto|].
    destruct (cls c); [|by eauto].
    destruct (star_loop cls k (Some c) rest); by eauto.
  - cbn [app star_loop]. rewrite Hc.
    destruct (IH (Some c) Hk) as [r' ->]. eauto.
Qed.

(** When the rest of the pattern cannot begin with a character of the
    class, the star takes the whole run. *)
Lemma star_loop_skip cls k prev ws rest r :
  (∀ p c t, cls c = true → k p (c :: t) = None) →
  Forall (λ c, cls c = true) ws →
  k (prev_after prev ws) rest = Some r →
  star_loop cls k prev (ws ++ rest) = Some r.
Proof.
  intros Hrej Hws. revert prev. induction Hws as [|c ws Hc Hws IH]; intros prev Hk.
  - cbn [app]. destruct rest as [|c rest]; cbn [star_loop]; [done|].
    destruct (cls c) eqn:Hc; [|done]. by rewrite Hrej in Hk.
  - cbn [app star_loop]. rewrite Hc. by rewrite (IH (Some c) Hk).
Qed.

(** *** The scan *)
Lemma search_from_Some pat prev text g :
  search_from pat prev text = Some g ↔
  ∃ pre post,
    text = pre ++ post
    ∧ match_here pat [] (prev_after prev pre) post = Some g
    ∧ ∀ pre' post', text = pre' ++ post' → (length pre' < length pre)%nat →
                    match_here pat [] (prev_after prev pre') post' = None.
Proof.
  revert prev. induction text as [|c text IH]; intros prev; cbn [search_from].
  - destruct (match_here pat [] prev []) as [g'|] eqn:Hm.
    + split.
      * intros [= ->]. exists [], []. repeat split; [done|]. intros ? ? _ Hl. cbn in Hl. lia.
      * intros (pre & post & Heq & Hg & _). symmetry in Heq.
        apply app_eq_nil in Heq as [-> ->]. cbn in Hg. congruence.
    + split; [done|]. intros (pre & post & Heq & Hg & _). symmetry in Heq.
      apply app_eq_nil in Heq as [-> ->]. cbn in Hg. congruence.
  - destruct (match_here pat [] prev (c :: text)) as [g'|] eqn:Hm.
    + split.
      * intros [= ->]. exists [], (c :: text). repeat split; [done|].
        intros ? ? _ Hl. cbn in Hl. lia.
      * intros (pre & post & Heq & Hg & Hmin). destruct pre as [|x pre].
        -- cbn in Heq, Hg. subst post. congruence.
        -- specialize (Hmin [] (c :: text) eq_refl). cbn in Hmin.
           rewrite Hmin in Hm by lia. done.
    + rewrite IH. split.
      * intros (pre & post & Heq0 & Hg & Hmin). subst text. exists (c :: pre), post.
        repeat split; [done|]. intros [|x pre'] post' Heq Hl.
        -- cbn in Heq. subst post'. done.
        -- injection Heq as <- Heq. cbn in Hl. apply Hmin; [done|lia].
      * intros (pre & post & Heq & Hg & Hmin). destruct pre as [|x pre].
        -- cbn in Heq, Hg. subst post. congruence.
        -- injection Heq as <- ->. exists pre, post. repeat split; [done|].
           intros pre' post' Heq Hl.
           apply (Hmin (c :: pre') post'); [by rewrite Heq|cbn; lia].
Qed.

Lemma search_from_None pat prev text :
  search_from pat prev text = None ↔
  ∀ pre post, text = pre ++ post →
              match_here pat [] (prev_after prev pre) post = None.
Proof.
  revert prev. induction text as [|c text IH]; intros prev; cbn [search_from].
  - destruct (match_here pat [] prev []) as [g'|] eqn:Hm.
    + split; [done|]. intros H. specialize (H [] [] eq_refl). cbn in H. congruence.
    + split; [|done]. intros _ pre post Heq. symmetry in Heq.
      by apply app_eq_nil in Heq as [-> ->].
  - destruct (match_here pat [] prev (c :: text)) as [g'|] eqn:Hm.
    + split; [done|]. intros H. specialize (H [] _ eq_refl). cbn in H. congruence.
    + rewrite IH. split.
      * intros H [|x pre] post Heq.
        -- cbn in Heq. by subst post.
        -- injection Heq as <- ->. by apply H.
      * intros H pre post Heq. apply (H (c :: pre) post). by rewrite Heq.
Qed.
End re_facts.

(** ** [COUNTRY_RE] *)
Section country_re_facts.
Import Re Stdout GeoProc.

Lemma isspace_not_upper c : Py.isspace c = true → is_upper c = false.
Proof. destruct c as [[] [] [] [] [] [] [] []]; done. Qed.

Lemma isspace_not_c c : Py.isspace c = true → Ascii.eqb c "c" = false.
Proof. destruct c as [[] [] [] [] [] [] [] []]; done. Qed.

Lemma isspace_not_eq c : Py.isspace c = true → Ascii.eqb c "=" = false.
Proof. destruct c as [[] [] [] [] [] [] [] []]; done. Qed.

Lemma match_eol cap prev text r :
  match_here [Eol] cap prev text = Some r ↔ r = cap ∧ line_end text.
Proof.
  unfold line_end. cbn [match_here]. destruct text as [|c text].
  - split; [intros [= ->]; by auto|]. by intros [-> _].
  - destruct (Ascii.eqb_spec c newline) as [->|Hne]; cbn [head].
    + split; [intros [= ->]; by auto|]. by intros [-> _].
    + split; [done|]. intros [_ [?|[= ?]]]; done.
Qed.

Lemma match_star cls pat cap prev text :
  match_here (Star cls :: pat) cap prev text
  = star_loop cls (match_here pat cap) prev text.
Proof. reflexivity. Qed.

Lemma match_end cap prev text r :
  match_here re_end cap prev text = Some r ↔
  r = cap ∧ ∃ ws4 rest, text = ws4 ++ rest ∧ spaces ws4 ∧ line_end rest.
Proof.
  unfold re_end. rewrite match_star. split.
  - intros (ws & rest & -> & Hws & Hk)%star_loop_sound.
    apply match_eol in Hk as [-> Hend].
    split; [done|]. by exists ws, rest.
  - intros (-> & ws & rest & -> & Hws & Hend).
    destruct (star_loop_complete Py.isspace (match_here [Eol] cap) prev ws rest cap Hws)
      as [r Hr]; [by apply match_eol|].
    rewrite Hr. f_equal.
    apply star_loop_sound in Hr as (? & ? & _ & _ & Hk).
    by apply match_eol in Hk as [-> _].
Qed.

Lemma match_code cap prev text r :
  match_here re_code cap prev text = Some r ↔
  ∃ ws4 rest, text = r ++ ws4 ++ rest ∧ code r ∧ spaces ws4 ∧ line_end rest.
Proof.
  unfold re_code. cbn [match_here]. fold re_end. split.
  - destruct (eat_class is_upper 2 prev text) as [[[g p'] t']|] eqn:He; [|done].
    apply eat_class_Some in He as (-> & Hlen & Hg & ->).
    intros Hk. apply match_end in Hk as (-> & ws4 & rest & -> & Hws & Hend).
    exists ws4, rest. by repeat split.
  - intros (ws4 & rest & -> & [Hlen Hg] & Hws & Hend).
    rewrite <- Hlen, eat_class_app by done. apply match_end.
    split; [done|]. by exists ws4, rest.
Qed.

(** A starred whitespace class before an item that no whitespace starts. *)
Lemma match_spaces_then pat cap prev text r :
  (∀ p c t, Py.isspace c = true → match_here pat cap p (c :: t) = None) →
  match_here (Star Py.isspace :: pat) cap prev text = Some r ↔
  ∃ ws rest, text = ws ++ rest ∧ spaces ws
             ∧ match_here pat cap (prev_after prev ws) rest = Some r.
Proof.
  intros Hrej. rewrite match_star. split.
  - apply star_loop_sound.
  - intros (ws & rest & -> & Hws & Hk). by apply star_loop_skip.
Qed.

Lemma re_code_rejects_space cap p c t :
  Py.isspace c = true → match_here re_code cap p (c :: t) = None.
Proof.
  intros Hc. unfold re_code. cbn [match_here eat_class].
  by rewrite (isspace_not_upper c Hc).
Qed.

Lemma re_eq_rejects_space cap p c t :
  Py.isspace c = true → match_here re_eq cap p (c :: t) = None.
Proof.
  intros Hc. unfold re_eq. cbn [match_here eat_lit].
  by rewrite (isspace_not_eq c Hc).
Qed.

Lemma re_word_rejects_space cap p c t :
  Py.isspace c = true → match_here re_word cap p (c :: t) = None.
Proof.
  intros Hc. unfold re_word. cbn [match_here eat_lit].
  by rewrite (isspace_not_c c Hc).
Qed.

Lemma match_lit s pat cap prev text r :
  match_here (Lit s :: pat) cap prev text = Some r ↔
  ∃ rest, text = chars s ++ rest
          ∧ match_here pat cap (prev_after prev (chars s)) rest = Some r.
Proof.
  cbn [match_here]. split.
  - destruct (eat_lit s prev text) as [[p' t']|] eqn:He; [|done].
    apply eat_lit_Some in He as [-> ->]. eauto.
  - intros (rest & -> & Hk). by rewrite eat_lit_app.
Qed.

(** The pattern after [^]: what the text must read, from any position. *)
Lemma match_body prev text g :
  match_here (Star Py.isspace :: re_word) [] prev text = Some g ↔
  ∃ m rest, text = m ++ rest ∧ reads m g ∧ line_end rest.
Proof.
  rewrite match_spaces_then by apply re_word_rejects_space.
  unfold re_word at 1. setoid_rewrite match_lit.
  setoid_rewrite (match_spaces_then re_eq); [|by apply re_eq_rejects_space..].
  unfold re_eq at 1. setoid_rewrite match_lit.
  setoid_rewrite (match_spaces_then re_code); [|by apply re_code_rejects_space..].
  setoid_rewrite match_code.
  unfold reads. split.
  - intros (ws1 & t1 & -> & H1 & t2 & -> & ws2 & t3 & -> & H2 & t4 & ->
            & ws3 & t5 & -> & H3 & ws4 & rest & -> & Hg & H4 & Hend).
    exists (ws1 ++ chars "country_code" ++ ws2 ++ chars "=" ++ ws3 ++ g ++ ws4), rest.
    split; [by rewrite <- !app_assoc|]. split; [|done].
    exists ws1, ws2, ws3, ws4. done.
  - intros (m & rest & -> & (ws1 & ws2 & ws3 & ws4 & H1 & H2 & H3 & H4 & Hg & ->) & Hend).
    exists ws1, (chars "country_code" ++ ws2 ++ chars "=" ++ ws3 ++ g ++ ws4 ++ rest).
    split; [by rewrite <- !app_assoc|]. split; [done|].
    eexists. split; [done|]. exists ws2. eexists. split; [done|]. split; [done|].
    eexists. split; [done|]. exists ws3. eexists. split; [done|]. split; [done|].
    exists ws4, rest. done.
Qed.

Lemma match_country_re prev text g :
  match_here COUNTRY_RE [] prev text = Some g ↔
  at_line_start prev ∧ ∃ m rest, text = m ++ rest ∧ reads m g ∧ line_end rest.
Proof.
  rewrite <- match_body. unfold COUNTRY_RE, at_line_start.
  change (match_here (Bol :: ?p) ?c ?pr ?t)
    with (match pr with
          | None => match_here p c pr t
          | Some x => if Ascii.eqb x newline then match_here p c pr t else None
          end).
  destruct prev as [x|].
  - destruct (Ascii.eqb_spec x newline) as [->|Hne].
    + split; [intros H; split; [by right|exact H]|]. by intros [_ ?].
    + split; [done|]. intros [[?|[= ?]] _]; done.
  - split; [intros H; split; [by left|exact H]|]. by intros [_ ?].
Qed.

Lemma match_country_re_at pre post g :
  match_here COUNTRY_RE [] (prev_after None pre) post = Some g ↔ match_at pre post g.
Proof. unfold match_at. by rewrite match_country_re, at_line_start_iff. Qed.

Lemma match_country_re_none pre post :
  match_here COUNTRY_RE [] (prev_after None pre) post = None ↔
  ∀ g, ¬ match_at pre post g.
Proof.
  split.
  - intros Hn g Hg%match_country_re_at. congruence.
  - intros Hn. destruct (match_here _ _ _ _) as [g|] eqn:Hm; [|done].
    by apply match_country_re_at, Hn in Hm.
Qed.

(** [search] returns the group of the leftmost match, and nothing when
    the text has no match. *)
Lemma search_from_leftmost text g :
  search_from COUNTRY_RE None text = Some g ↔ leftmost_match text g.
Proof.
  rewrite search_from_Some. unfold leftmost_match.
  split; intros (pre & post & -> & Hg & Hmin); exists pre, post;
    (split; [done|]); (split; [by apply match_country_re_at|]).
  - intros pre' post' g' Heq Hl. by apply match_country_re_none, Hmin.
  - intros pre' post' Heq Hl. apply match_country_re_none. intros g'. by apply Hmin.
Qed.

Lemma search_from_no_match text :
  search_from COUNTRY_RE None text = None ↔
  ∀ pre post g, text = pre ++ post → ¬ match_at pre post g.
Proof.
  rewrite search_from_None. split.
  - intros Hn pre post g Heq. by apply match_country_re_none, Hn.
  - intros Hn pre post Heq. apply match_country_re_none. intros g. by apply Hn.
Qed.
End country_re_facts.

(** ** The lines of the output *)
Section lines_facts.
Import Re Stdout GeoProc.

Lemma lines_not_nil text : lines text ≠ [].
Proof.
  destruct text as [|c text]; cbn [lines]; [done|].
  destruct (Ascii.eqb c newline); [done|]. by destruct (lines text).
Qed.

(** The first line and what follows it. *)
Lemma lines_first text l ls :
  lines text = l :: ls →
  (newline ∉ l)
  ∧ ((text = l ∧ ls = []) ∨ ∃ text', text = l ++ newline :: text' ∧ ls = lines text').
Proof.
  revert l ls. induction text as [|c text IH]; intros l ls; cbn [lines].
  - intros [= <- <-]. split; [apply not_elem_of_nil|by left].
  - destruct (Ascii.eqb_spec c newline) as [->|Hne].
    + intros [= <- <-]. split; [apply not_elem_of_nil|]. right. by exists text.
    + destruct (lines text) as [|l0 ls0] eqn:Hl; [by apply lines_not_nil in Hl|].
      intros [= <- <-]. destruct (IH l0 ls0 eq_refl) as [Hnl Hcase].
      split; [by intros [?|?]%elem_of_cons|].
      destruct Hcase as [[-> ->]|(text' & -> & ->)]; [by left|].
      right. by exists text'.
Qed.

Lemma line_start_app_newline l pre :
  line_start pre → line_start (l ++ newline :: pre).
Proof.
  unfold line_start. intros [->|Hlast]; right.
  - by rewrite last_snoc.
  - rewrite (last_app_cons l), last_cons, Hlast. done.
Qed.

(** A line of the text stands between two line breaks of the text. *)
Lemma lines_elem text line :
  line ∈ lines text →
  (newline ∉ line)
  ∧ ∃ pre post, text = pre ++ line ++ post ∧ line_start pre ∧ line_end post.
Proof.
  remember (lines text) as ls eqn:Hls. revert text Hls.
  induction ls as [|l ls IH]; intros text Hls; [by intros ?%elem_of_nil|].
  symmetry in Hls. destruct (lines_first _ _ _ Hls) as [Hnl Hcase].
  intros [->|Hin]%elem_of_cons.
  - split; [done|]. exists []. destruct Hcase as [[-> _]|(text' & -> & _)].
    + exists []. rewrite app_nil_r. split; [done|]. split; by left.
    + exists (newline :: text'). split; [done|]. split; [by left|by right].
  - destruct Hcase as [[_ ->]|(text' & -> & ->)]; [by apply elem_of_nil in Hin|].
    destruct (IH text' eq_refl Hin) as (Hnl' & pre & post & -> & Hs & He).
    split; [done|]. exists (l ++ newline :: pre), post.
    split; [by rewrite <- app_assoc|]. split; [by apply line_start_app_newline|done].
Qed.

(** On a line, matching the pattern is reading as [country_code = XX]. *)
Lemma line_code_reads line g :
  newline ∉ line → line_code line = Some g ↔ reads line g.
Proof.
  intros Hnl. unfold line_code. rewrite match_country_re. split.
  - intros (_ & m & rest & -> & Hr & [->|Hh]).
    + by rewrite app_nil_r.
    + destruct rest as [|c rest]; [done|]. injection Hh as ->.
      exfalso. apply Hnl. apply elem_of_app. right. left.
  - intros Hr. split; [by left|]. exists line, []. rewrite app_nil_r.
    split; [done|]. split; [done|by left].
Qed.

(** A line that reads as [country_code = XX] is a match of the text. *)
Lemma matching_line_match_at text line g :
  line ∈ lines text → reads line g →
  ∃ pre post, text = pre ++ post ∧ match_at pre post g.
Proof.
  intros (_ & pre & post & -> & Hs & He)%lines_elem Hr.
  exists pre, (line ++ post). split; [done|]. split; [done|]. by exists line, post.
Qed.
End lines_facts.

(** ** The first matching line *)
Section first_line_facts.
Import Re Stdout GeoProc.

Lemma first_split {A} (x : A) l t a u :
  x ∉ l → x ∉ a → l ++ x :: t = a ++ x :: u → l = a ∧ t = u.
Proof.
  revert a. induction l as [|c l IH]; intros [|y a] Hl Ha Heq; cbn in Heq.
  - by injection Heq as ->.
  - injection Heq as -> _. exfalso. apply Ha. left.
  - injection Heq as -> _. exfalso. apply Hl. left.
  - injection Heq as -> Heq. apply not_elem_of_cons in Hl as [_ Hl].
    apply not_elem_of_cons in Ha as [_ Ha].
    destruct (IH a Hl Ha Heq) as [-> ->]. done.
Qed.

Lemma peel_line {A} (x : A) l t a b :
  x ∉ l → x ∉ a → l ++ x :: t = a ++ b → ∃ l2, l = a ++ l2 ∧ b = l2 ++ x :: t.
Proof.
  revert l. induction a as [|y a IH]; intros l Hl Ha Heq; cbn in Heq.
  - by exists l.
  - destruct l as [|c l]; cbn in Heq.
    + injection Heq as -> _. exfalso. apply Ha. left.
    + injection Heq as -> Heq. apply not_elem_of_cons in Hl as [_ Hl].
      apply not_elem_of_cons in Ha as [_ Ha].
      destruct (IH l Hl Ha Heq) as (l2 & -> & ->). by exists l2.
Qed.

Lemma newline_not_in_word : newline ∉ chars "country_code".
Proof. intros H. by repeat (apply elem_of_cons in H as [H|H]; [done|]); apply elem_of_nil in H. Qed.

Lemma newline_not_in_eq : newline ∉ chars "=".
Proof. intros H. by repeat (apply elem_of_cons in H as [H|H]; [done|]); apply elem_of_nil in H. Qed.

Lemma newline_not_in_code g : code g → newline ∉ g.
Proof.
  intros [_ Hg] Hin. by eapply Forall_forall in Hg; [|exact Hin].
Qed.

Lemma match_here_not_line_start p text :
  ¬ at_line_start p → match_here COUNTRY_RE [] p text = None.
Proof.
  intros Hp. destruct (match_here _ _ _ _) as [g|] eqn:Hm; [|done].
  by apply match_country_re in Hm as [? _].
Qed.

Lemma match_here_line_start p q text :
  at_line_start p → at_line_start q →
  match_here COUNTRY_RE [] p text = match_here COUNTRY_RE [] q text.
Proof.
  intros Hp Hq.
  destruct (match_here COUNTRY_RE [] q text) as [g|] eqn:Hm.
  - apply match_country_re. apply match_country_re in Hm as [_ Hm]. done.
  - destruct (match_here COUNTRY_RE [] p text) as [g|] eqn:Hm'; [|done].
    apply match_country_re in Hm' as [_ Hm'].
    assert (match_here COUNTRY_RE [] q text = Some g) as Hq'
      by (by apply match_country_re).
    congruence.
Qed.

Lemma not_line_start_char c : c ≠ newline → ¬ at_line_start (Some c).
Proof. intros Hc [?|[= ?]]; done. Qed.

Lemma search_from_cons pat p c text :
  search_from pat p (c :: text)
  = match match_here pat [] p (c :: text) with
    | Some g => Some g
    | None => search_from pat (Some c) text
    end.
Proof. reflexivity. Qed.

Lemma search_from_nil pat p :
  search_from pat p [] = match_here pat [] p [].
Proof. cbn [search_from]. by destruct (match_here pat [] p []). Qed.

(** Inside a line the scan finds nothing: it goes on to the next line. *)
Lemma search_mid_line p l text' :
  ¬ at_line_start p → newline ∉ l →
  search_from COUNTRY_RE p (l ++ newline :: text')
  = search_from COUNTRY_RE (Some newline) text'.
Proof.
  revert p. induction l as [|c l IH]; intros p Hp Hl.
  - cbn [app]. rewrite search_from_cons.
    by rewrite match_here_not_line_start.
  - apply not_elem_of_cons in Hl as [Hc Hl].
    cbn [app]. rewrite search_from_cons.
    rewrite match_here_not_line_start by done.
    apply IH; [|done]. apply not_line_start_char. congruence.
Qed.

Lemma search_mid_last_line p l :
  ¬ at_line_start p → newline ∉ l → search_from COUNTRY_RE p l = None.
Proof.
  revert p. induction l as [|c l IH]; intros p Hp Hl.
  - rewrite search_from_nil. by rewrite match_here_not_line_start.
  - apply not_elem_of_cons in Hl as [Hc Hl].
    rewrite search_from_cons.
    rewrite match_here_not_line_start by done.
    apply IH; [|done]. apply not_line_start_char. congruence.
Qed.

(** At the start of a line the scan tries the position, then the next line. *)
Lemma search_line_start p l text' :
  newline ∉ l →
  search_from COUNTRY_RE p (l ++ newline :: text')
  = match match_here COUNTRY_RE [] p (l ++ newline :: text') with
    | Some g => Some g
    | None => search_from COUNTRY_RE (Some newline) text'
    end.
Proof.
  intros Hl. destruct l as [|c l].
  - cbn [app]. by rewrite search_from_cons.
  - apply not_elem_of_cons in Hl as [Hc Hl].
    cbn [app]. rewrite search_from_cons.
    destruct (match_here _ _ _ _); [done|].
    apply search_mid_line; [|done]. apply not_line_start_char. congruence.
Qed.

Lemma search_last_line p l :
  newline ∉ l →
  search_from COUNTRY_RE p l = match_here COUNTRY_RE [] p l.
Proof.
  intros Hl. destruct l as [|c l].
  - by rewrite search_from_nil.
  - apply not_elem_of_cons in Hl as [Hc Hl].
    rewrite search_from_cons.
    destruct (match_here _ _ _ _); [done|].
    apply search_mid_last_line; [|done]. apply not_line_start_char. congruence.
Qed.

Lemma line_code_match p l text' g :
  at_line_start p → line_code l = Some g →
  match_here COUNTRY_RE [] p (l ++ newline :: text') = Some g.
Proof.
  intros Hp Hl. apply match_country_re. split; [done|].
  apply match_country_re in Hl as (_ & m & rest & -> & Hr & He).
  exists m, (rest ++ newline :: text'). split; [by rewrite <- app_assoc|].
  split; [done|]. right. by destruct He as [->|He]; [|destruct rest].
Qed.

(** A match that begins a line and keeps its word and code together is the
    match of that line, or goes through a blank line to a match that begins
    the next one. *)
Lemma line_start_match l text' g :
  newline ∉ l → reads_on_one_line (l ++ newline :: text') g →
  line_code l = Some g
  ∨ (spaces l ∧ match_here COUNTRY_RE [] (Some newline) text' = Some g).
Proof.
  intros Hl (ws1 & ws2 & ws3 & ws4 & rest & Heq & H1 & H2 & H3 & H4 & Hg & He & Hn2 & Hn3).
  destruct (decide (newline ∈ ws1)) as [Hin|Hn1].
  - right. apply list_elem_of_split_l in Hin as (a & b & -> & Ha).
    rewrite <- app_assoc in Heq. cbn [app] in Heq.
    apply first_split in Heq as [-> ->]; [|done..].
    apply Forall_app in H1 as [Ha' Hb]. apply Forall_cons in Hb as [_ Hb].
    split; [done|]. apply match_country_re. split; [by right|].
    exists (b ++ chars "country_code" ++ ws2 ++ chars "=" ++ ws3 ++ g ++ ws4), rest.
    split; [by rewrite <- !app_assoc|]. split; [|done].
    exists b, ws2, ws3, ws4. done.
  - left. apply line_code_reads; [done|].
    set (A := ws1 ++ chars "country_code" ++ ws2 ++ chars "=" ++ ws3 ++ g).
    assert (newline ∉ A) as HA.
    { unfold A. rewrite !elem_of_app.
      pose proof newline_not_in_word. pose proof newline_not_in_eq.
      pose proof (newline_not_in_code g Hg). tauto. }
    assert (l ++ newline :: text' = A ++ (ws4 ++ rest)) as Heq'
      by (rewrite Heq; unfold A; by rewrite <- !app_assoc).
    apply peel_line in Heq' as (l2 & -> & Hrest); [|done..].
    exists ws1, ws2, ws3, l2. unfold A. rewrite <- !app_assoc.
    split; [done|]. split; [done|]. split; [done|]. split; [|done].
    apply not_elem_of_app in Hl as [_ Hl2].
    apply app_eq_inv in Hrest as [(k & -> & Hk)|(k & -> & Hk)].
    + by apply Forall_app in H4 as [? _].
    + destruct k as [|c k]; [by rewrite app_nil_r|].
      destruct He as [->|He]; [done|]. cbn in Hk. rewrite Hk in He.
      injection He as ->. exfalso. apply Hl2, elem_of_app. right. left.
Qed.

(** When no match is broken between its word and its code, the scan from
    the start of a line returns the code of the first line that matches. *)
Lemma search_first_line ls :
  ∀ text p,
    lines text = ls → at_line_start p →
    (∀ pre post g, text = pre ++ post →
       match_here COUNTRY_RE [] (prev_after p pre) post = Some g →
       reads_on_one_line post g) →
    search_from COUNTRY_RE p text = head (omap line_code ls).
Proof.
  induction ls as [|l ls IH]; intros text p Hls Hp Htok;
    [by apply lines_not_nil in Hls|].
  destruct (lines_first _ _ _ Hls) as [Hnl [[-> ->]|(text' & -> & ->)]].
  - rewrite search_last_line by done. cbn [omap list_omap].
    rewrite (match_here_line_start p None) by (done || by left).
    fold (line_code l). by destruct (line_code l).
  - rewrite search_line_start by done.
    assert (search_from COUNTRY_RE (Some newline) text'
            = head (omap line_code (lines text'))) as Hnext.
    { apply IH; [done|by right|]. intros pre post g Heq Hm.
      apply (Htok (l ++ newline :: pre) post g).
      - rewrite Heq, <- app_assoc. done.
      - rewrite prev_after_app. exact Hm. }
    cbn [omap list_omap]. destruct (line_code l) as [g|] eqn:Hcode.
    + by rewrite (line_code_match p l text' g).
    + cbn [mbind]. rewrite <- Hnext.
      destruct (match_here COUNTRY_RE [] p (l ++ newline :: text')) as [g|] eqn:Hm; [|done].
      pose proof (Htok [] _ g eq_refl Hm) as Hone.
      apply line_start_match in Hone as [Hc|[_ Hm']]; [congruence| |done].
      destruct text' as [|c text']; [rewrite search_from_nil|rewrite search_from_cons];
        by rewrite Hm'.
Qed.

Lemma search_from_first_line text :
  tokens_on_one_line text →
  search_from COUNTRY_RE None text = head (omap line_code (lines text)).
Proof.
  intros Htok. apply search_first_line; [done|by left|].
  intros pre post g Heq Hm. apply (Htok pre post g Heq).
  by apply match_country_re_at.
Qed.

(** The lines of a text that begins with whole lines. *)
Lemma lines_prefix u :
  line_start u →
  ∃ ls, (∀ t, lines (u ++ t) = ls ++ lines t) ∧ (u ≠ [] → ls ≠ []).
Proof.
  induction u as [|c u IH]; intros Hu.
  - by exists [].
  - assert (line_start u) as Hu'.
    { destruct Hu as [?|Hlast]; [done|]. destruct u as [|c' u]; [by left|].
      right. by rewrite last_cons_cons in Hlast. }
    destruct (IH Hu') as (ls & Hls & Hne).
    destruct (Ascii.eqb_spec c newline) as [->|Hc].
    + exists ([] :: ls). split; [|done]. intros t. cbn [app lines].
      rewrite Ascii.eqb_refl, Hls. done.
    + assert (u ≠ []) as Hu0.
      { intros ->. destruct Hu as [?|[= ?]]; done. }
      destruct ls as [|l0 ls]; [by apply Hne in Hu0|].
      exists ((c :: l0) :: ls). split; [|done]. intros t. cbn [app lines].
      destruct (Ascii.eqb_spec c newline) as [?|_]; [done|]. by rewrite Hls.
Qed.

Lemma lines_head l v :
  newline ∉ l → line_end v → ∃ ls, lines (l ++ v) = l :: ls.
Proof.
  intros Hl Hv. induction l as [|c l IH]; cbn [app].
  - destruct Hv as [->|Hv]; [by exists []|].
    destruct v as [|c v]; [done|]. injection Hv as ->.
    exists (lines v). cbn [lines]. by rewrite Ascii.eqb_refl.
  - apply not_elem_of_cons in Hl as [Hc Hl]. destruct (IH Hl) as [ls Hls].
    exists ls. cbn [lines]. rewrite Hls.
    destruct (Ascii.eqb_spec c newline) as [?|_]; [congruence|done].
Qed.

(** What stands between two line breaks of the text is a line of it. *)
Lemma lines_intro u l v :
  line_start u → newline ∉ l → line_end v → l ∈ lines (u ++ l ++ v).
Proof.
  intros Hu Hl Hv. destruct (lines_prefix u Hu) as (ls & Hls & _).
  destruct (lines_head l v Hl Hv) as (ls' & Hls').
  rewrite Hls, Hls'. apply elem_of_app. right. left.
Qed.

(** A run of characters, cut after its last newline. *)
Lemma split_last_newline (l : list ascii) :
  ∃ w w', l = w ++ w' ∧ (newline ∉ w') ∧ (w = [] ∨ last w = Some newline).
Proof.
  induction l as [|c l (w & w' & -> & Hw' & Hw)].
  - exists [], []. split; [done|]. split; [apply not_elem_of_nil|by left].
  - destruct w as [|c' w].
    + destruct (decide (c = newline)) as [->|Hc].
      * exists [newline], w'. split; [done|]. split; [done|by right].
      * exists [], (c :: w'). split; [done|]. split; [|by left].
        by intros [?|?]%elem_of_cons.
    + exists (c :: c' :: w), w'. split; [done|]. split; [done|]. right.
      destruct Hw as [?|Hw]; [done|]. by rewrite last_cons_cons.
Qed.

Lemma line_start_app pre w :
  line_start pre → w = [] ∨ last w = Some newline → line_start (pre ++ w).
Proof.
  intros Hpre [->|Hw]; [by rewrite app_nil_r|].
  right. destruct w as [|c w] using rev_ind; [done|].
  rewrite last_snoc in Hw. by rewrite app_assoc, last_snoc.
Qed.

(** When no line breaks off after the word or after the equals sign, no
    match is broken between its word and its code. *)
Lemma no_broken_line_tokens text :
  no_broken_line text → tokens_on_one_line text.
Proof.
  intros Hno pre post g -> (Hpre & m & rest & -> & Hr & He).
  destruct Hr as (ws1 & ws2 & ws3 & ws4 & H1 & H2 & H3 & H4 & Hg & ->).
  exists ws1, ws2, ws3, ws4, rest. rewrite <- !app_assoc.
  do 7 (split; [done|]).
  destruct (split_last_newline ws1) as (w & w' & -> & Hw' & Hw).
  apply Forall_app in H1 as [H1 H1'].
  assert (line_start (pre ++ w)) as Hstart by by apply line_start_app.
  split.
  - intros Hin. apply list_elem_of_split_l in Hin as (a & b & -> & Ha).
    apply Forall_app in H2 as [H2a _].
    set (line := w' ++ chars "country_code" ++ a).
    assert (line ∈ lines (pre ++ ((w ++ w') ++ chars "country_code" ++ (a ++ newline :: b)
                                   ++ chars "=" ++ ws3 ++ g ++ ws4) ++ rest)) as Hline.
    { replace (pre ++ ((w ++ w') ++ chars "country_code" ++ (a ++ newline :: b)
                       ++ chars "=" ++ ws3 ++ g ++ ws4) ++ rest)
        with ((pre ++ w) ++ line
              ++ (newline :: b ++ chars "=" ++ ws3 ++ g ++ ws4 ++ rest))
        by (unfold line; rewrite <- !app_assoc; done).
      apply lines_intro; [done| |by right].
      unfold line. rewrite !elem_of_app. pose proof newline_not_in_word. tauto. }
    apply Hno in Hline as [Hword _]. apply Hword. by exists w', a.
  - intros Hin. apply list_elem_of_split_l in Hin as (a & b & -> & Ha).
    apply Forall_app in H3 as [H3a _].
    destruct (decide (newline ∈ ws2)) as [Hin2|Hn2].
    { (* the word already stands alone on its line *)
      apply list_elem_of_split_l in Hin2 as (a2 & b2 & -> & Ha2).
      apply Forall_app in H2 as [H2a _].
      set (line := w' ++ chars "country_code" ++ a2).
      assert (line ∈ lines (pre ++ ((w ++ w') ++ chars "country_code" ++ (a2 ++ newline :: b2)
                                     ++ chars "=" ++ (a ++ newline :: b) ++ g ++ ws4) ++ rest))
        as Hline.
      { replace (pre ++ ((w ++ w') ++ chars "country_code" ++ (a2 ++ newline :: b2)
                         ++ chars "=" ++ (a ++ newline :: b) ++ g ++ ws4) ++ rest)
          with ((pre ++ w) ++ line
                ++ (newline :: b2 ++ chars "=" ++ (a ++ newline :: b) ++ g ++ ws4 ++ rest))
          by (unfold line; rewrite <- !app_assoc; done).
        apply lines_intro; [done| |by right].
        unfold line. rewrite !elem_of_app. pose proof newline_not_in_word. tauto. }
      apply Hno in Hline as [Hword _]. apply Hword. by exists w', a2. }
    set (line := w' ++ chars "country_code" ++ ws2 ++ chars "=" ++ a).
    assert (line ∈ lines (pre ++ ((w ++ w') ++ chars "country_code" ++ ws2
                                   ++ chars "=" ++ (a ++ newline :: b) ++ g ++ ws4) ++ rest))
      as Hline.
    { replace (pre ++ ((w ++ w') ++ chars "country_code" ++ ws2
                       ++ chars "=" ++ (a ++ newline :: b) ++ g ++ ws4) ++ rest)
        with ((pre ++ w) ++ line ++ (newline :: b ++ g ++ ws4 ++ rest))
        by (unfold line; rewrite <- !app_assoc; done).
      apply lines_intro; [done| |by right].
      unfold line. rewrite !elem_of_app.
      pose proof newline_not_in_word. pose proof newline_not_in_eq. tauto. }
    apply Hno in Hline as [_ Heq]. apply Heq. by exists w', ws2, a.
Qed.
End first_line_facts.

(** ** The pipelines end to end *)
Section pipeline_claims.
Import PyVal ipaddress Scenario.

Lemma process_main_rows f run :
  GeoProc.main f run
  = Ret (imap (λ idx ip, GeoProc.run_geoip_lookup ip (run idx)) (GeoProc.read_ips f)).
Proof.
  unfold GeoProc.main. case_bool_decide as Hnil.
  - by rewrite Hnil.
  - apply assemble_rows.
Qed.

Lemma insert_by_Permutation {A} (key : A → Z) x l :
  GeoApi.insert_by key x l ≡ₚ x :: l.
Proof.
  induction l as [|y l IH]; [done|]. cbn [GeoApi.insert_by].
  destruct (key x <=? key y); [done|]. rewrite IH. apply perm_swap.
Qed.

Lemma sort_by_Permutation {A} (key : A → Z) l : GeoApi.sort_by key l ≡ₚ l.
Proof.
  induction l as [|x l IH]; [done|]. cbn [GeoApi.sort_by foldr].
  rewrite insert_by_Permutation. by constructor.
Qed.

(** Every row of the API backend is for an address of the batch. *)
Lemma api_assemble_rows_elem ips reply sched out row :
  GeoApi.assemble ips (omap (λ i, GeoApi.futures ips reply !! i) sched) = Ret out →
  row ∈ GeoApi.rows out → row.1 ∈ ips.
Proof.
  unfold GeoApi.assemble. intros Hout Hrow.
  destruct (GeoApi.collect _) as [[results errs]|] eqn:Hc; [|done].
  cbn [mbind py_bind bind] in Hout. injection Hout as <-. cbn [GeoApi.rows] in Hrow.
  rewrite sort_by_Permutation in Hrow.
  destruct (collect_inv _ _ Hc) as [done Hdone].
  rewrite Hdone, collect_Ret in Hc. injection Hc as <- _.
  apply list_elem_of_fmap in Hrow as (t & -> & Ht).
  assert (Ret t ∈ omap (λ i, GeoApi.futures ips reply !! i) sched) as Hin.
  { rewrite Hdone. apply list_elem_of_fmap. eauto. }
  apply list_elem_of_omap in Hin as (i & _ & Hi).
  unfold GeoApi.futures in Hi. rewrite list_lookup_fmap in Hi.
  destruct (ips !! i) as [ip|] eqn:Hip; [|done]. cbn in Hi. injection Hi as Hi.
  apply fetch_country_code2_fst in Hi. cbn [Outcome.api_row fst]. rewrite Hi.
  apply list_elem_of_lookup. eauto.
Qed.

Lemma api_main_rows_elem f reply sched out row :
  GeoApi.main f reply sched = Ret out →
  row ∈ GeoApi.rows out → row.1 ∈ GeoApi.parse_ip_file f.
Proof.
  unfold GeoApi.main. case_bool_decide as Hnil.
  - intros [= <-]. by intros ?%elem_of_nil.
  - apply api_assemble_rows_elem.
Qed.

Lemma subnet_main_elem source r :
  r ∈ (Subnet.main source).1 ∨ r ∈ (Subnet.main source).2 →
  r ∈ (Subnet.iter_ips source).*1.
Proof.
  unfold Subnet.main. rewrite build_representatives_first_seen. cbn [fst snd].
  intros [Hr|Hr]; (eapply elem_of_submseteq; [exact Hr|]);
    apply sublist_submseteq, fmap_sublist, first_seen_sublist.
Qed.

Lemma iter_ips_text_parses source s :
  s ∈ (Subnet.iter_ips source).*1 →
  s ∈ Raw.stripped source ∧ is_Some (ip_address s).
Proof.
  intros ([s' ip] & -> & Hin)%list_elem_of_fmap.
  apply iter_ips_elem in Hin as [Hip Hs]. eauto.
Qed.

(** C1. In both backends the rows come out in batch order, the i-th row
    being the one of the i-th address: in the process backend for every
    batch and every outcome of the lookups, in the API backend for every
    batch without repetition (as [parse_ip_file] builds it), every
    assignment [outs] of outcomes to its addresses and every order [done]
    in which they complete. *)
Theorem C1_rows_in_batch_order :
  (∀ (ips : list string) (run : nat → GeoProc.run_result),
     ∃ rows, GeoProc.assemble ips run = Ret rows
             ∧ rows.*1 = ips
             ∧ ∀ i ip, ips !! i = Some ip →
                       rows !! i = Some (GeoProc.run_geoip_lookup ip (run i)))
  ∧ (∀ (ips : list string) (outs : list (option string))
       (done : list (string * option string)),
       NoDup ips → length outs = length ips → done ≡ₚ zip ips outs →
       ∃ out, GeoApi.assemble ips (Ret <$> done) = Ret out
              ∧ (GeoApi.rows out).*1 = ips
              ∧ ∀ i ip o, ips !! i = Some ip → outs !! i = Some o →
                          GeoApi.rows out !! i = Some (ip, GeoApi.or_empty o))
  ∧ (∀ f : list string, NoDup (GeoApi.parse_ip_file f)).
Proof.
  split; [|split].
  - intros ips run. eexists. split; [apply assemble_rows|].
    split; [apply assemble_rows_fst|].
    intros i ip Hi. by rewrite list_lookup_imap, Hi.
  - intros ips outs done Hnd Hlen Hp. eexists.
    split; [by apply assemble_sorted|]. cbn [GeoApi.rows]. split.
    + apply fst_zip. rewrite length_fmap. lia.
    + intros i ip o Hip Ho. apply lookup_zip_with_Some.
      exists ip, (GeoApi.or_empty o). split; [done|]. split; [done|].
      by rewrite list_lookup_fmap, Ho.
  - apply parse_ip_file_NoDup.
Qed.

Lemma C1_rows_in_batch_order_witness :
  ∃ out,
    GeoApi.assemble ["8.8.8.8"; "1.1.1.1"; "9.9.9.9"]
      (Ret <$> [("9.9.9.9", Some "CH"); ("8.8.8.8", Some "US"); ("1.1.1.1", None)])
    = Ret out
    ∧ (GeoApi.rows out).*1 = ["8.8.8.8"; "1.1.1.1"; "9.9.9.9"]
    ∧ ∀ i ip o,
        ["8.8.8.8"; "1.1.1.1"; "9.9.9.9"] !! i = Some ip →
        [Some "US"; None; Some "CH"] !! i = Some o →
        GeoApi.rows out !! i = Some (ip, GeoApi.or_empty o).
Proof.
  refine (proj1 (proj2 C1_rows_in_batch_order)
            ["8.8.8.8"; "1.1.1.1"; "9.9.9.9"] [Some "US"; None; Some "CH"]
            [("9.9.9.9", Some "CH"); ("8.8.8.8", Some "US"); ("1.1.1.1", None)] _ _ _).
  - refine (bool_decide_unpack _ _). vm_compute. exact I.
  - reflexivity.
  - cbn [zip zip_with]. apply (Permutation_cons_app [_; _] []). reflexivity.
Defined.

(** C2: the resolver of the API backend raises [AttributeError] when the
    service answers 200 with a body that is JSON but not an object, and
    then [main] ends with that exception and writes nothing; it returns
    an unresolved outcome in every other failure, and raises in no other
    case. *)
Theorem C2_fetch_raises_on_non_object_body :
  GeoApi.fetch_country_code2 "8.8.8.8"
    (GeoApi.Replied {| GeoApi.status_code := 200; GeoApi.json := Some (PList []) |})
  = Raise AttributeError
  ∧ GeoApi.fetch_country_code2 "8.8.8.8"
      (GeoApi.Replied {| GeoApi.status_code := 200; GeoApi.json := Some (PStr "error") |})
    = Raise AttributeError
  ∧ GeoApi.main ["8.8.8.8"]
      (λ _, GeoApi.Replied {| GeoApi.status_code := 200; GeoApi.json := Some (PList []) |})
      [0%nat]
    = Raise AttributeError
  ∧ (∀ ip reply e,
       GeoApi.fetch_country_code2 ip reply = Raise e ↔
       e = AttributeError
       ∧ ∃ v, reply = GeoApi.Replied {| GeoApi.status_code := 200; GeoApi.json := Some v |}
              ∧ Body.is_dict v = false)
  ∧ (∀ ip, GeoApi.fetch_country_code2 ip GeoApi.Failed = Ret (ip, None))
  ∧ (∀ ip status body,
       status ≠ 200 →
       GeoApi.fetch_country_code2 ip
         (GeoApi.Replied {| GeoApi.status_code := status; GeoApi.json := body |})
       = Ret (ip, None))
  ∧ (∀ ip status,
       GeoApi.fetch_country_code2 ip
         (GeoApi.Replied {| GeoApi.status_code := status; GeoApi.json := None |})
       = Ret (ip, None)).
Proof.
  split; [reflexivity|]. split; [reflexivity|]. split; [vm_compute; reflexivity|].
  split; [|split; [|split]].
  - intros ip reply e. rewrite fetch_country_code2_cases. split.
    + destruct reply as [[status body]|]; cbn [GeoApi.status_code GeoApi.json]; [|done].
      case_bool_decide as Hst; [done|].
      assert (status = 200) as -> by (destruct (decide (status = 200)); [done|tauto]).
      destruct body as [[]|]; try done; intros [= <-]; (split; [done|]); eauto.
    + intros (-> & v & -> & Hv). cbn [GeoApi.status_code GeoApi.json].
      rewrite bool_decide_eq_false_2 by tauto. by destruct v.
  - intros ip. by rewrite fetch_country_code2_cases.
  - intros ip status body Hst. rewrite fetch_country_code2_cases.
    cbn [GeoApi.status_code]. by rewrite bool_decide_eq_true_2.
  - intros ip status. rewrite fetch_country_code2_cases.
    cbn [GeoApi.status_code GeoApi.json]. by case_bool_decide.
Qed.

(** C3 fails as stated: on the input of the scenario the process backend
    writes four data rows, one of them for the comment line. *)
Lemma C3_process_backend_keeps_comment_line :
  GeoProc.main (Py.file_lines scenario)
    (scenario_run (GeoProc.read_ips (Py.file_lines scenario)))
  = Ret [("8.8.8.8", "US"); ("# comment", "UNKNOWN");
         ("1.1.1.1", "UNKNOWN"); ("8.8.8.8", "US")].
Proof. vm_compute. reflexivity. Qed.

(** C3, amended.  Lines that are empty once stripped give no row in any
    of the three scripts.  Lines that begin with [#] give no row in the
    API backend and in the subnet bucketer; the process backend keeps
    them in its batch, does not look them up and writes a row labelled
    UNKNOWN for each.  On the input of the scenario the API backend and
    each file of the subnet bucketer have exactly two data rows. *)
Theorem C3_blank_and_comment_lines :
  (∀ (f : list string) (run : nat → GeoProc.run_result),
     ∃ rows, GeoProc.main f run = Ret rows
             ∧ rows.*1 = Raw.non_blank f
             ∧ ∀ row, row ∈ rows → Raw.is_comment row.1 → row.2 = "UNKNOWN")
  ∧ (∀ (f : list string) reply sched out row,
       GeoApi.main f reply sched = Ret out → row ∈ GeoApi.rows out →
       row.1 ∈ Raw.stripped f ∧ ¬ Raw.is_blank row.1 ∧ ¬ Raw.is_comment row.1)
  ∧ (∀ (source : list string) r,
       r ∈ (Subnet.main source).1 ∨ r ∈ (Subnet.main source).2 →
       r ∈ Raw.stripped source ∧ ¬ Raw.is_blank r ∧ ¬ Raw.is_comment r)
  ∧ (∀ sched, sched = [0; 1]%nat ∨ sched = [1; 0]%nat →
       GeoApi.main (Py.file_lines scenario) scenario_reply sched
       = Ret {| GeoApi.rows := [("8.8.8.8", "US"); ("1.1.1.1", "")];
                GeoApi.errors := 1 |})
  ∧ Subnet.main (Py.file_lines scenario)
    = (["8.8.8.8"; "1.1.1.1"], ["8.8.8.8"; "1.1.1.1"]).
Proof.
  split; [|split; [|split; [|split]]].
  - intros f run. eexists. split; [apply process_main_rows|].
    split; [by rewrite assemble_rows_fst, read_ips_non_blank|].
    intros row (i & ip & -> & Hip)%elem_of_lookup_imap.
    rewrite run_geoip_lookup_fst. intros Hc.
    by rewrite run_geoip_lookup_comment.
  - intros f reply sched out row Hout Hrow.
    pose proof (api_main_rows_elem _ _ _ _ _ Hout Hrow) as Hin.
    by apply parse_ip_file_elem, candidates_elem in Hin.
  - intros source r Hr. apply subnet_main_elem, iter_ips_text_parses in Hr as [Hs [ip Hip]].
    split; [done|]. by eapply ip_address_not_blank_comment.
  - intros sched [-> | ->]; vm_compute; reflexivity.
  - vm_compute. reflexivity.
Qed.

Lemma C3_blank_and_comment_lines_witness :
  "1.1.1.1" ∈ Raw.stripped (Py.file_lines scenario)
  ∧ ¬ Raw.is_blank "1.1.1.1" ∧ ¬ Raw.is_comment "1.1.1.1".
Proof.
  refine (proj1 (proj2 C3_blank_and_comment_lines)
            (Py.file_lines scenario) scenario_reply [1; 0]%nat
            {| GeoApi.rows := [("8.8.8.8", "US"); ("1.1.1.1", "")];
               GeoApi.errors := 1 |}
            ("1.1.1.1", "") _ _).
  - vm_compute. reflexivity.
  - right. left.
Defined.

(** C4 fails as stated: the process backend keeps every copy of a
    repeated address, and writes a row for each. *)
Lemma C4_process_backend_keeps_duplicates :
  GeoProc.read_ips ["1.1.1.1"; "2.2.2.2"; "1.1.1.1"; "1.1.1.1"]
  = ["1.1.1.1"; "2.2.2.2"; "1.1.1.1"; "1.1.1.1"]
  ∧ GeoProc.main ["1.1.1.1"; "2.2.2.2"; "1.1.1.1"; "1.1.1.1"]
      (λ _, GeoProc.TimeoutExpired)
    = Ret [("1.1.1.1", "UNKNOWN"); ("2.2.2.2", "UNKNOWN");
           ("1.1.1.1", "UNKNOWN"); ("1.1.1.1", "UNKNOWN")].
Proof. vm_compute. split; reflexivity. Qed.

(** C4, amended.  The API backend keeps, of the stripped lines that are
    neither blank nor comments, each distinct text once, at the position
    of its first appearance; the subnet bucketer keeps, of the lines that
    read as IP literals, each distinct address once, at the position of
    its first appearance and with the text found there.  The process
    backend does not de-duplicate: its batch is every stripped non-blank
    line, in order. *)
Theorem C4_first_seen_deduplication :
  (∀ f : list string,
     first_occurrences id (Raw.candidates f) (GeoApi.parse_ip_file f)
     ∧ NoDup (GeoApi.parse_ip_file f)
     ∧ sublist (GeoApi.parse_ip_file f) (Raw.candidates f))
  ∧ (∀ source : list string,
       first_occurrences snd (Raw.parsed source) (Subnet.iter_ips source)
       ∧ NoDup (Subnet.iter_ips source).*2
       ∧ sublist (Subnet.iter_ips source) (Raw.parsed source))
  ∧ (∀ f : list string, GeoProc.read_ips f = Raw.non_blank f).
Proof.
  split; [|split].
  - intros f. split; [|split; [apply parse_ip_file_NoDup|]];
      rewrite parse_ip_file_first_seen;
      [apply first_seen_first_occurrences|apply first_seen_sublist].
  - intros source. rewrite iter_ips_first_seen.
    split; [apply first_seen_first_occurrences|].
    split; [apply first_seen_NoDup|apply first_seen_sublist].
  - apply read_ips_non_blank.
Qed.




(** C9. In the API backend a 200 response whose country field is an
    empty or all-blank string gives the outcome [Some ""], whose row has
    the same empty label as the row of an unresolved outcome; the error
    count of a run is the number of outcomes that are [None], so that
    outcome is not counted. *)
Theorem C9_blank_country_code_not_counted :
  (∀ ip items ws,
     Body.country_field items = PStr ws →
     Py.forallb_string Py.isspace ws = true →
     GeoApi.fetch_country_code2 ip
       (GeoApi.Replied {| GeoApi.status_code := 200; GeoApi.json := Some (PDict items) |})
     = Ret (ip, Some ""))
  ∧ (∀ ip, Outcome.api_row (ip, Some "") = Outcome.api_row (ip, None)
           ∧ Outcome.api_row (ip, None) = (ip, ""))
  ∧ (∀ done, GeoApi.collect (Ret <$> done)
             = Ret (Outcome.api_row <$> done, Outcome.unresolved done))
  ∧ (∀ ips done, ∃ rows,
       GeoApi.assemble ips (Ret <$> done)
       = Ret {| GeoApi.rows := rows; GeoApi.errors := Outcome.unresolved done |})
  ∧ (∀ ip, Outcome.unresolved [(ip, Some "")] = 0
           ∧ Outcome.unresolved [(ip, None)] = 1).
Proof.
  split; [|split; [|split; [|split]]].
  - intros ip items ws Hf Hws. rewrite fetch_country_code2_cases.
    cbn [GeoApi.status_code GeoApi.json].
    rewrite bool_decide_eq_false_2 by tauto. by rewrite Hf, strip_spaces.
  - done.
  - apply collect_Ret.
  - intros ips done. unfold GeoApi.assemble. rewrite collect_Ret.
    cbn [mbind py_bind bind]. eauto.
  - done.
Qed.

Lemma C9_blank_country_code_not_counted_witness :
  GeoApi.fetch_country_code2 "8.8.8.8"
    (GeoApi.Replied
       {| GeoApi.status_code := 200;
          GeoApi.json := Some (PDict [("location", PDict [("country_code2", PStr "  ")])]) |})
  = Ret ("8.8.8.8", Some "").
Proof.
  refine (proj1 C9_blank_country_code_not_counted "8.8.8.8"
            [("location", PDict [("country_code2", PStr "  ")])] "  " _ _);
    reflexivity.
Defined.
End pipeline_claims.

(** ** The process resolver *)
Section process_resolver.
Import PyVal Re Stdout GeoProc.

Lemma run_geoip_lookup_guard ip run :
  ip = "" ∨ Raw.is_comment ip → run_geoip_lookup ip run = (ip, "UNKNOWN").
Proof.
  unfold run_geoip_lookup, Raw.is_comment. intros [-> | Hc]; [done|].
  by rewrite Hc, orb_true_r.
Qed.

Lemma run_geoip_lookup_completed ip out :
  ip ≠ "" → ¬ Raw.is_comment ip →
  run_geoip_lookup ip (Completed out)
  = (ip, match search_from COUNTRY_RE None (chars (default "" out)) with
         | Some g => string_of_list_ascii g
         | None => "UNKNOWN"
         end).
Proof.
  unfold run_geoip_lookup, Raw.is_comment, search, chars. intros Hne Hc.
  rewrite bool_decide_eq_false_2 by done.
  destruct (Py.startswith ip "#"); [done|]. cbn [orb].
  by destruct (search_from _ _ _).
Qed.

Lemma code_not_unknown g : code g → string_of_list_ascii g ≠ "UNKNOWN".
Proof.
  intros [Hlen _] Heq.
  apply (f_equal list_ascii_of_string) in Heq.
  rewrite list_ascii_of_string_of_list_ascii in Heq. by subst g.
Qed.

Lemma match_at_code pre post g : match_at pre post g → code g.
Proof. by intros (_ & m & rest & _ & (? & ? & ? & ? & _ & _ & _ & _ & Hg & _) & _). Qed.

(** C6 fails as stated: on the output [country_code =], newline, [US] no
    line matches the pattern, so a reading line by line gives UNKNOWN, and the
    resolver returns US. *)
Lemma C6_match_across_lines :
  lines (chars "country_code =
US") = [chars "country_code ="; chars "US"]
  ∧ line_code (chars "country_code =") = None
  ∧ line_code (chars "US") = None
  ∧ first_line_label "country_code =
US" = "UNKNOWN"
  ∧ run_geoip_lookup "1.2.3.4" (Completed (Some "country_code =
US")) = ("1.2.3.4", "US").
Proof. vm_compute. repeat split. Qed.

(** C6, amended.  An empty address or one that begins with [#] gets
    UNKNOWN without the command being run; so does any address on a
    timeout or another exception.  Otherwise the label is the two
    upper-case letters of the leftmost match of the pattern in the
    captured output, and UNKNOWN when the output has no match.  A match
    begins where a line begins, ends where a line ends and reads
    [country_code], [=] and the code with optional whitespace before,
    between and after them; that whitespace may hold newlines, so a match
    may run over several lines.  When UNKNOWN is returned for a completed
    command, no line of the output reads [country_code = XX]; and when no
    match of the output is broken between [country_code] and the code, the
    label is the code of the first line that reads [country_code = XX], or
    UNKNOWN when no line does. *)
Theorem C6_leftmost_country_code :
  ∀ (ip : string) (run : run_result),
    (ip = "" ∨ Raw.is_comment ip → run_geoip_lookup ip run = (ip, "UNKNOWN"))
    ∧ (run = TimeoutExpired ∨ run = OtherException →
       run_geoip_lookup ip run = (ip, "UNKNOWN"))
    ∧ (ip ≠ "" → ¬ Raw.is_comment ip →
       ∀ out, run = Completed out →
         (∀ g, leftmost_match (chars (default "" out)) g →
               code g ∧ run_geoip_lookup ip run = (ip, string_of_list_ascii g))
         ∧ ((∀ pre post g, chars (default "" out) = pre ++ post →
                           ¬ match_at pre post g) →
            run_geoip_lookup ip run = (ip, "UNKNOWN"))
         ∧ ((∃ g, leftmost_match (chars (default "" out)) g)
            ∨ (∀ pre post g, chars (default "" out) = pre ++ post →
                             ¬ match_at pre post g))
         ∧ (run_geoip_lookup ip run = (ip, "UNKNOWN") →
            ∀ line g, line ∈ lines (chars (default "" out)) → ¬ reads line g)
         ∧ (∀ line g, line ∈ lines (chars (default "" out)) →
                      line_code line = Some g ↔ reads line g)
         ∧ (tokens_on_one_line (chars (default "" out)) →
            run_geoip_lookup ip run = (ip, first_line_label (default "" out)))
         ∧ (no_broken_line (chars (default "" out)) →
            run_geoip_lookup ip run = (ip, first_line_label (default "" out)))).
Proof.
  intros ip run. split; [apply run_geoip_lookup_guard|]. split.
  { unfold run_geoip_lookup. intros [-> | ->]; by destruct (_ || _). }
  intros Hne Hc out ->. rewrite run_geoip_lookup_completed by done.
  unfold first_line_label.
  set (text := chars (default "" out)).
  assert (tokens_on_one_line text →
          match search_from COUNTRY_RE None text with
          | Some g => string_of_list_ascii g
          | None => "UNKNOWN"
          end
          = match omap line_code (lines text) with
            | g :: _ => string_of_list_ascii g
            | [] => "UNKNOWN"
            end) as Hfirst.
  { intros Htok. rewrite (search_from_first_line text Htok).
    by destruct (omap line_code (lines text)). }
  split; [|split; [|split; [|split; [|split; [|split]]]]].
  - intros g Hg. split.
    + destruct Hg as (pre & post & _ & Hm & _). by eapply match_at_code.
    + apply search_from_leftmost in Hg. by rewrite Hg.
  - intros Hno. apply search_from_no_match in Hno. by rewrite Hno.
  - destruct (search_from COUNTRY_RE None text) as [g|] eqn:Hs.
    + left. exists g. by apply search_from_leftmost.
    + right. by apply search_from_no_match.
  - destruct (search_from COUNTRY_RE None text) as [g|] eqn:Hs.
    + intros [= Heq]. exfalso. apply search_from_leftmost in Hs.
      destruct Hs as (pre & post & _ & Hm & _).
      by apply match_at_code, code_not_unknown in Hm.
    + intros _ line g Hin Hr.
      destruct (matching_line_match_at _ _ _ Hin Hr) as (pre & post & Heq & Hm).
      by eapply (proj1 (search_from_no_match text) Hs).
  - intros line g [Hnl _]%lines_elem. by apply line_code_reads.
  - intros Htok. by rewrite Hfirst.
  - intros Hno. by rewrite Hfirst by by apply no_broken_line_tokens.
Qed.

(** An output none of whose lines breaks off. *)
Lemma no_broken_line_example :
  no_broken_line (chars "version = 1
 country_code = DE
").
Proof.
  intros line Hin. vm_compute in Hin.
  repeat (apply elem_of_cons in Hin as [->|Hin]);
    [| | |by apply elem_of_nil in Hin];
    (split; [intros (a & b & Ha & Hb & Heq)|intros (a & b & c & Ha & Hb & Hc & Heq)]);
    unfold chars in Heq; cbn [list_ascii_of_string app] in Heq;
    repeat match goal with
    | H : Py.isspace _ = true |- _ => first [discriminate H | clear H]
    | H : spaces (_ :: _) |- _ => apply Forall_cons in H as [? H]
    | H : Forall _ (_ :: _) |- _ => apply Forall_cons in H as [? H]
    | H : _ :: _ = [] |- _ => discriminate H
    | H : [] = _ :: _ |- _ => discriminate H
    | H : _ :: _ = _ :: _ |- _ =>
        first [discriminate H | injection H as ? H; subst | injection H as H]
    | H : _ = ?x |- _ => is_var x; subst x
    | H : ?x ++ _ = _ |- _ => is_var x; destruct x; cbn [app] in H
    | H : _ = ?x ++ _ |- _ => is_var x; destruct x; cbn [app] in H
    end.
Qed.

Lemma C6_leftmost_country_code_witness :
  code (chars "DE")
  ∧ run_geoip_lookup "1.2.3.4"
      (Completed (Some "version = 20250101
  country_code   =  DE
country_code = US"))
    = ("1.2.3.4", string_of_list_ascii (chars "DE")).
Proof.
  refine (proj1 (proj2 (proj2 (C6_leftmost_country_code "1.2.3.4" _)) _ _ _ eq_refl)
            (chars "DE") _); [done|by intros [=]|].
  apply search_from_leftmost. vm_compute. reflexivity.
Defined.
End process_resolver.

(** ** The normalizers on their own output, on one another's, and on a
    longer input *)
Section strip_facts.

Lemma rstrip_unfold c s :
  Py.rstrip (String c s)
  = match Py.rstrip s with
    | EmptyString => if Py.isspace c then EmptyString else String c EmptyString
    | r => String c r
    end.
Proof. done. Qed.

Lemma rstrip_cons c s :
  Py.isspace c = false → Py.rstrip (String c s) = String c (Py.rstrip s).
Proof. intros Hc. rewrite rstrip_unfold, Hc. by destruct (Py.rstrip s). Qed.

Lemma rstrip_idem s : Py.rstrip (Py.rstrip s) = Py.rstrip s.
Proof.
  induction s as [|c s IH]; [done|]. rewrite rstrip_unfold.
  destruct (Py.rstrip s) as [|d r] eqn:Hr.
  - destruct (Py.isspace c) eqn:Hc; [done|]. by rewrite rstrip_cons.
  - rewrite rstrip_unfold, IH. done.
Qed.

Lemma lstrip_head s c t : Py.lstrip s = String c t → Py.isspace c = false.
Proof.
  induction s as [|x s IH]; [done|]. cbn [Py.lstrip].
  destruct (Py.isspace x) eqn:Hx; [done|]. by intros [= <- _].
Qed.

Lemma lstrip_cons c s : Py.isspace c = false → Py.lstrip (String c s) = String c s.
Proof. intros Hc. cbn [Py.lstrip]. by rewrite Hc. Qed.

(** A stripped text is empty or begins with a character that is not
    whitespace. *)
Lemma strip_head s c t : Py.strip s = String c t → Py.isspace c = false.
Proof.
  unfold Py.strip. destruct (Py.lstrip s) as [|x l] eqn:Hl; [done|].
  pose proof (lstrip_head _ _ _ Hl) as Hx. rewrite rstrip_cons by done.
  by intros [= <- _].
Qed.

Lemma strip_idem s : Py.strip (Py.strip s) = Py.strip s.
Proof.
  destruct (Py.strip s) as [|c t] eqn:Hs; [done|].
  pose proof (strip_head _ _ _ Hs) as Hc.
  unfold Py.strip in *. rewrite lstrip_cons, <- Hs by done. apply rstrip_idem.
Qed.

Lemma stripped_strip f s : s ∈ Raw.stripped f → Py.strip s = s.
Proof. intros (line & -> & _)%list_elem_of_fmap. apply strip_idem. Qed.

Lemma stripped_fixed l : Forall (λ s, Py.strip s = s) l → Raw.stripped l = l.
Proof.
  unfold Raw.stripped. induction 1 as [|s l Hs _ IH]; [done|].
  cbn [fmap list_fmap] in *. by rewrite Hs, IH.
Qed.

End strip_facts.

Section first_seen_more.
Context {A K : Type} `{EqDecision K} (key : A → K).

(** A sequence with distinct, unseen keys is selected whole. *)
Lemma first_seen_NoDup_id seen l :
  NoDup (key <$> l) → (∀ x, x ∈ l → key x ∉ seen) → first_seen key seen l = l.
Proof.
  revert seen. induction l as [|x l IH]; intros seen Hnd Hs; [done|].
  rewrite fmap_cons in Hnd. apply NoDup_cons in Hnd as [Hx Hnd].
  cbn [first_seen]. rewrite decide_False by (apply Hs; left).
  f_equal. apply IH; [done|]. intros y Hy [Heq|Hin]%elem_of_cons.
  - apply Hx. rewrite <- Heq. apply list_elem_of_fmap. eauto.
  - by apply (Hs y); [right|].
Qed.

(** The selection from a longer sequence begins with the selection from
    the shorter one. *)
Lemma first_seen_app seen l1 l2 :
  first_seen key seen (l1 ++ l2)
  = first_seen key seen l1 ++ first_seen key ((key <$> l1) ++ seen) l2.
Proof.
  revert seen. induction l1 as [|x l1 IH]; intros seen; [done|].
  cbn [app first_seen]. case_decide as Hx.
  - rewrite IH. f_equal. apply first_seen_ext. intros k.
    rewrite fmap_cons, !elem_of_app, elem_of_cons. split; [tauto|].
    intros [[->|?]|?]; tauto.
  - cbn [app]. rewrite IH. do 2 f_equal. apply first_seen_ext. intros k.
    rewrite fmap_cons, !elem_of_app, !elem_of_cons. tauto.
Qed.

End first_seen_more.

(** Selecting by a coarser key after a finer one is selecting by the
    coarser key. *)
Lemma first_seen_coarser {A K1 K2 : Type} `{EqDecision K1, EqDecision K2}
    (fine : A → K1) (coarse : A → K2) (l : list A) seen1 seen2 :
  (∀ x y, fine x = fine y → coarse x = coarse y) →
  (∀ x, x ∈ l → fine x ∈ seen1 → coarse x ∈ seen2) →
  first_seen coarse seen2 (first_seen fine seen1 l) = first_seen coarse seen2 l.
Proof.
  intros Hfc. revert seen1 seen2.
  induction l as [|x l IH]; intros seen1 seen2 Hs; [done|].
  cbn [first_seen]. destruct (decide (fine x ∈ seen1)) as [H1|H1].
  - rewrite decide_True by (apply Hs; [left|done]).
    apply IH. intros y Hy. apply Hs. by right.
  - cbn [first_seen]. destruct (decide (coarse x ∈ seen2)) as [H2|H2].
    + apply IH. intros y Hy [Hf|Hin]%elem_of_cons.
      * by rewrite (Hfc _ _ Hf).
      * apply Hs; [by right|done].
    + f_equal. apply IH. intros y Hy [Hf|Hin]%elem_of_cons.
      * rewrite (Hfc _ _ Hf). left.
      * right. apply Hs; [by right|done].
Qed.

Section normalizer_more.
Import ipaddress.

Lemma candidates_fixed l :
  Forall (λ s, Py.strip s = s ∧ s ≠ "" ∧ Py.startswith s "#" = false) l →
  Raw.candidates l = l.
Proof.
  intros Hl. unfold Raw.candidates. rewrite stripped_fixed.
  - induction Hl as [|s l (_ & Hb & Hc) _ IH]; [done|].
    rewrite filter_cons_True, IH; [done|].
    unfold Raw.is_blank, Raw.is_comment. split; [done|]. by rewrite Hc.
  - eapply Forall_impl; [exact Hl|]. by intros s (? & _).
Qed.

Lemma non_blank_fixed l :
  Forall (λ s, Py.strip s = s ∧ s ≠ "") l → Raw.non_blank l = l.
Proof.
  intros Hl. unfold Raw.non_blank. rewrite stripped_fixed.
  - induction Hl as [|s l (_ & Hb) _ IH]; [done|].
    by rewrite filter_cons_True, IH.
  - eapply Forall_impl; [exact Hl|]. by intros s (? & _).
Qed.

Lemma parsed_fixed (pairs : list (string * IP)) :
  Forall (λ p, Py.strip p.1 = p.1 ∧ ip_address p.1 = Some p.2) pairs →
  Raw.parsed pairs.*1 = pairs.
Proof.
  intros Hl. unfold Raw.parsed. rewrite stripped_fixed.
  - induction Hl as [|[s ip] l (_ & Hp) _ IH]; [done|].
    cbn [fmap list_fmap omap list_omap fst snd] in *. rewrite Hp. cbn. by rewrite IH.
  - apply Forall_fmap. eapply Forall_impl; [exact Hl|]. by intros p (? & _).
Qed.

(** A text the API backend takes as it stands: stripped, not blank, not a
    comment. *)
Lemma parse_ip_file_fixed l :
  Forall (λ s, Py.strip s = s ∧ s ≠ "" ∧ Py.startswith s "#" = false) l →
  NoDup l → GeoApi.parse_ip_file l = l.
Proof.
  intros Hl Hnd. rewrite parse_ip_file_first_seen, candidates_fixed by done.
  apply first_seen_NoDup_id; [by rewrite list_fmap_id|].
  intros x _. apply not_elem_of_nil.
Qed.

Lemma read_ips_fixed l :
  Forall (λ s, Py.strip s = s ∧ s ≠ "") l → GeoProc.read_ips l = l.
Proof. intros Hl. by rewrite read_ips_non_blank, non_blank_fixed. Qed.

Lemma iter_ips_fixed (pairs : list (string * IP)) :
  Forall (λ p, Py.strip p.1 = p.1 ∧ ip_address p.1 = Some p.2) pairs →
  NoDup pairs.*2 → Subnet.iter_ips pairs.*1 = pairs.
Proof.
  intros Hl Hnd. rewrite iter_ips_first_seen, parsed_fixed by done.
  apply first_seen_NoDup_id; [done|]. intros x _. apply not_elem_of_nil.
Qed.

(** The texts of the batch of the subnet bucketer are normal for all
    three scripts. *)
Lemma iter_ips_normal source :
  Forall (λ p, Py.strip p.1 = p.1 ∧ p.1 ≠ "" ∧ Py.startswith p.1 "#" = false
               ∧ ip_address p.1 = Some p.2) (Subnet.iter_ips source).
Proof.
  apply Forall_forall. intros [s ip] [Hp Hs]%iter_ips_elem. cbn [fst snd].
  destruct (ip_address_not_blank_comment s ip Hp) as [Hb Hc].
  split; [by eapply stripped_strip|]. split; [done|]. split; [|done].
  unfold Raw.is_comment in Hc. by destruct (Py.startswith s "#").
Qed.

(** X1. Each of the three input normalizers is idempotent: run on the
    batch it produced (given one entry per line), it returns that batch
    unchanged.  For the subnet bucketer the batch is given by its texts. *)
Theorem X1_normalizers_idempotent (f : list string) :
  GeoApi.parse_ip_file (GeoApi.parse_ip_file f) = GeoApi.parse_ip_file f
  ∧ GeoProc.read_ips (GeoProc.read_ips f) = GeoProc.read_ips f
  ∧ Subnet.iter_ips (Subnet.iter_ips f).*1 = Subnet.iter_ips f.
Proof.
  split; [|split].
  - apply parse_ip_file_fixed; [|apply parse_ip_file_NoDup].
    apply Forall_forall. intros s Hs%parse_ip_file_elem.
    apply candidates_elem in Hs as (Hs & Hb & Hc).
    split; [by eapply stripped_strip|]. split; [done|].
    unfold Raw.is_comment in Hc. by destruct (Py.startswith s "#").
  - apply read_ips_fixed, Forall_forall. intros s. rewrite read_ips_non_blank.
    unfold Raw.non_blank. intros [Hb Hs]%list_elem_of_filter.
    split; [by eapply stripped_strip|done].
  - apply iter_ips_fixed.
    + eapply Forall_impl; [apply iter_ips_normal|]. intros p (? & _ & _ & ?). done.
    + rewrite iter_ips_first_seen. apply first_seen_NoDup.
Qed.

(** X2. The two lists the subnet bucketer writes are accepted whole by
    the other two scripts: given one representative per line, the
    normalizer of the API backend and that of the process backend return
    the list as it is, nothing dropped, reordered or changed. *)
Theorem X2_representatives_feed_lookups (source : list string) :
  let reps := Subnet.main source in
  GeoApi.parse_ip_file reps.1 = reps.1 ∧ GeoProc.read_ips reps.1 = reps.1
  ∧ GeoApi.parse_ip_file reps.2 = reps.2 ∧ GeoProc.read_ips reps.2 = reps.2.
Proof.
  cbn zeta. unfold Subnet.main. rewrite build_representatives_first_seen. cbn [fst snd].
  assert (∀ sel : list (string * IP), sublist sel (Subnet.iter_ips source) →
            GeoApi.parse_ip_file sel.*1 = sel.*1
            ∧ GeoProc.read_ips sel.*1 = sel.*1) as Hsel.
  { intros sel Hsub.
    assert (Forall (λ s, Py.strip s = s ∧ s ≠ "" ∧ Py.startswith s "#" = false)
                   sel.*1) as Hn.
    { apply Forall_fmap, Forall_forall. intros p Hp.
      pose proof (iter_ips_normal source) as Hall.
      rewrite Forall_forall in Hall. destruct (Hall p) as (? & ? & ? & _); [|done].
      eapply elem_of_submseteq; [exact Hp|]. by apply sublist_submseteq. }
    split.
    - apply parse_ip_file_fixed; [done|].
      eapply sublist_NoDup; [apply iter_ips_NoDup_text|]. by apply fmap_sublist.
    - apply read_ips_fixed. eapply Forall_impl; [exact Hn|]. by intros s (? & ? & _). }
  destruct (Hsel _ (first_seen_sublist Subnet.n16 [] (Subnet.iter_ips source))).
  destruct (Hsel _ (first_seen_sublist Subnet.n24 [] (Subnet.iter_ips source))).
  done.
Qed.

(** The texts of the lines that parse, selected by address, among the
    candidate lines selected by text. *)
Lemma parsed_sublist_candidates (l : list string) (seen_ip : list IP)
    (seen_s : list string) :
  (∀ s ip, s ∈ seen_s → ip_address s = Some ip → ip ∈ seen_ip) →
  sublist
    (first_seen snd seen_ip (omap (λ s, (λ ip, (s, ip)) <$> ip_address s) l)).*1
    (first_seen id seen_s
       (filter (λ s, ¬ Raw.is_blank s ∧ ¬ Raw.is_comment s) l)).
Proof.
  revert seen_ip seen_s. induction l as [|s l IH]; intros seen_ip seen_s Hs; [done|].
  cbn [omap list_omap]. rewrite filter_cons.
  destruct (ip_address s) as [ip|] eqn:Hp; cbn [fmap option_fmap option_map].
  - destruct (ip_address_not_blank_comment s ip Hp) as [Hb Hc].
    rewrite decide_True by done. cbn [first_seen id snd].
    destruct (decide (s ∈ seen_s)) as [Hin|Hin].
    + rewrite decide_True by (by eapply Hs). by apply IH.
    + destruct (decide (ip ∈ seen_ip)) as [Hi|Hi].
      * apply sublist_cons, IH. intros s' ip' [->|Hin']%elem_of_cons Hp'.
        -- congruence.
        -- by eapply Hs.
      * rewrite fmap_cons. cbn [fst]. apply sublist_skip, IH.
        intros s' ip' [->|Hin']%elem_of_cons Hp'.
        -- apply elem_of_cons. left. congruence.
        -- apply elem_of_cons. right. by eapply Hs.
  - case_decide; [|by apply IH]. cbn [first_seen id].
    destruct (decide (s ∈ seen_s)); [by apply IH|].
    apply sublist_cons, IH. intros s' ip' [->|Hin']%elem_of_cons Hp'.
    + congruence.
    + by eapply Hs.
Qed.

(** X3. On one input the three batches are nested: the texts of the batch
    of the subnet bucketer are a subsequence of the batch of the API
    backend, which is a subsequence of the batch of the process backend. *)
Theorem X3_batches_nested (f : list string) :
  sublist (Subnet.iter_ips f).*1 (GeoApi.parse_ip_file f)
  ∧ sublist (GeoApi.parse_ip_file f) (GeoProc.read_ips f).
Proof.
  split.
  - rewrite iter_ips_first_seen, parse_ip_file_first_seen.
    apply parsed_sublist_candidates. by intros s ip ?%elem_of_nil.
  - rewrite parse_ip_file_first_seen, read_ips_non_blank.
    etrans; [apply first_seen_sublist|].
    unfold Raw.candidates, Raw.non_blank.
    induction (Raw.stripped f) as [|s l IH]; [done|].
    rewrite !filter_cons. destruct (decide (¬ Raw.is_blank s)) as [Hb|Hb].
    + case_decide; [by apply sublist_skip|by apply sublist_cons].
    + rewrite decide_False by tauto. done.
Qed.

Lemma stripped_app f g : Raw.stripped (f ++ g) = Raw.stripped f ++ Raw.stripped g.
Proof. apply fmap_app. Qed.

(** X4. Lines appended to the input only append to the output: the batch
    of each script on [f ++ g] begins with its batch on [f], and each of
    the two lists of the subnet bucketer on [f ++ g] begins with its list
    on [f].  What a line contributes is never changed, moved or removed by
    the lines after it. *)
Theorem X4_appended_input_appends (f g : list string) :
  GeoApi.parse_ip_file f `prefix_of` GeoApi.parse_ip_file (f ++ g)
  ∧ GeoProc.read_ips f `prefix_of` GeoProc.read_ips (f ++ g)
  ∧ Subnet.iter_ips f `prefix_of` Subnet.iter_ips (f ++ g)
  ∧ (Subnet.main f).1 `prefix_of` (Subnet.main (f ++ g)).1
  ∧ (Subnet.main f).2 `prefix_of` (Subnet.main (f ++ g)).2.
Proof.
  assert (Subnet.iter_ips (f ++ g)
          = Subnet.iter_ips f
            ++ first_seen snd ((Raw.parsed f).*2 ++ []) (Raw.parsed g)) as Hit.
  { rewrite !iter_ips_first_seen. unfold Raw.parsed.
    rewrite stripped_app, omap_app. apply first_seen_app. }
  split; [|split; [|split; [|split]]].
  - rewrite !parse_ip_file_first_seen. unfold Raw.candidates.
    rewrite stripped_app, filter_app, first_seen_app. by eexists.
  - rewrite !read_ips_non_blank. unfold Raw.non_blank.
    rewrite stripped_app, filter_app. by eexists.
  - rewrite Hit. by eexists.
  - unfold Subnet.main. rewrite !build_representatives_first_seen. cbn [fst].
    rewrite Hit, first_seen_app, fmap_app. by eexists.
  - unfold Subnet.main. rewrite !build_representatives_first_seen. cbn [snd].
    rewrite Hit, first_seen_app, fmap_app. by eexists.
Qed.

End normalizer_more.

(** ** The subnet bucketer: networks, octets and files *)
Section subnet_more.
Import ipaddress Subnet.

Lemma first_seen_fmap_key {A K : Type} `{EqDecision K} (key : A → K) seen l :
  key <$> first_seen key seen l = first_seen id seen (key <$> l).
Proof.
  revert seen. induction l as [|x l IH]; intros seen; [done|].
  cbn [fmap list_fmap first_seen id]. case_decide; [apply IH|].
  rewrite fmap_cons. f_equal. apply IH.
Qed.

Lemma networks_texts p (pairs : list (string * IP)) :
  Forall (λ q, ip_address q.1 = Some q.2) pairs →
  Bucket.networks p pairs.*1 = (λ q, ip_network q.2 p) <$> pairs.
Proof.
  unfold Bucket.networks, Bucket.network_of.
  induction 1 as [|[s ip] l Hq _ IH]; [done|].
  cbn [fmap list_fmap omap list_omap fst snd] in *. rewrite Hq. cbn. by rewrite IH.
Qed.

Lemma networks_stripped p f :
  Bucket.networks p (Raw.stripped f) = (λ q, ip_network q.2 p) <$> Raw.parsed f.
Proof.
  unfold Bucket.networks, Bucket.network_of, Raw.parsed.
  induction (Raw.stripped f) as [|s l IH]; [done|].
  cbn [omap list_omap]. destruct (ip_address s) as [ip|]; cbn; by rewrite IH.
Qed.

(** The representatives of a prefix length, read off the lines that
    parse: de-duplicating the addresses first changes nothing. *)
Lemma main_first_seen (net : string * IP → Network) source :
  (∀ x y : string * IP, x.2 = y.2 → net x = net y) →
  first_seen net [] (iter_ips source) = first_seen net [] (Raw.parsed source).
Proof.
  intros Hnet. rewrite iter_ips_first_seen.
  apply first_seen_coarser; [done|]. by intros x _ ?%elem_of_nil.
Qed.

Lemma representatives_networks p source :
  let net := λ q : string * IP, ip_network q.2 p in
  Forall (λ r, is_Some (ip_address r)) (first_seen net [] (iter_ips source)).*1
  ∧ Bucket.networks p (first_seen net [] (iter_ips source)).*1
    = Bucket.distinct (Bucket.networks p (Raw.stripped source)).
Proof.
  intros net.
  assert (Forall (λ q : string * IP, ip_address q.1 = Some q.2)
                 (first_seen net [] (iter_ips source))) as Hall.
  { apply Forall_forall. intros [s ip] Hin. cbn [fst snd].
    eapply iter_ips_elem, elem_of_submseteq; [exact Hin|].
    apply sublist_submseteq, first_seen_sublist. }
  split.
  - apply Forall_fmap. eapply Forall_impl; [exact Hall|].
    intros q Hq. cbn. by rewrite Hq.
  - rewrite networks_texts by done. rewrite main_first_seen.
    + unfold Bucket.distinct. rewrite networks_stripped.
      by rewrite <- first_seen_fmap_key.
    + intros x y Hxy. unfold net. by rewrite Hxy.
Qed.

(** X5. In each of the two lists the subnet bucketer returns, every row
    reads as an address, and the networks of the rows are the distinct
    networks (/16 for the first list, /24 for the second) of the input
    lines that read as an address, each once, in the order of their first
    appearance in the input: one representative per network present, none
    for a network absent, whether or not the input repeats addresses. *)
Theorem X5_one_representative_per_network (source : list string) :
  let reps := Subnet.main source in
  Forall (λ r, is_Some (ip_address r)) reps.1
  ∧ Forall (λ r, is_Some (ip_address r)) reps.2
  ∧ Bucket.networks 16 reps.1
    = Bucket.distinct (Bucket.networks 16 (Raw.stripped source))
  ∧ Bucket.networks 24 reps.2
    = Bucket.distinct (Bucket.networks 24 (Raw.stripped source)).
Proof.
  cbn zeta. unfold Subnet.main. rewrite build_representatives_first_seen.
  cbn [fst snd].
  destruct (representatives_networks 16 source) as [H1 H2].
  destruct (representatives_networks 24 source) as [H3 H4].
  done.
Qed.

(** The octets of an IPv4 literal are below 256, so its integer is below
    [2^32]. *)
Lemma parse_octet_bound s n : parse_octet s = Some n → (n ≤ 255)%N.
Proof.
  unfold parse_octet. repeat case_match; try done.
  intros [= <-]. by apply N.ltb_ge.
Qed.

Lemma from_bytes_bound (octets : list N) acc :
  Forall (λ b, b ≤ 255)%N octets →
  (fold_left (λ acc b, N.shiftl acc 8 + b) octets acc
   < (acc + 1) * 2 ^ (8 * N.of_nat (length octets)))%N.
Proof.
  intros Hall. revert acc. induction Hall as [|b l Hb _ IH]; intros acc.
  - cbn. lia.
  - cbn [fold_left length]. eapply N.lt_le_trans; [apply IH|].
    rewrite N.shiftl_mul_pow2.
    replace (8 * N.of_nat (S (length l)))%N with (8 + 8 * N.of_nat (length l))%N by lia.
    rewrite N.pow_add_r. change (2 ^ 8)%N with 256%N.
    rewrite N.mul_assoc. apply N.mul_le_mono_r. lia.
Qed.

Lemma parse_v4_bound s n : parse_v4 s = Some n → (n < 2 ^ 32)%N.
Proof.
  unfold parse_v4, v4_int_from_string.
  destruct (Py.contains "/" s); [done|].
  case_bool_decide; [done|]. case_bool_decide as Hlen; [done|].
  destruct (mapM parse_octet (Py.split "." s)) as [octets|] eqn:Hm; [|done].
  intros [= <-]. apply mapM_Some in Hm.
  assert (length octets = 4%nat) as Hl.
  { rewrite <- (Forall2_length _ _ _ Hm).
    by destruct (decide (length (Py.split "." s) = 4%nat)). }
  assert (Forall (λ b, b ≤ 255)%N octets) as Hall.
  { clear Hl Hlen. induction Hm; constructor; eauto using parse_octet_bound. }
  pose proof (from_bytes_bound octets 0 Hall) as Hb.
  rewrite Hl in Hb. exact Hb.
Qed.

Lemma ip_address_v4_bound s n :
  ip_address s = Some (IPv4Address n) → (n < 2 ^ 32)%N.
Proof.
  unfold ip_address. destruct (parse_v4 s) as [m|] eqn:Hp.
  - intros [= <-]. by eapply parse_v4_bound.
  - by destruct (parse_v6 s) as [[? ?]|].
Qed.

(** Masking an integer below [2^bits] to its top bits clears the low ones. *)
Lemma land_netmask_shift (bits low n : N) :
  (n < 2 ^ bits)%N →
  N.land n (N.ldiff (N.ones bits) (N.ones low)) = N.shiftl (N.shiftr n low) low.
Proof.
  intros Hn. rewrite <- N.ldiff_ones_r.
  rewrite <- (N.mod_small n (2 ^ bits)) at 2 by done.
  rewrite <- N.land_ones. apply N.bits_inj. intros i.
  rewrite !N.ldiff_spec, !N.land_spec, N.ldiff_spec. apply andb_assoc.
Qed.

Lemma shiftl_inj (a b k : N) : N.shiftl a k = N.shiftl b k ↔ a = b.
Proof.
  rewrite !N.shiftl_mul_pow2. split; [|by intros ->].
  apply N.mul_cancel_r, N.pow_nonzero. done.
Qed.

Lemma ip_network_v4_same (n m : N) :
  (n < 2 ^ 32)%N → (m < 2 ^ 32)%N →
  (ip_network (IPv4Address n) 24 = ip_network (IPv4Address m) 24
   ↔ N.shiftr n 8 = N.shiftr m 8)
  ∧ (ip_network (IPv4Address n) 16 = ip_network (IPv4Address m) 16
     ↔ N.shiftr n 16 = N.shiftr m 16).
Proof.
  intros Hn Hm. rewrite !ip_network_v4.
  change (netmask 32 24) with (N.ldiff (N.ones 32) (N.ones 8)).
  change (netmask 32 16) with (N.ldiff (N.ones 32) (N.ones 16)).
  rewrite !land_netmask_shift by done.
  split; (split; [intros [= Heq]; by apply shiftl_inj in Heq|by intros ->]).
Qed.

(** X6. For two input lines that read as IPv4 addresses, the subnet
    bucketer puts them in the same /24 bucket exactly when the addresses
    agree on their top 24 bits (the first three octets), and in the same
    /16 bucket exactly when they agree on their top 16 bits (the first two
    octets); an IPv4 address and an IPv6 address are never in the same
    bucket. *)
Theorem X6_ipv4_buckets_are_octet_prefixes (s s' : string) (n m : N) :
  ip_address s = Some (IPv4Address n) →
  ip_address s' = Some (IPv4Address m) →
  (n24 (s, IPv4Address n) = n24 (s', IPv4Address m)
   ↔ N.shiftr n 8 = N.shiftr m 8)
  ∧ (n16 (s, IPv4Address n) = n16 (s', IPv4Address m)
     ↔ N.shiftr n 16 = N.shiftr m 16)
  ∧ ∀ t k sc, n24 (s, IPv4Address n) ≠ n24 (t, IPv6Address k sc)
              ∧ n16 (s, IPv4Address n) ≠ n16 (t, IPv6Address k sc).
Proof.
  intros Hn%ip_address_v4_bound Hm%ip_address_v4_bound.
  destruct (ip_network_v4_same n m Hn Hm) as [H24 H16].
  split; [exact H24|]. split; [exact H16|].
  intros t k sc. unfold n24, n16. cbn [snd].
  rewrite !ip_network_v4, !ip_network_v6. done.
Qed.

Lemma X6_ipv4_buckets_are_octet_prefixes_witness :
  (n24 ("10.1.2.3", IPv4Address 0x0a010203) = n24 ("10.1.2.200", IPv4Address 0x0a0102c8)
   ↔ N.shiftr 0x0a010203 8 = N.shiftr 0x0a0102c8 8)
  ∧ (n16 ("10.1.2.3", IPv4Address 0x0a010203) = n16 ("10.1.2.200", IPv4Address 0x0a0102c8)
     ↔ N.shiftr 0x0a010203 16 = N.shiftr 0x0a0102c8 16)
  ∧ ∀ t k sc, n24 ("10.1.2.3", IPv4Address 0x0a010203) ≠ n24 (t, IPv6Address k sc)
              ∧ n16 ("10.1.2.3", IPv4Address 0x0a010203) ≠ n16 (t, IPv6Address k sc).
Proof.
  apply (X6_ipv4_buckets_are_octet_prefixes "10.1.2.3" "10.1.2.200"); reflexivity.
Defined.

Lemma first_seen_pair {A K : Type} `{EqDecision K} (key : A → K) (x y : A) :
  first_seen key [] [x; y] = if decide (key y = key x) then [x] else [x; y].
Proof.
  cbn [first_seen]. rewrite decide_False by apply not_elem_of_nil.
  destruct (decide (key y = key x)) as [Heq|Hne].
  - rewrite decide_True; [done|]. rewrite Heq. left.
  - rewrite decide_False; [done|]. by intros [?|?%elem_of_nil]%elem_of_cons.
Qed.

(** X17. An IPv6 address that carries a scope id and is itself the
    address of its /16 network is keyed, for /16 and for /24, by a network
    that keeps the scope id, whereas an address with host bits set is
    keyed by the network without scope id.  So it shares no bucket with
    any other address of its /24 network, and both are listed as
    representatives, in the /16 list and in the /24 list; without the
    scope id they share both buckets and only the first is listed. *)
Theorem X17_scoped_network_address_has_its_own_bucket (s s' : string) (n m : N)
    (id : string) (sc' : option string) :
  N.land n (netmask 128 16) = n →
  N.land m (netmask 128 24) = n →
  m ≠ n →
  build_representatives [(s, IPv6Address n (Some id)); (s', IPv6Address m sc')]
  = ([s; s'], [s; s'])
  ∧ ∀ t t', build_representatives [(t, IPv6Address n None); (t', IPv6Address m sc')]
            = ([t], [t]).
Proof.
  intros Hn16 Hm24 Hne.
  assert (N.land n (netmask 128 24) = n) as Hn24.
  { rewrite <- Hn16 at 1. rewrite land_16_24 by (by right). exact Hn16. }
  assert (N.land m (netmask 128 16) = n) as Hm16.
  { rewrite <- (land_24_16 128) by (by right). by rewrite Hm24. }
  split; [|intros t t'];
    rewrite !build_representatives_first_seen, !first_seen_pair;
    unfold n16, n24; cbn [snd]; rewrite !ip_network_v6, Hn16, Hn24, Hm16, Hm24;
    rewrite !(decide_True (P := n = n)) by done;
    rewrite !(decide_False (P := n = m)) by done.
  - rewrite !decide_False by (by intros [=]). done.
  - rewrite !decide_True by done. done.
Qed.

Lemma X17_scoped_network_address_has_its_own_bucket_witness :
  build_representatives
    [("fe80::%eth0", IPv6Address 0xfe800000000000000000000000000000 (Some "eth0"));
     ("fe80::1%eth0", IPv6Address 0xfe800000000000000000000000000001 (Some "eth0"))]
  = (["fe80::%eth0"; "fe80::1%eth0"], ["fe80::%eth0"; "fe80::1%eth0"])
  ∧ ∀ t t',
      build_representatives
        [(t, IPv6Address 0xfe800000000000000000000000000000 None);
         (t', IPv6Address 0xfe800000000000000000000000000001 (Some "eth0"))]
      = ([t], [t]).
Proof.
  apply (X17_scoped_network_address_has_its_own_bucket "fe80::%eth0" "fe80::1%eth0");
    [reflexivity|reflexivity|lia].
Defined.

(** The two lines of the example read as these addresses. *)
Example scoped_addresses_example :
  iter_ips ["fe80::%eth0"; "fe80::1%eth0"]
  = [("fe80::%eth0", IPv6Address 0xfe800000000000000000000000000000 (Some "eth0"));
     ("fe80::1%eth0", IPv6Address 0xfe800000000000000000000000000001 (Some "eth0"))].
Proof. reflexivity. Qed.


End subnet_more.
(** ** The API backend: the lookup and a whole run *)
Section api_more.
Import PyVal GeoApi.


(** X8. Whatever the service replies, a resolved outcome of the lookup is
    for the address asked, comes from a reply with status 200 whose body
    is a JSON object with a text in its country field, and is that text
    stripped: it has no whitespace at either end (stripping it again
    changes nothing). *)
Theorem X8_resolved_code_is_stripped (ip : string) (reply : Reply)
    (ip' s : string) :
  fetch_country_code2 ip reply = Ret (ip', Some s) →
  ip' = ip ∧ Py.strip s = s
  ∧ ∃ items raw,
      reply = Replied {| status_code := 200; json := Some (PDict items) |}
      ∧ Body.country_field items = PStr raw ∧ s = Py.strip raw.
Proof.
  rewrite fetch_country_code2_cases.
  destruct reply as [[status body]|]; [|done]. cbn [status_code json].
  case_bool_decide as Hs; [done|]. subst status.
  destruct body as [[| | | | | |items]|]; try done.
  destruct (Body.country_field items) as [| | | |raw| |] eqn:Hf; try done.
  intros [= <- <-]. split; [done|]. split; [apply strip_idem|]. eauto.
Qed.

Lemma X8_resolved_code_is_stripped_witness :
  "8.8.8.8" = "8.8.8.8" ∧ Py.strip "US" = "US"
  ∧ ∃ items raw,
      Replied {| status_code := 200;
                 json := Some (PDict [("location",
                                       PDict [("country_code2", PStr " US ")])]) |}
      = Replied {| status_code := 200; json := Some (PDict items) |}
      ∧ Body.country_field items = PStr raw ∧ "US" = Py.strip raw.
Proof.
  apply (X8_resolved_code_is_stripped "8.8.8.8"
           (Replied {| status_code := 200;
                       json := Some (PDict [("location",
                                             PDict [("country_code2", PStr " US ")])]) |})).
  reflexivity.
Defined.

(** X9. In a JSON object replied with status 200, a country field nested
    under [location] that is present and not null decides the outcome
    alone, the field at the root being ignored: a text gives its stripped
    value, any other value (a number, a list) leaves the address
    unresolved even when the root holds a text.  The root field is read
    when [location] is not an object or its nested field is absent or
    null. *)
Theorem X9_nested_country_field_first (ip : string)
    (items : list (string * pyval)) :
  let reply := Replied {| status_code := 200; json := Some (PDict items) |} in
  let read v := match v with PStr s => Some (Py.strip s) | _ => None end in
  (∀ loc, dict_get items "location" = PDict loc →
          dict_get loc "country_code2" ≠ PNone →
          fetch_country_code2 ip reply
          = Ret (ip, read (dict_get loc "country_code2")))
  ∧ (∀ loc, dict_get items "location" = PDict loc →
            dict_get loc "country_code2" = PNone →
            fetch_country_code2 ip reply
            = Ret (ip, read (dict_get items "country_code2")))
  ∧ (Body.is_dict (dict_get items "location") = false →
     fetch_country_code2 ip reply
     = Ret (ip, read (dict_get items "country_code2"))).
Proof.
  cbn zeta. rewrite fetch_country_code2_cases. cbn [status_code json].
  rewrite bool_decide_eq_false_2 by (by intros []).
  unfold Body.country_field. split; [|split].
  - intros loc -> Hv. by destruct (dict_get loc "country_code2").
  - by intros loc -> ->.
  - by destruct (dict_get items "location").
Qed.







Lemma truthy_key arg env :
  GeoApiCli.truthy (if GeoApiCli.truthy arg then arg else env)
  = GeoApiCli.truthy arg || GeoApiCli.truthy env.
Proof. by destruct (GeoApiCli.truthy arg) eqn:Ha; [rewrite Ha|]. Qed.

(** X10. A run of the API backend ends with status 2, having written no
    file and read no input, exactly when no key is given: neither option
    nor variable holds a non-empty text (an empty option falls back to
    the variable).  Given a key, an input with no candidate line gives a
    file with the header row alone, the notice that no address was found,
    and status 0, and no lookup is consulted. *)
Theorem X10_no_key_or_no_address (arg_key env_key : option string)
    (f : list string) (reply : string → Reply) (sched : list nat) :
  let run := GeoApiCli.main arg_key env_key f reply sched in
  (GeoApiCli.exit run = Ret 2
   ↔ GeoApiCli.truthy arg_key = false ∧ GeoApiCli.truthy env_key = false)
  ∧ (GeoApiCli.exit run = Ret 2 →
     run = {| GeoApiCli.csv := None; GeoApiCli.stderr := [GeoApiCli.NoApiKey];
              GeoApiCli.exit := Ret 2 |})
  ∧ (GeoApiCli.exit run ≠ Ret 2 → Raw.candidates f = [] →
     run = {| GeoApiCli.csv := Some [["ip"; "country_code2"]];
              GeoApiCli.stderr := [GeoApiCli.NoIps];
              GeoApiCli.exit := Ret 0 |}).
Proof.
  cbn zeta. unfold GeoApiCli.main. rewrite truthy_key.
  destruct (GeoApiCli.truthy arg_key || GeoApiCli.truthy env_key) eqn:Hk;
    cbn [negb].
  - apply orb_true_iff in Hk.
    case_bool_decide as Hnil.
    + cbn [GeoApiCli.exit]. split; [|split; [done|]].
      * split; [done|]. intros [Ha He]. destruct Hk; congruence.
      * done.
    + rewrite parse_ip_file_first_seen in Hnil.
      destruct (assemble _ _) as [out|e]; cbn [GeoApiCli.exit].
      * split; [|split; [done|]].
        -- split; [done|]. intros [Ha He]. destruct Hk; congruence.
        -- intros _ Hc. by rewrite Hc in Hnil.
      * split; [|split; [done|]].
        -- split; [done|]. intros [Ha He]. destruct Hk; congruence.
        -- intros _ Hc. by rewrite Hc in Hnil.
  - apply orb_false_iff in Hk. cbn [GeoApiCli.exit]. done.
Qed.









End api_more.
(** ** The process backend: the label, the version probe and a whole run *)
Section reb_facts.
Import Re Stdout.

Lemma reb_search_from_Some pat prev text g :
  ReB.search_from pat prev text = Some g ↔
  ∃ pre post,
    text = pre ++ post
    ∧ ReB.match_here pat [] (prev_after prev pre) post = Some g
    ∧ ∀ pre' post', text = pre' ++ post' → (length pre' < length pre)%nat →
                    ReB.match_here pat [] (prev_after prev pre') post' = None.
Proof.
  revert prev. induction text as [|c text IH]; intros prev; cbn [ReB.search_from].
  - destruct (ReB.match_here pat [] prev []) as [g'|] eqn:Hm.
    + split.
      * intros [= ->]. exists [], []. repeat split; [done|].
        intros ? ? _ Hl. cbn in Hl. lia.
      * intros (pre & post & Heq & Hg & _). symmetry in Heq.
        apply app_eq_nil in Heq as [-> ->]. cbn in Hg. congruence.
    + split; [done|]. intros (pre & post & Heq & Hg & _). symmetry in Heq.
      apply app_eq_nil in Heq as [-> ->]. cbn in Hg. congruence.
  - destruct (ReB.match_here pat [] prev (c :: text)) as [g'|] eqn:Hm.
    + split.
      * intros [= ->]. exists [], (c :: text). repeat split; [done|].
        intros ? ? _ Hl. cbn in Hl. lia.
      * intros (pre & post & Heq & Hg & Hmin). destruct pre as [|x pre].
        -- cbn in Heq, Hg. subst post. congruence.
        -- specialize (Hmin [] (c :: text) eq_refl). cbn in Hmin.
           rewrite Hmin in Hm by lia. done.
    + rewrite IH. split.
      * intros (pre & post & Heq0 & Hg & Hmin). subst text. exists (c :: pre), post.
        repeat split; [done|]. intros [|x pre'] post' Heq Hl.
        -- cbn in Heq. subst post'. done.
        -- injection Heq as <- Heq. cbn in Hl. apply Hmin; [done|lia].
      * intros (pre & post & Heq & Hg & Hmin). destruct pre as [|x pre].
        -- cbn in Heq, Hg. subst post. congruence.
        -- injection Heq as <- ->. exists pre, post. repeat split; [done|].
           intros pre' post' Heq Hl.
           apply (Hmin (c :: pre') post'); [by rewrite Heq|cbn; lia].
Qed.

Lemma reb_search_from_None pat prev text :
  ReB.search_from pat prev text = None ↔
  ∀ pre post, text = pre ++ post →
              ReB.match_here pat [] (prev_after prev pre) post = None.
Proof.
  revert prev. induction text as [|c text IH]; intros prev; cbn [ReB.search_from].
  - destruct (ReB.match_here pat [] prev []) as [g'|] eqn:Hm.
    + split; [done|]. intros H. specialize (H [] [] eq_refl). cbn in H. congruence.
    + split; [|done]. intros _ pre post Heq. symmetry in Heq.
      by apply app_eq_nil in Heq as [-> ->].
  - destruct (ReB.match_here pat [] prev (c :: text)) as [g'|] eqn:Hm.
    + split; [done|]. intros H. specialize (H [] _ eq_refl). cbn in H. congruence.
    + rewrite IH. split.
      * intros H [|x pre] post Heq.
        -- cbn in Heq. by subst post.
        -- injection Heq as <- ->. by apply H.
      * intros H pre post Heq. apply (H (c :: pre) post). by rewrite Heq.
Qed.

(** A starred class takes the longest run after which the rest of the
    pattern matches. *)
Lemma star_loop_longest cls k prev text r :
  star_loop cls k prev text = Some r →
  ∃ ws rest,
    text = ws ++ rest ∧ Forall (λ c, cls c = true) ws
    ∧ k (prev_after prev ws) rest = Some r
    ∧ ∀ ws' rest', text = ws' ++ rest' → Forall (λ c, cls c = true) ws' →
                   (length ws < length ws')%nat →
                   k (prev_after prev ws') rest' = None.
Proof.
  revert prev. induction text as [|c text IH]; intros prev; cbn [star_loop].
  - intros Hk. exists [], []. repeat split; [done..|].
    intros ws' rest' Heq _ Hl. symmetry in Heq.
    apply app_eq_nil in Heq as [-> _]. cbn in Hl. lia.
  - assert (cls c = true → star_loop cls k (Some c) text = None →
            ∀ ws' rest', c :: text = ws' ++ rest' →
                         Forall (λ c, cls c = true) ws' → (0 < length ws')%nat →
                         k (prev_after prev ws') rest' = None) as Hnone.
    { intros Hc Hs [|x ws'] rest' Heq Hws' Hl; [cbn in Hl; lia|].
      injection Heq as <- ->. apply Forall_cons in Hws' as [_ Hws'].
      destruct (k (prev_after prev (c :: ws')) rest') as [r'|] eqn:Hk; [|done].
      destruct (star_loop_complete cls k (Some c) ws' rest' r' Hws' Hk) as [? Hs'].
      congruence. }
    destruct (cls c) eqn:Hc.
    + destruct (star_loop cls k (Some c) text) as [r'|] eqn:Hs.
      * intros [= ->].
        destruct (IH _ Hs) as (ws & rest & -> & Hws & Hk & Hmax).
        exists (c :: ws), rest. repeat split; [by constructor|done|].
        intros [|x ws'] rest' Heq Hws' Hl; [cbn in Hl; lia|].
        injection Heq as <- Heq. apply Forall_cons in Hws' as [_ Hws'].
        apply Hmax; [done..|]. cbn in Hl. lia.
      * intros Hk. exists [], (c :: text). repeat split; [done..|].
        intros ws' rest' Heq Hws' Hl. by apply Hnone.
    + intros Hk. exists [], (c :: text). repeat split; [done..|].
      intros [|x ws'] rest' Heq Hws' Hl; [cbn in Hl; lia|].
      injection Heq as <- _. apply Forall_cons in Hws' as [Hx _]. congruence.
Qed.

Lemma prev_after_cons c l : prev_after (Some c) l = last (c :: l).
Proof.
  revert c. induction l as [|x l IH]; intros c; [done|].
  cbn [prev_after fold_left]. fold (prev_after (Some x) l). rewrite IH. done.
Qed.

Lemma prev_after_nonempty prev x l : prev_after prev (x :: l) = last (x :: l).
Proof. cbn [prev_after fold_left]. apply prev_after_cons. Qed.

(** A run of a class up to a character outside it is determined by the
    text. *)
Lemma run_unique {A : Type} (P : A → bool) (ws ws' : list A) c r r' :
  Forall (λ x, P x = true) ws → Forall (λ x, P x = true) ws' → P c = false →
  ws ++ c :: r = ws' ++ c :: r' → ws = ws' ∧ r = r'.
Proof.
  intros Hws. revert ws'. induction Hws as [|x ws Hx _ IH]; intros ws' Hws' Hc Heq.
  - destruct Hws' as [|y ws' Hy _]; [by injection Heq|].
    injection Heq as -> _. congruence.
  - destruct Hws' as [|y ws' Hy Hws']; injection Heq as Heq1 Heq.
    + congruence.
    + subst y. destruct (IH ws' Hws' Hc Heq) as [-> ->]. done.
Qed.

Lemma reb_match_lit s pat cap prev text r :
  ReB.match_here (ReB.Lit s :: pat) cap prev text = Some r ↔
  ∃ t', text = chars s ++ t'
        ∧ ReB.match_here pat cap (prev_after prev (chars s)) t' = Some r.
Proof.
  cbn [ReB.match_here]. split.
  - destruct (eat_lit s prev text) as [[p' t']|] eqn:He; [|done].
    apply eat_lit_Some in He as [-> ->]. eauto.
  - intros (t' & -> & Hm). by rewrite eat_lit_app.
Qed.

Lemma reb_match_star cls pat cap prev text :
  ReB.match_here (ReB.Star cls :: pat) cap prev text
  = star_loop cls (ReB.match_here pat cap) prev text.
Proof. reflexivity. Qed.

End reb_facts.

Section version_facts.
Import PyVal Re Stdout Version GeoProc GeoProcCli.

Lemma digit_is_word c : is_digit c = true → ReB.is_word c = true.
Proof. destruct c as [[] [] [] [] [] [] [] []]; done. Qed.

Lemma date_head g : date g → ∃ d g', g = d :: g' ∧ is_digit d = true.
Proof.
  intros [Hlen Hall]. destruct g as [|d g']; [done|].
  apply Forall_cons in Hall as [Hd _]. eauto.
Qed.

Lemma date_last g : date g → ∃ d, last g = Some d ∧ is_digit d = true.
Proof.
  intros [Hlen Hall]. destruct (last g) as [d|] eqn:Hl.
  - exists d. split; [done|]. rewrite Forall_forall in Hall.
    apply Hall. apply last_Some in Hl as [l' ->]. apply elem_of_app. right. left.
  - apply last_None in Hl. by subst g.
Qed.

(** The end of the pattern: a whole word of eight digits. *)
Lemma match_date cap prev text g :
  ReB.match_here [ReB.Wordb; ReB.Group is_digit 8; ReB.Wordb] cap prev text = Some g ↔
  ∃ after, text = g ++ after ∧ date g
           ∧ from_option ReB.is_word false prev = false
           ∧ from_option ReB.is_word false (head after) = false.
Proof.
  cbn [ReB.match_here]. unfold ReB.boundary. split.
  - destruct (xorb _ _) eqn:Hb1; [|done].
    destruct (eat_class is_digit 8 prev text) as [[[g' p'] t']|] eqn:He; [|done].
    apply eat_class_Some in He as (-> & Hlen & Hall & ->).
    destruct (xorb _ (from_option ReB.is_word false (head t'))) eqn:Hb2; [|done].
    intros [= <-]. exists t'. split; [done|].
    assert (date g') as Hd by done. split; [done|].
    destruct (date_head _ Hd) as (d & g0 & -> & Hd0).
    destruct (date_last _ Hd) as (e & Hl & He).
    rewrite prev_after_nonempty, Hl in Hb2. cbn [app head from_option] in *.
    rewrite (digit_is_word _ Hd0) in Hb1. rewrite (digit_is_word _ He) in Hb2.
    split.
    + by destruct (from_option ReB.is_word false prev).
    + by destruct (from_option ReB.is_word false (head t')).
  - intros (after & -> & Hd & Hp & Ha).
    destruct (date_head _ Hd) as (d & g0 & Hg & Hd0).
    destruct (date_last _ Hd) as (e & Hl & He).
    destruct Hd as [Hlen Hall]. rewrite <- Hlen, eat_class_app by done.
    rewrite Hg at 1. cbn [app head from_option].
    rewrite Hp, (digit_is_word _ Hd0). cbn [xorb].
    rewrite Hg at 1. rewrite prev_after_nonempty, <- Hg, Hl. cbn [from_option].
    by rewrite (digit_is_word _ He), Ha.
Qed.

Lemma not_newline_Forall mid :
  Forall (λ c, not_newline c = true) mid ↔ newline ∉ mid.
Proof.
  rewrite Forall_forall. unfold not_newline. split.
  - intros H Hin. specialize (H _ Hin). by rewrite Ascii.eqb_refl in H.
  - intros H c Hc. apply negb_true_iff. destruct (Ascii.eqb_spec c newline); [|done].
    by subst c.
Qed.

Lemma prev_after_eq p : prev_after p (chars "=") = Some "="%char.
Proof. done. Qed.

(** The pattern at a position: what it reads is the last date. *)
Lemma match_version_sound prev post g :
  ReB.match_here VERSION_RE [] prev post = Some g →
  ∃ mid after, last_date post mid g after.
Proof.
  unfold VERSION_RE. intros H.
  apply reb_match_lit in H as (t1 & -> & H). rewrite reb_match_star in H.
  apply star_loop_sound in H as (ws & t2 & -> & Hws & H).
  apply reb_match_lit in H as (t3 & -> & H). rewrite reb_match_star in H.
  apply star_loop_longest in H as (mid & t4 & -> & Hmid & H & Hmax).
  apply match_date in H as (after & -> & Hd & Hb & Ha).
  rewrite prev_after_eq in Hb, Hmax. rewrite prev_after_cons in Hb.
  exists mid, after. split.
  - exists ws. split; [done|]. split; [done|].
    split; [by apply not_newline_Forall|]. done.
  - intros mid' g' after' (ws' & Heq & Hws' & Hnl' & Hd' & Hb' & Ha').
    apply app_inv_head in Heq.
    apply (run_unique Py.isspace) in Heq as [<- Heq]; [|done..].
    destruct (Nat.le_gt_cases (length mid') (length mid)) as [|Hlt]; [done|].
    exfalso. apply not_newline_Forall in Hnl'.
    specialize (Hmax mid' (g' ++ after') Heq Hnl' Hlt).
    rewrite prev_after_cons in Hmax.
    assert (ReB.match_here [ReB.Wordb; ReB.Group is_digit 8; ReB.Wordb] []
              (last ("="%char :: mid')) (g' ++ after') = Some g') as Hm.
    { apply match_date. by exists after'. }
    congruence.
Qed.

Lemma match_version_complete prev post mid g after :
  reads post mid g after → is_Some (ReB.match_here VERSION_RE [] prev post).
Proof.
  intros (ws & -> & Hws & Hnl & Hd & Hb & Ha). unfold VERSION_RE.
  assert (ReB.match_here [ReB.Wordb; ReB.Group is_digit 8; ReB.Wordb] []
            (prev_after (Some "="%char) mid) (g ++ after) = Some g) as Hm.
  { apply match_date. exists after. by rewrite prev_after_cons. }
  apply not_newline_Forall in Hnl.
  destruct (star_loop_complete not_newline _ (Some "="%char) mid (g ++ after) g Hnl Hm)
    as [r Hr].
  exists r. apply reb_match_lit. eexists. split; [done|].
  rewrite reb_match_star. apply (star_loop_skip _ _ _ ws _ r); [|done|].
  - intros p c t Hc. cbn [ReB.match_here eat_lit]. by rewrite isspace_not_eq.
  - apply reb_match_lit. eexists. split; [done|]. rewrite reb_match_star.
    rewrite prev_after_eq. exact Hr.
Qed.

Lemma last_date_unique post mid g after mid0 g0 after0 :
  last_date post mid g after → last_date post mid0 g0 after0 → g = g0.
Proof.
  intros [Hr Hmax] [Hr0 Hmax0].
  pose proof (Hmax _ _ _ Hr0) as Hle. pose proof (Hmax0 _ _ _ Hr) as Hle0.
  destruct Hr as (ws & -> & Hws & _ & [Hlen _] & _).
  destruct Hr0 as (ws0 & Heq & Hws0 & _ & [Hlen0 _] & _).
  apply app_inv_head in Heq.
  apply (run_unique Py.isspace) in Heq as [<- Heq]; [|done..].
  apply app_inj_1 in Heq as [_ Heq]; [|lia].
  apply app_inj_1 in Heq as [Heq _]; [done|lia].
Qed.

Lemma date_not_unknown g : date g → string_of_list_ascii g ≠ "UNKNOWN".
Proof.
  intros [Hlen _] Heq.
  apply (f_equal list_ascii_of_string) in Heq.
  rewrite list_ascii_of_string_of_list_ascii in Heq. by subst g.
Qed.

(** The probe on a completed command. *)
Lemma get_db_version_completed out :
  get_db_version (Completed out)
  = match ReB.search_from VERSION_RE None (chars (default "" out)) with
    | Some g => string_of_list_ascii g
    | None => "UNKNOWN"
    end.
Proof.
  unfold get_db_version, ReB.search, chars.
  by destruct (ReB.search_from _ _ _).
Qed.

(** The probe on a sample output: of the two dates on the line of the
    version, the last one is taken. *)
Example get_db_version_example :
  get_db_version (Completed (Some "geoip_lookup database
version = GeoIP2 build 20240101, updated 20250315 by vendor
country_code = US
"))
  = "20250315".
Proof. reflexivity. Qed.

(** X13. Whatever the lookup command does, the label the process backend
    gives an address is [UNKNOWN] or two upper-case ASCII letters, and the
    row carries the address unchanged. *)
Theorem X13_label_is_unknown_or_code (ip : string) (run : run_result) :
  (run_geoip_lookup ip run).1 = ip
  ∧ ((run_geoip_lookup ip run).2 = "UNKNOWN"
     ∨ ∃ g, code g ∧ (run_geoip_lookup ip run).2 = string_of_list_ascii g).
Proof.
  split; [apply run_geoip_lookup_fst|].
  unfold run_geoip_lookup.
  destruct (bool_decide (ip = "") || Py.startswith ip "#"); [by left|].
  destruct run as [out| |]; [|by left..]. cbn [snd]. unfold search.
  destruct (search_from COUNTRY_RE None _) as [g|] eqn:Hs; [|by left].
  right. exists g. split; [|done].
  apply search_from_leftmost in Hs as (pre & post & _ & Hm & _).
  by eapply match_at_code.
Qed.


(** X15. On the output of a completed command the version probe returns
    the date found by this reading: at the leftmost position where the
    text reads [version], whitespace, [=] and, further on the same line,
    eight digits standing as a whole word, it takes the last such word of
    that line.  It returns [UNKNOWN] exactly when the text can be read so
    nowhere.  The date found is unique. *)
Theorem X15_version_is_last_date_of_leftmost_reading (text : string) :
  ((∃ g, found (chars text) g
         ∧ get_db_version (Completed (Some text)) = string_of_list_ascii g)
   ∨ (absent (chars text)
      ∧ get_db_version (Completed (Some text)) = "UNKNOWN"))
  ∧ (∀ g g', found (chars text) g → found (chars text) g' → g = g')
  ∧ (∀ g, found (chars text) g → ¬ absent (chars text)).
Proof.
  rewrite get_db_version_completed. change (default "" (Some text)) with text.
  assert (∀ g g', found (chars text) g → found (chars text) g' → g = g') as Huniq.
  { intros g g' (pre & post & mid & after & Heq & Hl & Hmin)
             (pre' & post' & mid' & after' & Heq' & Hl' & Hmin').
    assert (length pre = length pre') as Hlen.
    { destruct (Nat.lt_trichotomy (length pre) (length pre')) as [Hlt|[?|Hlt]];
        [|done|].
      - destruct Hl as [Hr _]. by destruct (Hmin' _ _ _ _ _ Heq Hlt Hr).
      - destruct Hl' as [Hr _]. by destruct (Hmin _ _ _ _ _ Heq' Hlt Hr). }
    rewrite Heq in Heq'. apply app_inj_1 in Heq' as [_ <-]; [|done].
    by eapply last_date_unique. }
  split; [|split; [exact Huniq|]].
  - destruct (ReB.search_from VERSION_RE None (chars text)) as [g|] eqn:Hs.
    + left. exists g. split; [|done].
      apply reb_search_from_Some in Hs as (pre & post & Heq & Hm & Hmin).
      apply match_version_sound in Hm as (mid & after & Hl).
      exists pre, post, mid, after. split; [done|]. split; [done|].
      intros pre' post' mid' g' after' Heq' Hlt Hr.
      destruct (match_version_complete (prev_after None pre') _ _ _ _ Hr) as [r Hr'].
      rewrite (Hmin pre' post' Heq' Hlt) in Hr'. done.
    + right. split; [|done]. intros pre post mid g after Heq Hr.
      destruct (match_version_complete (prev_after None pre) _ _ _ _ Hr) as [r Hr'].
      rewrite reb_search_from_None in Hs. rewrite (Hs pre post Heq) in Hr'. done.
  - intros g (pre & post & mid & after & Heq & [Hr _] & _) Habs.
    exact (Habs pre post mid g after Heq Hr).
Qed.



End version_facts.

